(** * Crossy Chain: the replay core (generator, recorder, codec, game logic)

    A shallow embedding of
      - client/src/lib/SeededRandom.ts        (Module SeededRandom: all of
        the class)
      - client/src/lib/GameInputRecorder.ts   (Modules InputEvent,
        GameRecording and GameInputRecorder: all of the class)
      - client/src/components/CrossyGame.tsx  (Module CrossyGame: Lane,
        generateLanes, addLane, initializeValues, move, handleKeyDown,
        animate)
    followed by the properties proved about them.

    Conventions.  A JavaScript [number] is a double; the finite ones are
    embedded as rationals with exact arithmetic, the three non-finite ones
    are separate constructors.  Clock readings ([Date.now()],
    [performance.now()], the frame timestamp) and [Math.random()] draws are
    inputs of the environment and are passed explicitly.  Exceptions are a
    sum type.  Rendering state (meshes, camera, lights, the jump height of
    the chicken) is read by no decision of the game and is left out. *)

From Stdlib Require Import ZArith QArith Qround Qabs Qminmax String Ascii List Bool Lia Lqa
  Sorted Permutation.
Import ListNotations.
Open Scope string_scope.
Open Scope list_scope.
Open Scope Z_scope.

Set Warnings "-register-all".

(** ** JavaScript numbers *)

(** The sign of zero is not represented: 0 and -0 are equal under [===]
    and [JSON.stringify] writes both as [0]. *)
Inductive number : Type :=
| Finite (q : Q)
| NaN
| PosInfinity
| NegInfinity.

(** [!x] is false exactly for these numbers: 0 and NaN are the falsy ones. *)
Definition truthy (x : number) : bool :=
  match x with
  | Finite q => negb (Qeq_bool q 0)
  | NaN => false
  | PosInfinity | NegInfinity => true
  end.

(** [x < y] on numbers; any comparison with NaN is false. *)
Definition Qltb (x y : Q) : bool := negb (Qle_bool y x).

Definition num_lt (x y : number) : bool :=
  match x, y with
  | Finite a, Finite b => Qltb a b
  | NegInfinity, Finite _ | NegInfinity, PosInfinity | Finite _, PosInfinity => true
  | _, _ => false
  end.

Definition is_finite (x : number) : bool :=
  match x with Finite _ => true | _ => false end.

(** [Math.round]: the nearest integer, halves towards +infinity. *)
Definition Math_round (q : Q) : Z := Qfloor (q + (1 # 2))%Q.

(** [Math.floor]. *)
Definition Math_floor (q : Q) : Z := Qfloor q.

(** 32-bit conversions of an integer-valued number. *)
Definition two32 : Z := 4294967296.

Definition ToUint32 (z : Z) : Z := z mod two32.

Definition ToInt32 (z : Z) : Z := (z + 2147483648) mod two32 - 2147483648.

(** [a >>> k]: the unsigned 32-bit value shifted right. *)
Definition ushr (a k : Z) : Z := Z.shiftr (ToUint32 a) k.

(** [a ^ b] and [a | b]: both operands as signed 32-bit values. *)
Definition bxor (a b : Z) : Z := Z.lxor (ToInt32 a) (ToInt32 b).

Definition bor (a b : Z) : Z := Z.lor (ToInt32 a) (ToInt32 b).

(** [Math.imul]: the low 32 bits of the product, signed. *)
Definition Math_imul (a b : Z) : Z := ToInt32 (ToInt32 a * ToInt32 b).

(** The double nearest to an integer (round half to even on the 53-bit
    significand); the identity below 2^53. *)
Definition double_of_Z (z : Z) : Z :=
  let a := Z.abs z in
  let e := Z.log2 a - 52 in
  if e <=? 0 then z
  else
    let q := Z.shiftr a e in
    let r := a - Z.shiftl q e in
    let half := Z.shiftl 1 (e - 1) in
    let q' := if r <? half then q
              else if half <? r then q + 1
              else if Z.even q then q else q + 1 in
    Z.sgn z * Z.shiftl q' e.

(** [array[i]]: [undefined] (here [None]) outside the array. *)
Definition js_index {T : Type} (array : list T) (i : Z) : option T :=
  if i <? 0 then None else nth_error array (Z.to_nat i).

(** [a << k]: the signed 32-bit value shifted left by [k & 31], read again as
    a signed 32-bit value. *)
Definition shl (a k : Z) : Z := ToInt32 (Z.shiftl (ToInt32 a) (Z.land k 31)).

(** [a & b]. *)
Definition band (a b : Z) : Z := Z.land (ToInt32 a) (ToInt32 b).

(** Arrays whose elements may be [undefined] (here [None]).  [js_get] is
    [array[i]]; [js_set] is [array[i] = v], which writes an element inside
    the array, extends the array with holes up to a new index, and for a
    negative index sets a property that is no element. *)
Definition js_get {T : Type} (array : list (option T)) (i : Z) : option T :=
  match js_index array i with
  | Some x => x
  | None => None
  end.

Definition js_set {T : Type} (array : list (option T)) (i : Z) (v : option T)
  : list (option T) :=
  if i <? 0 then array
  else
    let n := Z.to_nat i in
    if (n <? List.length array)%nat
    then firstn n array ++ v :: skipn (S n) array
    else array ++ repeat None (n - List.length array) ++ [v].

(** [x - y] and [x / n] for a positive integer [n], on numbers, in exact
    arithmetic on the finite ones.  The code computes in doubles: the
    results are rounded, and a difference beyond the largest double is an
    infinity.  What is proved with them below is for whole numbers within
    2^52, whose difference is exact, and states bounds that rounding
    keeps. *)
Definition num_sub (x y : number) : number :=
  match x, y with
  | Finite a, Finite b => Finite (a - b)
  | NaN, _ | _, NaN => NaN
  | PosInfinity, PosInfinity | NegInfinity, NegInfinity => NaN
  | PosInfinity, _ | _, NegInfinity => PosInfinity
  | NegInfinity, _ | _, PosInfinity => NegInfinity
  end.

Definition num_div_pos (x : number) (n : Z) : number :=
  match x with
  | Finite a => Finite (a / inject_Z n)
  | other => other
  end.

(** ** SeededRandom.ts *)

Module SeededRandom.

(** The only field, [this.seed]: a number that always holds an integer. *)
Record t : Type := mk { seed : Z }.

(** [Math.abs(seed) >>> 0]: the integer part of |seed| modulo 2^32, and 0
    for NaN and the infinities. *)
Definition normalize (s : number) : Z :=
  match s with
  | Finite q => ToUint32 (Qfloor (Qabs q))
  | _ => 0
  end.

Definition constructor (s : number) : t := mk (normalize s).

Definition reset (newSeed : number) (g : t) : t := mk (normalize newSeed).

Definition getSeed (g : t) : Z := seed g.

(** [random()].  [this.seed += 0x6D2B79F5] is an addition of doubles and is
    not wrapped to 32 bits; the bit operations then read it modulo 2^32. *)
Definition random (g : t) : Q * t :=
  let s := double_of_Z (seed g + 1831565813) in
  let t0 := s in
  let t1 := Math_imul (bxor t0 (ushr t0 15)) (bor t0 1) in
  let t2 := bxor t1 (t1 + Math_imul (bxor t1 (ushr t1 7)) (bor t1 61)) in
  (Qmake (ToUint32 (bxor t2 (ushr t2 14))) 4294967296, mk s).

(** [Math.floor(this.random() * (max - min)) + min], on integers and in
    exact arithmetic.  The code computes in doubles: the product is rounded,
    which can lift a value just below an integer to that integer, and
    beyond 2^53 the difference and the sum are rounded too.  What is proved
    of [randomInt] below is the range of its result, which the rounded
    result shares for arguments within 2^52, the lengths of arrays among
    them. *)
Definition randomInt (min max : Z) (g : t) : Z * t :=
  let (r, g') := random g in
  (Math_floor (r * inject_Z (max - min))%Q + min, g').

(** [array[this.randomInt(0, array.length)]]. *)
Definition randomElement {T : Type} (array : list T) (g : t) : option T * t :=
  let (i, g') := randomInt 0 (Z.of_nat (length array)) g in
  (js_index array i, g').

(** [this.random() < probability]. *)
Definition randomBoolean (probability : Q) (g : t) : bool * t :=
  let (r, g') := random g in (Qltb r probability, g').

(** The first [n] draws of a generator. *)
Fixpoint draws (n : nat) (g : t) : list Q :=
  match n with
  | O => []
  | S n' => let (r, g') := random g in r :: draws n' g'
  end.

(** The loop of [shuffle], at index [i] and below:
    [j = this.randomInt(0, i + 1); [result[i], result[j]] = [result[j], result[i]]]. *)
Fixpoint shuffle_loop {T : Type} (i : nat) (result : list (option T)) (g : t)
  : list (option T) * t :=
  match i with
  | O => (result, g)
  | S i' =>
      let (j, g') := randomInt 0 (Z.of_nat i + 1) g in
      let ri := js_get result (Z.of_nat i) in
      let rj := js_get result j in
      shuffle_loop i' (js_set (js_set result (Z.of_nat i) rj) j ri) g'
  end.

(** [shuffle(array)]: works on the copy [[...array]]. *)
Definition shuffle {T : Type} (array : list T) (g : t) : list (option T) * t :=
  shuffle_loop (List.length array - 1) (map Some array) g.

(** The generator after [n] draws. *)
Fixpoint after (n : nat) (g : t) : t :=
  match n with
  | O => g
  | S n' => after n' (snd (random g))
  end.

(** Mulberry32 as it is defined, on a state of 32 bits: the state advances
    by 0x6D2B79F5 modulo 2^32 and the output is mixed from the new state. *)
Definition Mulberry32 (a : Z) : Q * Z :=
  let a' := ToUint32 (a + 1831565813) in
  let t1 := Math_imul (bxor a' (ushr a' 15)) (bor a' 1) in
  let t2 := bxor t1 (t1 + Math_imul (bxor t1 (ushr t1 7)) (bor t1 61)) in
  (Qmake (ToUint32 (bxor t2 (ushr t2 14))) 4294967296, a').

Fixpoint Mulberry32_draws (n : nat) (a : Z) : list Q :=
  match n with
  | O => []
  | S n' => let (r, a') := Mulberry32 a in r :: Mulberry32_draws n' a'
  end.

End SeededRandom.

(** ** Exceptions *)

Inductive exn : Type :=
| Error (message : string)
| TypeError
| SyntaxError.

Inductive result (A : Type) : Type :=
| Ok (a : A)
| Throw (e : exn).

Arguments Ok {A} a.
Arguments Throw {A} e.

(** ** JavaScript values and JSON *)

(** The values that occur in and around a recording. *)
Inductive jsval : Type :=
| VUndefined
| VNull
| VBool (b : bool)
| VNumber (n : number)
| VString (s : string)
| VArray (elements : list jsval)
| VObject (properties : list (string * jsval)).

(** A JSON document.  [JSON.stringify] and [JSON.parse] are built-ins of the
    platform; the text they exchange is represented by the document it
    spells, members in the order written. *)
Inductive json : Type :=
| JNull
| JBool (b : bool)
| JNumber (q : Q)
| JString (s : string)
| JArray (elements : list json)
| JObject (members : list (string * json)).

(** [JSON.stringify]: a number that is not finite is written [null]; inside
    an array [undefined] is written [null]; a property whose value is
    [undefined] is left out; [undefined] itself has no text. *)
Fixpoint JSON_stringify (v : jsval) : option json :=
  match v with
  | VUndefined => None
  | VNull => Some JNull
  | VBool b => Some (JBool b)
  | VNumber (Finite q) => Some (JNumber q)
  | VNumber _ => Some JNull
  | VString s => Some (JString s)
  | VArray l =>
      Some (JArray (map (fun x => match JSON_stringify x with
                                  | Some j => j
                                  | None => JNull
                                  end) l))
  | VObject ps =>
      Some (JObject
              ((fix members (ps : list (string * jsval)) : list (string * json) :=
                  match ps with
                  | [] => []
                  | (k, x) :: ps' =>
                      match JSON_stringify x with
                      | Some j => (k, j) :: members ps'
                      | None => members ps'
                      end
                  end) ps))
  end.

(** What [JSON.stringify] writes for an element of an array. *)
Definition element_text (x : jsval) : json :=
  match JSON_stringify x with
  | Some j => j
  | None => JNull
  end.

(** [obj[k] = v] on an object under construction: an existing property keeps
    its place and takes the new value, a new one goes last. *)
Fixpoint set_property (k : string) (v : jsval) (ps : list (string * jsval))
  : list (string * jsval) :=
  match ps with
  | [] => [(k, v)]
  | (k', v') :: ps' =>
      if String.eqb k k' then (k, v) :: ps' else (k', v') :: set_property k v ps'
  end.

(** [JSON.parse] of a well-formed document; of duplicate members the last
    one wins.  (Integer-like keys, which an object lists first, do not occur
    in a recording.) *)
Fixpoint JSON_parse (j : json) : jsval :=
  match j with
  | JNull => VNull
  | JBool b => VBool b
  | JNumber q => VNumber (Finite q)
  | JString s => VString s
  | JArray l => VArray (map JSON_parse l)
  | JObject ms =>
      VObject (fold_left (fun ps m => set_property (fst m) (JSON_parse (snd m)) ps)
                         ms [])
  end.

(** [!v]. *)
Definition falsy (v : jsval) : bool :=
  match v with
  | VUndefined | VNull => true
  | VBool b => negb b
  | VNumber n => negb (truthy n)
  | VString s => String.eqb s ""
  | VArray _ | VObject _ => false
  end.

(** [v.k]: reading a property of [null] or [undefined] throws; a value that
    [JSON.parse] produced has the property [k] only if it is an object with
    that member (the names read below are not properties of strings, arrays,
    numbers or booleans). *)
Fixpoint lookup_property (k : string) (ps : list (string * jsval)) : jsval :=
  match ps with
  | [] => VUndefined
  | (k', v) :: ps' => if String.eqb k k' then v else lookup_property k ps'
  end.

Definition get_property (v : jsval) (k : string) : result jsval :=
  match v with
  | VUndefined | VNull => Throw TypeError
  | VObject ps => Ok (lookup_property k ps)
  | _ => Ok VUndefined
  end.

Definition Array_isArray (v : jsval) : bool :=
  match v with VArray _ => true | _ => false end.

(** ** GameInputRecorder.ts *)

(** The four actions of the interface, and the strings they are at run time. *)
Inductive Action : Type := forward | backward | left | right.

Definition action_name (a : Action) : string :=
  match a with
  | forward => "forward"
  | backward => "backward"
  | left => "left"
  | right => "right"
  end.

Module InputEvent.
(** [action] is a string: a recording that comes from outside may carry any. *)
Record t : Type := mk { timestamp : number; action : string }.

Definition toJS (e : t) : jsval :=
  VObject [("timestamp", VNumber (timestamp e)); ("action", VString (action e))].
End InputEvent.

Module GameRecording.
Record t : Type := mk {
  seed : number;
  startTime : number;
  inputs : list InputEvent.t;
  finalScore : number;
  duration : number;
  version : string
}.

(** The object a recording is at run time, properties in the order in which
    [stop] writes them. *)
Definition toJS (r : t) : jsval :=
  VObject [("seed", VNumber (seed r));
           ("startTime", VNumber (startTime r));
           ("inputs", VArray (map InputEvent.toJS (inputs r)));
           ("finalScore", VNumber (finalScore r));
           ("duration", VNumber (duration r));
           ("version", VString (version r))].

(** Every number of the recording is finite. *)
Definition finite_numbers (r : t) : bool :=
  is_finite (seed r) && is_finite (startTime r)
  && forallb (fun e => is_finite (InputEvent.timestamp e)) (inputs r)
  && is_finite (finalScore r) && is_finite (duration r).
End GameRecording.

Module GameInputRecorder.

(** The fields of the class.  [startTime] only ever holds a reading of
    [Date.now()] (whole milliseconds), [gameStartTimestamp] a reading of
    [performance.now()]. *)
Record t : Type := mk {
  recording : bool;
  seed : number;
  startTime : Z;
  gameStartTimestamp : Q;
  inputs : list InputEvent.t
}.

Definition version : string := "1.0.0".

(** The state of [new GameInputRecorder()]. *)
Definition new : t := mk false (Finite 0) 0 0 [].

(** [seed || Date.now()]: the seed if one is given and it is truthy,
    otherwise the reading [seedClock] of [Date.now()]. *)
Definition assignedSeed (seed : option number) (seedClock : Z) : number :=
  match seed with
  | Some s => if truthy s then s else Finite (inject_Z seedClock)
  | None => Finite (inject_Z seedClock)
  end.

(** [start(seed?)].  [seedClock] is what [Date.now()] returns if
    [seed || Date.now()] comes to evaluate it, [startClock] what the next
    statement reads, [perfNow] the reading of [performance.now()]. *)
Definition start (seed : option number) (seedClock startClock : Z) (perfNow : Q)
           (r : t) : t :=
  mk true (assignedSeed seed seedClock) startClock perfNow [].

(** [recordInput(action)]; [perfNow] is the reading of [performance.now()]. *)
Definition recordInput (action : Action) (perfNow : Q) (r : t) : t :=
  if negb (recording r) then r
  else
    let timestamp := (perfNow - gameStartTimestamp r)%Q in
    mk (recording r) (seed r) (startTime r) (gameStartTimestamp r)
       (inputs r ++ [InputEvent.mk (Finite (inject_Z (Math_round timestamp)))
                                   (action_name action)]).

(** [stop(finalScore)]; [dateNow] is the reading of [Date.now()].  Returns
    the recording and the recorder as it is left. *)
Definition stop (finalScore : number) (dateNow : Z) (r : t)
  : result (GameRecording.t * t) :=
  if negb (recording r) then Throw (Error "Recorder is not active")
  else
    let r' := mk false (seed r) (startTime r) (gameStartTimestamp r) (inputs r) in
    let duration := dateNow - startTime r in
    Ok (GameRecording.mk (seed r)
                         (Finite (inject_Z (startTime r)))
                         (inputs r)
                         finalScore
                         (Finite (inject_Z duration))
                         version,
        r').

Definition isRecording (r : t) : bool := recording r.

Definition getInputCount (r : t) : Z := Z.of_nat (List.length (inputs r)).

(** [serialize]: the text of [JSON.stringify(recording)]. *)
Definition serialize (recording : GameRecording.t) : option json :=
  JSON_stringify (GameRecording.toJS recording).

(** [deserialize(data)].  [data = None] stands for a text that is not JSON,
    on which [JSON.parse] throws.  The cast to [GameRecording] checks
    nothing, so the result is the parsed value as it is; the version
    warning only writes to the console. *)
Definition deserialize (data : option json) : result jsval :=
  match data with
  | None => Throw SyntaxError
  | Some j =>
      let recording := JSON_parse j in
      match get_property recording "seed" with
      | Throw e => Throw e
      | Ok seed =>
          if falsy seed then Throw (Error "Invalid recording format")
          else
            match get_property recording "inputs" with
            | Throw e => Throw e
            | Ok inputs =>
                if falsy inputs || negb (Array_isArray inputs)
                then Throw (Error "Invalid recording format")
                else Ok recording
            end
      end
  end.

(** The first loop of [validate]: no input has a timestamp below that of
    the input before it. *)
Fixpoint ordered (inputs : list InputEvent.t) : bool :=
  match inputs with
  | [] => true
  | a :: rest =>
      match rest with
      | [] => true
      | b :: _ =>
          if num_lt (InputEvent.timestamp b) (InputEvent.timestamp a) then false
          else ordered rest
      end
  end.

Definition validActions : list string := ["forward"; "backward"; "left"; "right"].

(** [array.includes(x)] on strings. *)
Definition includes (array : list string) (x : string) : bool :=
  existsb (String.eqb x) array.

(** [validate(recording)].  On a value of type [GameRecording] the test
    [!recording.inputs] is never true: an array is truthy. *)
Definition validate (recording : GameRecording.t) : bool :=
  if negb (truthy (GameRecording.seed recording))
     || false
     || negb (truthy (GameRecording.startTime recording))
  then false
  else if negb (ordered (GameRecording.inputs recording)) then false
  else forallb (fun input => includes validActions (InputEvent.action input))
               (GameRecording.inputs recording).

(** Calls on a recorder, each with the clock readings it takes. *)
Inductive call : Type :=
| Start (seed : option number) (seedClock startClock : Z) (perfNow : Q)
| RecordInput (action : Action) (perfNow : Q)
| Stop (finalScore : number) (dateNow : Z).

(** The recorder after a call; a [stop] that throws leaves it as it was. *)
Definition exec (r : t) (c : call) : t :=
  match c with
  | Start s c1 c2 p => start s c1 c2 p r
  | RecordInput a p => recordInput a p r
  | Stop f d => match stop f d r with Ok (_, r') => r' | Throw _ => r end
  end.

Definition run (calls : list call) (r : t) : t := fold_left exec calls r.

(** The calls [recordInput(a)] at the clock readings [t], in order. *)
Definition recordCalls (recs : list (Action * Q)) : list call :=
  map (fun e => RecordInput (fst e) (snd e)) recs.

(** The event that [recordInput(a)] at reading [t] appends when the
    recorder was started at reading [p]. *)
Definition recorded (p : Q) (e : Action * Q) : InputEvent.t :=
  InputEvent.mk (Finite (inject_Z (Math_round (snd e - p)))) (action_name (fst e)).

(** Two inputs one after the other with timestamps that do not decrease. *)
Definition timestamp_le (a b : InputEvent.t) : Prop :=
  match InputEvent.timestamp a, InputEvent.timestamp b with
  | Finite x, Finite y => (x <= y)%Q
  | _, _ => False
  end.

(** *** [getStats] *)

(** The object that [getStats] returns. *)
Record stats : Type := mkStats {
  totalInputs : Z;
  forwardMoves : Z;
  backwardMoves : Z;
  leftMoves : Z;
  rightMoves : Z;
  averageInputInterval : number
}.

(** The body of the [forEach]: the [switch] on the action of an input. *)
Definition tally (s : stats) (input : InputEvent.t) : stats :=
  let a := InputEvent.action input in
  if String.eqb a "forward" then
    mkStats (totalInputs s) (forwardMoves s + 1) (backwardMoves s) (leftMoves s)
            (rightMoves s) (averageInputInterval s)
  else if String.eqb a "backward" then
    mkStats (totalInputs s) (forwardMoves s) (backwardMoves s + 1) (leftMoves s)
            (rightMoves s) (averageInputInterval s)
  else if String.eqb a "left" then
    mkStats (totalInputs s) (forwardMoves s) (backwardMoves s) (leftMoves s + 1)
            (rightMoves s) (averageInputInterval s)
  else if String.eqb a "right" then
    mkStats (totalInputs s) (forwardMoves s) (backwardMoves s) (leftMoves s)
            (rightMoves s + 1) (averageInputInterval s)
  else s.

(** [getStats(recording)].  With more than one input both [inputs[0]] and
    [inputs[length - 1]] exist; reading [timestamp] of a missing one would
    throw, which the last case stands for. *)
Definition getStats (recording : GameRecording.t) : result stats :=
  let events := GameRecording.inputs recording in
  let n := Z.of_nat (List.length events) in
  let s := fold_left tally events (mkStats n 0 0 0 0 (Finite 0)) in
  if 1 <? n then
    match js_index events (n - 1), js_index events 0 with
    | Some final, Some first =>
        let totalTime :=
          num_sub (InputEvent.timestamp final) (InputEvent.timestamp first) in
        Ok (mkStats (totalInputs s) (forwardMoves s) (backwardMoves s)
                    (leftMoves s) (rightMoves s) (num_div_pos totalTime (n - 1)))
    | _, _ => Throw TypeError
    end
  else Ok s.

(** How often an action occurs among inputs. *)
Definition occurrences (a : string) (events : list InputEvent.t) : Z :=
  Z.of_nat (List.length (filter (fun e => String.eqb (InputEvent.action e) a) events)).

(** *** [hash] *)

(** [data.charCodeAt(i)] for each [i] in turn; the text that [hash] builds
    is made of what numbers are written with, which is ASCII. *)
Definition charCodes (data : string) : list Z :=
  map (fun c => Z.of_nat (Ascii.nat_of_ascii c)) (list_ascii_of_string data).

(** One turn of the loop: [hash = ((hash << 5) - hash) + char] and then
    [hash = hash & hash]. *)
Definition hashStep (hash char : Z) : Z :=
  let hash := (shl hash 5 - hash) + char in
  band hash hash.

Definition hashCode (data : string) : Z := fold_left hashStep (charCodes data) 0.

(** The polynomial in 31 with the character codes as coefficients. *)
Definition polynomial31 (codes : list Z) : Z :=
  fold_left (fun h c => 31 * h + c) codes 0.

(** [n.toString(36)] for an integer [n >= 0]. *)
Definition digits36 : list Ascii.ascii :=
  list_ascii_of_string "0123456789abcdefghijklmnopqrstuvwxyz".

Fixpoint toString36_from (fuel : nat) (n : Z) (acc : string) : string :=
  match fuel with
  | O => acc
  | S fuel' =>
      let acc' := String (nth (Z.to_nat (n mod 36)) digits36 "0"%char) acc in
      if n / 36 =? 0 then acc' else toString36_from fuel' (n / 36) acc'
  end.

Definition toString36 (n : Z) : string :=
  toString36_from (S (Z.to_nat (Z.log2 n))) n EmptyString.

(** [hash(recording)].  [Number_toString] is the conversion of a number to
    the text that a template literal inserts, a built-in of the platform. *)
Definition hash (Number_toString : number -> string)
           (recording : GameRecording.t) : string :=
  let data :=
    (Number_toString (GameRecording.seed recording) ++ "-" ++
     Number_toString
       (Finite (inject_Z (Z.of_nat (List.length (GameRecording.inputs recording)))))
     ++ "-" ++ Number_toString (GameRecording.finalScore recording))%string in
  toString36 (Z.abs (hashCode data)).

End GameInputRecorder.

(** ** CrossyGame.tsx *)

Module CrossyGame.

(** *** Game constants *)

Definition zoom : Q := 2.
Definition chickenSize : Q := 15.
Definition positionWidth : Q := 42.
Definition columns : Z := 17.
Definition boardWidth : Q := (positionWidth * inject_Z columns)%Q.
Definition stepTime : Q := 200.

Inductive LaneType : Type := field | car | truck | forest.

Definition LaneType_eqb (a b : LaneType) : bool :=
  match a, b with
  | field, field | car, car | truck, truck | forest, forest => true
  | _, _ => false
  end.

Definition laneTypes : list LaneType := [car; truck; forest].
Definition laneSpeeds : list Q := [2; 5 # 2; 3]%Q.
Definition vehicleColors : list Z := [10822947; 12432952; 7909707].
Definition treeHeights : list Z := [20; 45; 60].

(** *** Computations that draw from [Math.random]

    A computation reads the draws that the environment will supply, in
    order, and returns the ones it has not used.  [Starved] means that the
    draws given are not enough, or that one of them is not a value of
    [Math.random()], which lies in [0, 1). *)

Inductive outcome (A : Type) : Type :=
| Returns (a : A) (rest : list Q)
| Throws (e : exn)
| Starved.

Arguments Returns {A} a rest.
Arguments Throws {A} e.
Arguments Starved {A}.

Definition G (A : Type) : Type := list Q -> outcome A.

Definition ret {A : Type} (a : A) : G A := fun rnd => Returns a rnd.

Definition bind {A B : Type} (m : G A) (k : A -> G B) : G B :=
  fun rnd =>
    match m rnd with
    | Returns a rest => k a rest
    | Throws e => Throws e
    | Starved => Starved
    end.

Definition throw {A : Type} (e : exn) : G A := fun _ => Throws e.

Notation "x <- m ;; k" := (bind m (fun x => k))
  (at level 61, m at next level, right associativity).

(** A computation reads its draws from the front: what it returns is fixed
    by the draws it used, whatever comes after them. *)
Definition reads_prefix {A : Type} (m : G A) : Prop :=
  forall rnd a rest,
    m rnd = Returns a rest ->
    exists used,
      rnd = used ++ rest /\
      forall rest', m (used ++ rest') = Returns a rest'.

(** A computation that throws nothing, whatever the draws. *)
Definition no_throw {A : Type} (m : G A) : Prop :=
  forall rnd e, m rnd <> Throws e.

Definition is_draw (r : Q) : bool := Qle_bool 0 r && Qltb r 1.

Definition Math_random : G Q :=
  fun rnd =>
    match rnd with
    | [] => Starved
    | r :: rest => if is_draw r then Returns r rest else Starved
    end.

(** [array[Math.floor(Math.random() * array.length)]].  The index is within
    the array because the draw is in [0, 1); outside, where [pick] must
    still answer, it throws. *)
Definition pick {A : Type} (array : list A) : G A :=
  r <- Math_random ;;
  match js_index array (Math_floor (r * inject_Z (Z.of_nat (List.length array)))%Q) with
  | Some x => ret x
  | None => throw TypeError
  end.

(** [set.has(x)] and [set.add(x)] on a [Set] of numbers, kept in insertion
    order. *)
Definition has (set : list Z) (x : Z) : bool := existsb (Z.eqb x) set.

Definition add (set : list Z) (x : Z) : list Z :=
  if has set x then set else set ++ [x].

(** *** Game objects *)

Record tree : Type := mkTree { height : Z; tree_position_x : Q }.

Record vehicle : Type := mkVehicle { color : Z; position_x : Q }.

(** [Tree()], [Car()] and [Truck()] each take one draw, for the height of
    the crown or the colour. *)
Definition Tree : G Z := pick treeHeights.
Definition Car : G Z := pick vehicleColors.
Definition Truck : G Z := pick vehicleColors.

(** A lane; the fields that a lane of its type does not have are empty. *)
Record laneT : Type := mkLane {
  index : Z;
  type : LaneType;
  occupiedPositions : list Z;
  trees : list tree;
  direction : bool;
  vehicles : list vehicle;
  speed : Q
}.

(** [do { position = Math.floor((Math.random() * columns) / divider) }
    while (occupied.has(position))]; the forest lanes have no divider,
    which is [divider = 1] here. *)
Fixpoint drawPosition (divider : Q) (occupied : list Z) (rnd : list Q)
  : outcome Z :=
  match rnd with
  | [] => Starved
  | r :: rest =>
      if is_draw r then
        let position := Math_floor ((r * inject_Z columns) / divider)%Q in
        if has occupied position then drawPosition divider occupied rest
        else Returns position rest
      else Starved
  end.

(** The [map] over [[1, 2, 3, 4]] of a forest lane, [n] trees to go. *)
Fixpoint plantTrees (n : nat) (occupied : list Z) (planted : list tree)
  : G (list Z * list tree) :=
  match n with
  | O => ret (occupied, planted)
  | S n' =>
      h <- Tree ;;
      position <- drawPosition 1 occupied ;;
      plantTrees n' (add occupied position)
        (planted ++ [mkTree h
           ((inject_Z position * positionWidth + positionWidth / 2) * zoom
            - (boardWidth * zoom) / 2)%Q])
  end.

(** The [map] over [Array(vehicleCount)] of a car or truck lane. *)
Fixpoint placeVehicles (n : nat) (ty : LaneType) (divider : Q)
         (occupied : list Z) (placed : list vehicle) : G (list vehicle) :=
  match n with
  | O => ret placed
  | S n' =>
      c <- (if LaneType_eqb ty car then Car else Truck) ;;
      position <- drawPosition divider occupied ;;
      placeVehicles n' ty divider (add occupied position)
        (placed ++ [mkVehicle c
           ((inject_Z position * positionWidth * divider + positionWidth / 2) * zoom
            - (boardWidth * zoom) / 2)%Q])
  end.

(** [Lane(index)].  A lane whose type were [undefined] would have no mesh,
    on which both callers throw at once; [pick] throws for it. *)
Definition Lane (index : Z) : G laneT :=
  ty <- (if index <=? 0 then ret field else pick laneTypes) ;;
  match ty with
  | field => ret (mkLane index field [] [] false [] 0)
  | forest =>
      ot <- plantTrees 4 [] [] ;;
      ret (mkLane index forest (fst ot) (snd ot) false [] 0)
  | car | truck =>
      d <- Math_random ;;
      let direction := Qle_bool (1 # 2) d in
      let vehicleCount := if LaneType_eqb ty car then 3%nat else 2%nat in
      let divider : Q := (if LaneType_eqb ty car then 2 else 3)%Q in
      vs <- placeVehicles vehicleCount ty divider [] [] ;;
      s <- pick laneSpeeds ;;
      ret (mkLane index ty [] [] direction vs s)
  end.

(** *** Game state *)

(** What the component tells its parent. *)
Inductive callback : Type :=
| onScoreChange (score : Z)
| onGameOver (score : Z).

Record game : Type := mkGame {
  lanes : list laneT;
  currentLane : Z;
  currentColumn : Z;
  previousTimestamp : option Q;
  startMoving : bool;
  moves : list string;
  stepStartTimestamp : option Q;
  gameOver : bool;
  chicken_position_x : Q;
  chicken_position_y : Q;
  calls : list callback
}.

(** The declarations before [initializeValues()]. *)
Definition initialState : game :=
  mkGame [] 0 (Math_floor (inject_Z columns / 2)%Q) None false [] None false 0 0 [].

(** [mapM] of [Lane] over a list of indices. *)
Fixpoint mapLane (indices : list Z) : G (list laneT) :=
  match indices with
  | [] => ret []
  | i :: rest =>
      l <- Lane i ;;
      ls <- mapLane rest ;;
      ret (l :: ls)
  end.

Definition generateLanes : G (list laneT) :=
  ls <- mapLane [-9; -8; -7; -6; -5; -4; -3; -2; -1; 0; 1; 2; 3; 4; 5; 6; 7; 8; 9] ;;
  ret (filter (fun l => 0 <=? index l) ls).

Definition set_lanes (ls : list laneT) (st : game) : game :=
  mkGame ls (currentLane st) (currentColumn st) (previousTimestamp st)
         (startMoving st) (moves st) (stepStartTimestamp st) (gameOver st)
         (chicken_position_x st) (chicken_position_y st) (calls st).

Definition addLane (st : game) : G game :=
  let index := Z.of_nat (List.length (lanes st)) in
  l <- Lane index ;;
  ret (set_lanes (lanes st ++ [l]) st).

Definition initializeValues (st : game) : G game :=
  ls <- generateLanes ;;
  ret (mkGame ls 0 (Math_floor (inject_Z columns / 2)%Q) None false [] None false
              0 0 (calls st)).

(** *** [move] *)

Record position : Type := mkPosition { lane : Z; column : Z }.

(** The [reduce] over the pending moves: where the player will stand once
    they are all carried out. *)
Definition finalPositions (st : game) : position :=
  fold_left
    (fun position mv =>
       if String.eqb mv "forward" then mkPosition (lane position + 1) (column position)
       else if String.eqb mv "backward" then mkPosition (lane position - 1) (column position)
       else if String.eqb mv "left" then mkPosition (lane position) (column position - 1)
       else if String.eqb mv "right" then mkPosition (lane position) (column position + 1)
       else position)
    (moves st)
    (mkPosition (currentLane st) (currentColumn st)).

(** [!stepStartTimestamp]: [null] and 0 are falsy. *)
Definition no_timestamp (t : option Q) : bool :=
  match t with
  | None => true
  | Some q => Qeq_bool q 0
  end.

(** [lanes[i].type === "forest" && lanes[i].occupiedPositions.has(c)];
    reading [type] of a lane that does not exist throws. *)
Definition blocked (ls : list laneT) (i c : Z) : result bool :=
  match js_index ls i with
  | None => Throw TypeError
  | Some l => Ok (LaneType_eqb (type l) forest && has (occupiedPositions l) c)
  end.

(** [if (!stepStartTimestamp) startMoving = true]. *)
Definition set_startMoving (st : game) : game :=
  mkGame (lanes st) (currentLane st) (currentColumn st) (previousTimestamp st)
         (if no_timestamp (stepStartTimestamp st) then true else startMoving st)
         (moves st) (stepStartTimestamp st) (gameOver st)
         (chicken_position_x st) (chicken_position_y st) (calls st).

(** [moves.push(direction)]. *)
Definition push_move (direction : string) (st : game) : game :=
  mkGame (lanes st) (currentLane st) (currentColumn st) (previousTimestamp st)
         (startMoving st) (moves st ++ [direction]) (stepStartTimestamp st)
         (gameOver st) (chicken_position_x st) (chicken_position_y st) (calls st).

Definition move (direction : string) (st : game) : G game :=
  if gameOver st then ret st
  else
    let fp := finalPositions st in
    if String.eqb direction "forward" then
      match blocked (lanes st) (lane fp + 1) (column fp) with
      | Throw e => throw e
      | Ok true => ret st
      | Ok false =>
          st' <- addLane (set_startMoving st) ;;
          ret (push_move direction st')
      end
    else if String.eqb direction "backward" then
      if lane fp =? 0 then ret st
      else
        match blocked (lanes st) (lane fp - 1) (column fp) with
        | Throw e => throw e
        | Ok true => ret st
        | Ok false => ret (push_move direction (set_startMoving st))
        end
    else if String.eqb direction "left" then
      if column fp =? 0 then ret st
      else
        match blocked (lanes st) (lane fp) (column fp - 1) with
        | Throw e => throw e
        | Ok true => ret st
        | Ok false => ret (push_move direction (set_startMoving st))
        end
    else if String.eqb direction "right" then
      if column fp =? columns - 1 then ret st
      else
        match blocked (lanes st) (lane fp) (column fp + 1) with
        | Throw e => throw e
        | Ok true => ret st
        | Ok false => ret (push_move direction (set_startMoving st))
        end
    else ret (push_move direction st).

(** *** [animate] *)

Definition aBitBeforeTheBeginingOfLane : Q :=
  ((- boardWidth * zoom) / 2 - positionWidth * 2 * zoom)%Q.

Definition aBitAfterTheEndOFLane : Q :=
  ((boardWidth * zoom) / 2 + positionWidth * 2 * zoom)%Q.

(** One vehicle of a lane for a frame that comes [delta] after the last. *)
Definition driveVehicle (l : laneT) (delta : Q) (v : vehicle) : vehicle :=
  if direction l then
    mkVehicle (color v)
      (if Qltb (position_x v) aBitBeforeTheBeginingOfLane
       then aBitAfterTheEndOFLane
       else (position_x v - (speed l / 16) * delta)%Q)
  else
    mkVehicle (color v)
      (if Qltb aBitAfterTheEndOFLane (position_x v)
       then aBitBeforeTheBeginingOfLane
       else (position_x v + (speed l / 16) * delta)%Q).

Definition is_road (ty : LaneType) : bool :=
  LaneType_eqb ty car || LaneType_eqb ty truck.

Definition driveLane (delta : Q) (l : laneT) : laneT :=
  if is_road (type l) then
    mkLane (index l) (type l) (occupiedPositions l) (trees l) (direction l)
           (map (driveVehicle l delta) (vehicles l)) (speed l)
  else l.

(** [Math.min(moveDeltaTime / stepTime, 1) * positionWidth * zoom]. *)
Definition moveDeltaDistance (moveDeltaTime : Q) : Q :=
  (Qmin (moveDeltaTime / stepTime) 1 * positionWidth * zoom)%Q.

(** The first [switch (moves[0])] of a step: where the chicken is drawn. *)
Definition chickenAt (st : game) (moveDeltaTime : Q) : Q * Q :=
  let d := moveDeltaDistance moveDeltaTime in
  let columnX := ((inject_Z (currentColumn st) * positionWidth + positionWidth / 2) * zoom
                  - (boardWidth * zoom) / 2)%Q in
  match js_index (moves st) 0 with
  | Some mv =>
      if String.eqb mv "forward" then
        (chicken_position_x st,
         (inject_Z (currentLane st) * positionWidth * zoom + d)%Q)
      else if String.eqb mv "backward" then
        (chicken_position_x st,
         (inject_Z (currentLane st) * positionWidth * zoom - d)%Q)
      else if String.eqb mv "left" then ((columnX - d)%Q, chicken_position_y st)
      else if String.eqb mv "right" then ((columnX + d)%Q, chicken_position_y st)
      else (chicken_position_x st, chicken_position_y st)
  | None => (chicken_position_x st, chicken_position_y st)
  end.

(** [{ car: 60, truck: 105 }[type]]. *)
Definition vehicleLength (ty : LaneType) : Q :=
  match ty with
  | car => 60
  | truck => 105
  | _ => 0
  end.

(** The test of one vehicle against the chicken. *)
Definition hits (ty : LaneType) (chicken_x : Q) (v : vehicle) : bool :=
  let chickenMinX := (chicken_x - (chickenSize * zoom) / 2)%Q in
  let chickenMaxX := (chicken_x + (chickenSize * zoom) / 2)%Q in
  let carMinX := (position_x v - (vehicleLength ty * zoom) / 2)%Q in
  let carMaxX := (position_x v + (vehicleLength ty * zoom) / 2)%Q in
  Qltb carMinX chickenMaxX && Qltb chickenMinX carMaxX.

(** The body of the [forEach] of the hit test: a vehicle that overlaps the
    chicken sets [gameOver] and calls [onGameOver(currentLane)]. *)
Definition hitVehicle (ty : LaneType) (st : game) (v : vehicle) : game :=
  if hits ty (chicken_position_x st) v then
    mkGame (lanes st) (currentLane st) (currentColumn st) (previousTimestamp st)
           (startMoving st) (moves st) (stepStartTimestamp st) true
           (chicken_position_x st) (chicken_position_y st)
           (calls st ++ [onGameOver (currentLane st)])
  else st.

(** The hit test at the end of a frame, on the lane of the player. *)
Definition hitTest (st : game) : game :=
  match js_index (lanes st) (currentLane st) with
  | Some l =>
      if is_road (type l) then fold_left (hitVehicle (type l)) (vehicles l) st
      else st
  | None => st
  end.

(** What the hit test leaves alone, and what it adds: the relation of a
    game to the game after the test. *)
Definition hit_tested (st st' : game) : Prop :=
  currentLane st' = currentLane st /\
  currentColumn st' = currentColumn st /\
  moves st' = moves st /\
  (gameOver st = true -> gameOver st' = true) /\
  exists n, calls st' = calls st ++ repeat (onGameOver (currentLane st)) n.

(** The part of a frame between the traffic and the hit test: the move in
    flight.  [st] already has this frame's [stepStartTimestamp]. *)
Definition stepMove (timestamp : Q) (st : game) : game :=
  match stepStartTimestamp st with
  | None => st
  | Some stepStart =>
      if Qeq_bool stepStart 0 then st
      else
        let moveDeltaTime := (timestamp - stepStart)%Q in
        let (x, y) := chickenAt st moveDeltaTime in
        if Qltb stepTime moveDeltaTime then
          let mv := js_index (moves st) 0 in
          let head_is (s : string) :=
            match mv with Some m => String.eqb m s | None => false end in
          let currentLane' :=
            if head_is "forward" then currentLane st + 1
            else if head_is "backward" then currentLane st - 1
            else currentLane st in
          let currentColumn' :=
            if head_is "forward" then currentColumn st
            else if head_is "backward" then currentColumn st
            else if head_is "left" then currentColumn st - 1
            else if head_is "right" then currentColumn st + 1
            else currentColumn st in
          let calls' :=
            if head_is "forward" then calls st ++ [onScoreChange currentLane']
            else if head_is "backward" then calls st ++ [onScoreChange currentLane']
            else calls st in
          let moves' := tl (moves st) in
          mkGame (lanes st) currentLane' currentColumn' (previousTimestamp st)
                 (startMoving st) moves'
                 (match moves' with [] => None | _ :: _ => Some timestamp end)
                 (gameOver st) x y calls'
        else
          mkGame (lanes st) (currentLane st) (currentColumn st) (previousTimestamp st)
                 (startMoving st) (moves st) (stepStartTimestamp st) (gameOver st)
                 x y (calls st)
  end.

(** The guard of the second [switch] of a frame: a move is in flight, with
    this frame's [stepStartTimestamp], and has lasted longer than
    [stepTime]. *)
Definition moveCompletes (timestamp : Q) (st : game) : bool :=
  match (if startMoving st then Some timestamp else stepStartTimestamp st) with
  | None => false
  | Some stepStart =>
      negb (Qeq_bool stepStart 0) && Qltb stepTime (timestamp - stepStart)
  end.

(** [animate(timestamp)], one frame: the traffic, the move in flight, the
    hit test.  The browser calls it; which frames come, and when, is an
    input. *)
Definition animate (timestamp : Q) (st : game) : game :=
  let previous :=
    if no_timestamp (previousTimestamp st) then timestamp
    else match previousTimestamp st with Some p => p | None => timestamp end in
  let delta := (timestamp - previous)%Q in
  let st1 :=
    mkGame (map (driveLane delta) (lanes st)) (currentLane st) (currentColumn st)
           (Some timestamp)
           false (moves st)
           (if startMoving st then Some timestamp else stepStartTimestamp st)
           (gameOver st) (chicken_position_x st) (chicken_position_y st) (calls st) in
  hitTest (stepMove timestamp st1).

(** *** Sessions *)

(** What happens to a mounted game: a call of [move] (a key, or the
    exposed handle) or a frame. *)
Inductive event : Type :=
| Move (direction : string)
| Frame (timestamp : Q).

Definition step (e : event) (st : game) : G game :=
  match e with
  | Move d => move d st
  | Frame t => ret (animate t st)
  end.

Fixpoint run (events : list event) (st : game) : G game :=
  match events with
  | [] => ret st
  | e :: rest => st' <- step e st ;; run rest st'
  end.

(** A session: the effect body up to and including the events. *)
Definition session (events : list event) : G game :=
  st <- initializeValues initialState ;;
  run events st.

(** The rows of a game, as [Lane] generated them and the frames moved
    their vehicles. *)
Definition layout (st : game) : list laneT := lanes st.

(** Draws for examples, all of them doubles.  [forestRow] makes a forest
    lane with trees of height 20 in the columns 0 to 3; [carRow] a car lane
    that runs towards the left at speed 2, with cars at the positions 0, 1
    and 7 of its 9. *)
Definition forestRow : list Q := [3 # 4; 0; 0; 0; 1 # 16; 0; 1 # 8; 0; 3 # 16]%Q.

Definition carRow : list Q := [0; 3 # 4; 0; 0; 0; 1 # 8; 0; 15 # 16; 0]%Q.

Definition forestDraws : list Q := List.concat (repeat forestRow 12).

Definition carDraws : list Q := carRow ++ List.concat (repeat forestRow 11).

(** *** The keyboard *)

(** [handleKeyDown(event)], on [event.key]. *)
Definition handleKeyDown (key : string) (st : game) : G game :=
  if String.eqb key "ArrowUp" || String.eqb key "w" then move "forward" st
  else if String.eqb key "ArrowDown" || String.eqb key "s" then move "backward" st
  else if String.eqb key "ArrowLeft" || String.eqb key "a" then move "left" st
  else if String.eqb key "ArrowRight" || String.eqb key "d" then move "right" st
  else ret st.

(** What the browser delivers to a mounted game. *)
Inductive input : Type :=
| KeyDown (key : string)
| AnimationFrame (timestamp : Q).

Fixpoint play (inputs : list input) (st : game) : G game :=
  match inputs with
  | [] => ret st
  | KeyDown key :: rest => st' <- handleKeyDown key st ;; play rest st'
  | AnimationFrame t :: rest => play rest (animate t st)
  end.

(** *** Where the player stands *)

(** One pending move carried out: the function of the [reduce] in [move]. *)
Definition advance (p : position) (mv : string) : position :=
  if String.eqb mv "forward" then mkPosition (lane p + 1) (column p)
  else if String.eqb mv "backward" then mkPosition (lane p - 1) (column p)
  else if String.eqb mv "left" then mkPosition (lane p) (column p - 1)
  else if String.eqb mv "right" then mkPosition (lane p) (column p + 1)
  else p.

(** The cells from [p] on, one after each of the moves. *)
Fixpoint path (p : position) (mvs : list string) : list position :=
  match mvs with
  | [] => [p]
  | mv :: rest => p :: path (advance p mv) rest
  end.

(** The cell of the player and the cells the pending moves lead through. *)
Definition standing (st : game) : list position :=
  path (mkPosition (currentLane st) (currentColumn st)) (moves st).

(** A cell of the board that the player may stand on: a column of the
    board, in a row that exists with nine more rows beyond it, and no tree
    on it. *)
Definition clear (ls : list laneT) (p : position) : Prop :=
  0 <= lane p /\
  lane p + 10 <= Z.of_nat (List.length ls) /\
  0 <= column p < columns /\
  exists l,
    js_index ls (lane p) = Some l /\
    LaneType_eqb (type l) forest && has (occupiedPositions l) (column p) = false.

Definition reported (c : callback) : Z :=
  match c with
  | onScoreChange score => score
  | onGameOver score => score
  end.

(** The state of a game in play: the rows are numbered from 0 in order,
    every cell the player stands on or is bound for is clear, and every
    score that was reported is a row with nine more rows beyond it. *)
Definition sound (st : game) : Prop :=
  map index (lanes st) = map Z.of_nat (seq 0 (List.length (lanes st))) /\
  Forall (clear (lanes st)) (standing st) /\
  Forall (fun c => 0 <= reported c /\
                   reported c + 10 <= Z.of_nat (List.length (lanes st)))
         (calls st).

(** *** What a generated row holds *)

(** The centre of column [c], and of slot [s] of a lane whose slots are
    [divider] columns wide: the expressions of [Lane]. *)
Definition columnCentre (c : Z) : Q :=
  ((inject_Z c * positionWidth + positionWidth / 2) * zoom - (boardWidth * zoom) / 2)%Q.

Definition slotCentre (divider : Q) (s : Z) : Q :=
  ((inject_Z s * positionWidth * divider + positionWidth / 2) * zoom
   - (boardWidth * zoom) / 2)%Q.

(** What the frames leave of a row: all but the positions of its vehicles. *)
Definition fixed (l : laneT)
  : Z * LaneType * list Z * list tree * bool * Q * list Z :=
  (index l, type l, occupiedPositions l, trees l, direction l, speed l,
   map color (vehicles l)).

(** The chicken and a vehicle of the row of the player overlap.  The
    chicken is 15 wide and a car 60, a truck 105, all drawn at twice the
    size: they overlap when their centres are less than 15 + 60 (a car) or
    15 + 105 (a truck) apart. *)
Definition overlaps (st : game) : Prop :=
  exists l v,
    js_index (lanes st) (currentLane st) = Some l /\
    In v (vehicles l) /\
    ((type l = car /\ (Qabs (chicken_position_x st - position_x v) < 75)%Q) \/
     (type l = truck /\ (Qabs (chicken_position_x st - position_x v) < 120)%Q)).

End CrossyGame.

(** * Properties *)

(** ** Arithmetic of draws *)

Lemma Qltb_iff (x y : Q) : Qltb x y = true <-> (x < y)%Q.
Proof.
  unfold Qltb. rewrite negb_true_iff. split.
  - intros H. apply Qnot_le_lt. intros Hle.
    apply Qle_bool_iff in Hle. congruence.
  - intros H. destruct (Qle_bool y x) eqn:E; [|reflexivity].
    apply Qle_bool_iff in E. exfalso. exact (Qlt_not_le _ _ H E).
Qed.

Lemma Qltb_false_iff (x y : Q) : Qltb x y = false <-> (y <= x)%Q.
Proof.
  unfold Qltb. rewrite negb_false_iff. apply Qle_bool_iff.
Qed.

(** A draw in [0, 1) scaled by [n > 0] and floored is an index below [n]. *)
Lemma floor_scale_range (r : Q) (n : Z) :
  (0 <= r)%Q -> (r < 1)%Q -> 0 < n -> 0 <= Qfloor (r * inject_Z n) < n.
Proof.
  intros H0 H1 Hn.
  assert (Hpos : (0 < inject_Z n)%Q) by (unfold Qlt; cbn; lia).
  split.
  - change 0 with (Qfloor 0). apply Qfloor_resp_le.
    apply Qmult_le_0_compat; [exact H0 | apply Qlt_le_weak; exact Hpos].
  - rewrite Zlt_Qlt.
    apply Qle_lt_trans with (r * inject_Z n)%Q; [apply Qfloor_le|].
    apply Qlt_le_trans with (1 * inject_Z n)%Q.
    + apply Qmult_lt_compat_r; assumption.
    + rewrite Qmult_1_l. apply Qle_refl.
Qed.

Lemma ToUint32_range (z : Z) : 0 <= ToUint32 z < two32.
Proof. unfold ToUint32, two32. apply Z.mod_pos_bound. lia. Qed.

(** ** SeededRandom *)

(** [random()] returns a number in [0, 1). *)
Lemma random_range (g : SeededRandom.t) :
  (0 <= fst (SeededRandom.random g))%Q /\ (fst (SeededRandom.random g) < 1)%Q.
Proof.
  unfold SeededRandom.random. cbn [fst].
  match goal with
  | |- context [ToUint32 ?x] => pose proof (ToUint32_range x) as Hu; set (u := ToUint32 x) in *
  end.
  unfold two32 in Hu. unfold Qle, Qlt. cbn [Qnum Qden]. lia.
Qed.

(** [randomInt(0, n)] is an index below [n] when [n] is positive, and 0 when
    [n] is 0. *)
Lemma randomInt_range (n : Z) (g : SeededRandom.t) :
  0 < n -> 0 <= fst (SeededRandom.randomInt 0 n g) < n.
Proof.
  intros Hn. unfold SeededRandom.randomInt.
  destruct (random_range g) as [H0 H1].
  destruct (SeededRandom.random g) as [r g']. cbn [fst] in *.
  unfold Math_floor. rewrite Z.sub_0_r, Z.add_0_r.
  apply floor_scale_range; assumption.
Qed.

Lemma randomInt_zero (g : SeededRandom.t) :
  fst (SeededRandom.randomInt 0 0 g) = 0.
Proof.
  unfold SeededRandom.randomInt.
  destruct (SeededRandom.random g) as [r g']. cbn [fst].
  unfold Math_floor. rewrite Z.add_0_r.
  assert (E : (r * inject_Z (0 - 0) == 0)%Q) by (cbn; ring).
  rewrite E. reflexivity.
Qed.

Lemma js_index_in_range {T : Type} (array : list T) (i : Z) :
  0 <= i < Z.of_nat (List.length array) ->
  exists x, js_index array i = Some x /\ In x array.
Proof.
  intros [H0 H1]. unfold js_index.
  destruct (i <? 0) eqn:E; [apply Z.ltb_lt in E; lia|].
  destruct (nth_error array (Z.to_nat i)) as [x|] eqn:Hx.
  - exists x. split; [reflexivity | eapply nth_error_In; exact Hx].
  - apply nth_error_None in Hx. lia.
Qed.

(** C9.  [randomElement] returns [array[i]] for the index [i] that
    [randomInt(0, array.length)] draws.  On a non-empty array that index is
    in [0, array.length) and the result is an element of the array; on the
    empty array the index is 0, which is outside it, and the result is
    [undefined]. *)
Theorem randomElement_in_bounds_or_undefined :
  forall (T : Type) (array : list T) (g : SeededRandom.t),
    let i := fst (SeededRandom.randomInt 0 (Z.of_nat (List.length array)) g) in
    fst (SeededRandom.randomElement array g) = js_index array i /\
    match array with
    | [] => i = 0 /\ fst (SeededRandom.randomElement array g) = None
    | _ :: _ =>
        0 <= i < Z.of_nat (List.length array) /\
        exists x, fst (SeededRandom.randomElement array g) = Some x /\ In x array
    end.
Proof.
  intros T array g i.
  assert (E : fst (SeededRandom.randomElement array g) = js_index array i).
  { unfold SeededRandom.randomElement, i.
    destruct (SeededRandom.randomInt 0 (Z.of_nat (List.length array)) g) as [j g'].
    reflexivity. }
  split; [exact E|].
  destruct array as [|a array'].
  - assert (Hi : i = 0) by (unfold i; apply randomInt_zero).
    split; [exact Hi|]. rewrite E, Hi. reflexivity.
  - assert (Hi : 0 <= i < Z.of_nat (List.length (a :: array'))).
    { unfold i. apply randomInt_range. cbn [List.length]. lia. }
    split; [exact Hi|].
    destruct (js_index_in_range (a :: array') i Hi) as [x [Hx Hin]].
    exists x. rewrite E. split; assumption.
Qed.

(** ** GameInputRecorder: the recorder *)

Section RecorderFacts.
Import GameInputRecorder.

Lemma run_app (cs1 cs2 : list call) (r : t) :
  run (cs1 ++ cs2) r = run cs2 (run cs1 r).
Proof. unfold run. apply fold_left_app. Qed.

(** While recording, a run of [recordInput] calls only appends. *)
Lemma run_recordCalls (recs : list (Action * Q)) (r : t) :
  recording r = true ->
  run (recordCalls recs) r =
  mk true (seed r) (startTime r) (gameStartTimestamp r)
     (inputs r ++ map (recorded (gameStartTimestamp r)) recs).
Proof.
  revert r. induction recs as [|e recs IH]; intros r Hr.
  - cbn. rewrite app_nil_r. destruct r; cbn in *; subst; reflexivity.
  - cbn [recordCalls map run fold_left exec].
    change (fold_left exec (map (fun e0 => RecordInput (fst e0) (snd e0)) recs)
                      (recordInput (fst e) (snd e) r))
      with (run (recordCalls recs) (recordInput (fst e) (snd e) r)).
    unfold recordInput at 1. rewrite Hr. cbn [negb].
    rewrite IH by reflexivity. cbn [seed startTime gameStartTimestamp inputs].
    rewrite <- app_assoc. reflexivity.
Qed.

Lemma run_after_start (seed0 : option number) (c1 c2 : Z) (p : Q)
      (recs : list (Action * Q)) (r : t) :
  run (recordCalls recs) (start seed0 c1 c2 p r) =
  mk true (assignedSeed seed0 c1) c2 p (map (recorded p) recs).
Proof.
  rewrite run_recordCalls by reflexivity. reflexivity.
Qed.

(** The numbers that [!x] takes for absent: 0 and NaN, and no other. *)
Lemma truthy_false_iff (x : number) :
  truthy x = false <-> x = NaN \/ exists q, x = Finite q /\ (q == 0)%Q.
Proof.
  destruct x as [q| | |]; cbn [truthy].
  - rewrite negb_false_iff, Qeq_bool_iff. split.
    + intros H. right. exists q. split; [reflexivity | exact H].
    + intros [H|[q' [H Hq]]]; [discriminate|]. injection H as <-. exact Hq.
  - split; [intros _; left; reflexivity | reflexivity].
  - split; [discriminate|]. intros [H|[q' [H _]]]; discriminate.
  - split; [discriminate|]. intros [H|[q' [H _]]]; discriminate.
Qed.

(** C3.  [start(0)] does not keep the seed it is given.  [start] takes
    "the seed, if applicable" and falls back to the clock when there is
    none, but tells the two apart with [seed || Date.now()], which takes the
    supplied 0 for no seed: the recording that [stop] returns then carries
    the reading of [Date.now()] instead of 0. *)
Lemma start_zero_seed_is_replaced :
  let r := start (Some (Finite 0)) 1700000000000 1700000000000 0 new in
  exists art r',
    stop (Finite 3) 1700000005000 r = Ok (art, r') /\
    GameRecording.seed art = Finite (inject_Z 1700000000000) /\
    GameRecording.seed art <> Finite 0.
Proof.
  cbv zeta. eexists. eexists. split; [reflexivity|].
  split; [reflexivity|]. cbn. discriminate.
Qed.

(** What [stop] returns as the seed, after [start(seed)] and any number of
    [recordInput] calls: the value of [seed || Date.now()] at [start]. *)
Theorem stop_carries_assigned_seed :
  forall (seed0 : option number) (c1 c2 : Z) (p : Q) (r : t)
         (recs : list (Action * Q)) (f : number) (d : Z),
  exists art r',
    stop f d (run (recordCalls recs) (start seed0 c1 c2 p r)) = Ok (art, r') /\
    GameRecording.seed art =
      match seed0 with
      | Some s => if truthy s then s else Finite (inject_Z c1)
      | None => Finite (inject_Z c1)
      end.
Proof.
  intros. rewrite run_after_start. unfold stop. cbn [recording negb].
  eexists. eexists. split; [reflexivity|]. reflexivity.
Qed.

(** C4.  [stop] throws exactly when the recorder is not recording, after
    any calls whatever, and then only "Recorder is not active"; when it is
    recording it returns the inputs held, the given score, the seed and
    the start time of the recorder, and leaves the recorder idle.  The
    inputs held after [start] and a run of [recordInput] calls are exactly
    the events of those calls, in order. *)
Theorem stop_throws_iff_idle :
  forall (calls pre : list call) (seed0 : option number) (c1 c2 : Z) (p : Q)
         (recs : list (Action * Q)) (f : number) (d : Z),
    (let r := run calls new in
     match stop f d r with
     | Throw e => e = Error "Recorder is not active" /\ isRecording r = false
     | Ok (art, r') =>
         isRecording r = true /\
         GameRecording.inputs art = inputs r /\
         GameRecording.finalScore art = f /\
         GameRecording.seed art = seed r /\
         GameRecording.startTime art = Finite (inject_Z (startTime r)) /\
         isRecording r' = false
     end) /\
    (exists art r',
       stop f d (run (pre ++ Start seed0 c1 c2 p :: recordCalls recs) new)
       = Ok (art, r') /\
       GameRecording.inputs art = map (recorded p) recs /\
       GameRecording.finalScore art = f /\
       GameRecording.seed art = assignedSeed seed0 c1 /\
       GameRecording.startTime art = Finite (inject_Z c2) /\
       isRecording r' = false).
Proof.
  intros. split.
  - cbv zeta. unfold stop, isRecording.
    destruct (recording (run calls new)); cbn [negb];
      repeat split; reflexivity.
  - rewrite run_app. cbn [run fold_left exec].
    change (fold_left exec (recordCalls recs) (start seed0 c1 c2 p (fold_left exec pre new)))
      with (run (recordCalls recs) (start seed0 c1 c2 p (run pre new))).
    rewrite run_after_start. unfold stop. cbn [recording negb].
    eexists. eexists. split; [reflexivity|].
    repeat split; reflexivity.
Qed.

Lemma Math_round_monotone (x y : Q) : (x <= y)%Q -> Math_round x <= Math_round y.
Proof.
  intros H. unfold Math_round. apply Qfloor_resp_le.
  apply Qplus_le_compat; [exact H | apply Qle_refl].
Qed.

Lemma recorded_le (p : Q) (e1 e2 : Action * Q) :
  (snd e1 <= snd e2)%Q -> timestamp_le (recorded p e1) (recorded p e2).
Proof.
  intros H. unfold timestamp_le, recorded. cbn [InputEvent.timestamp].
  rewrite <- Zle_Qle. apply Math_round_monotone.
  apply Qplus_le_compat; [exact H | apply Qle_refl].
Qed.

Lemma recorded_sorted (p : Q) (recs : list (Action * Q)) :
  Sorted Qle (map snd recs) -> Sorted timestamp_le (map (recorded p) recs).
Proof.
  induction recs as [|e1 recs IH]; intros H; cbn [map].
  - constructor.
  - cbn [map] in H. inversion H as [|? ? Hs Hh]; subst.
    constructor; [apply IH; exact Hs|].
    destruct recs as [|e2 recs]; cbn [map] in *; constructor.
    inversion Hh; subst. apply recorded_le. assumption.
Qed.

(** Sorted timestamps pass the ordering loop of [validate]. *)
Lemma sorted_ordered (l : list InputEvent.t) :
  Sorted timestamp_le l -> ordered l = true.
Proof.
  induction l as [|a l IH]; intros H; [reflexivity|].
  inversion H as [|? ? Hs Hh]; subst.
  destruct l as [|b l]; [reflexivity|].
  inversion Hh as [|? ? Hab]; subst.
  assert (E : num_lt (InputEvent.timestamp b) (InputEvent.timestamp a) = false).
  { unfold timestamp_le in Hab.
    destruct (InputEvent.timestamp a) as [x| | |]; try contradiction.
    destruct (InputEvent.timestamp b) as [y| | |]; try contradiction.
    cbn [num_lt]. apply Qltb_false_iff. exact Hab. }
  change (ordered (a :: b :: l))
    with (if num_lt (InputEvent.timestamp b) (InputEvent.timestamp a)
          then false else ordered (b :: l)).
  rewrite E. apply IH. exact Hs.
Qed.

(** C5.  When the readings of [performance.now()] at the [recordInput]
    calls between [start] and [stop] do not decrease, the timestamps of
    the inputs of the recording do not decrease either: rounding to the
    millisecond keeps the order.  Such inputs pass the ordering loop of
    [validate]. *)
Theorem recorded_inputs_nondecreasing :
  forall (seed0 : option number) (c1 c2 : Z) (p : Q) (r : t)
         (recs : list (Action * Q)) (f : number) (d : Z),
    Sorted Qle (map snd recs) ->
    exists art r',
      stop f d (run (recordCalls recs) (start seed0 c1 c2 p r)) = Ok (art, r') /\
      Sorted timestamp_le (GameRecording.inputs art) /\
      ordered (GameRecording.inputs art) = true.
Proof.
  intros seed0 c1 c2 p r recs f d H.
  rewrite run_after_start. unfold stop. cbn [recording negb].
  eexists. eexists. split; [reflexivity|].
  cbn [GameRecording.inputs inputs].
  pose proof (recorded_sorted p recs H) as Hs.
  split; [exact Hs | apply sorted_ordered; exact Hs].
Qed.

Lemma recorded_inputs_nondecreasing_witness :
  exists art r',
    stop (Finite 2) 5000
         (run (recordCalls [(forward, 441 # 4); (left, 443 # 4); (forward, 350)]%Q)
              (start (Some (Finite 42)) 1000 1000 100 new)) = Ok (art, r') /\
    Sorted timestamp_le (GameRecording.inputs art) /\
    ordered (GameRecording.inputs art) = true.
Proof.
  apply (recorded_inputs_nondecreasing (Some (Finite 42)) 1000 1000 100 new
           [(forward, 441 # 4); (left, 443 # 4); (forward, 350)]%Q (Finite 2) 5000).
  cbn [map snd].
  repeat constructor; unfold Qle; cbn; lia.
Defined.

End RecorderFacts.

(** ** GameInputRecorder: validation and the codec *)

Section CodecFacts.
Import GameInputRecorder.

Lemma ordered_cons (a b : InputEvent.t) (l : list InputEvent.t) :
  ordered (a :: b :: l) =
  if num_lt (InputEvent.timestamp b) (InputEvent.timestamp a) then false
  else ordered (b :: l).
Proof. reflexivity. Qed.

(** The ordering loop fails on a list with a decreasing adjacent pair. *)
Lemma ordered_decreasing (l1 l2 : list InputEvent.t) (a b : InputEvent.t) :
  num_lt (InputEvent.timestamp b) (InputEvent.timestamp a) = true ->
  ordered (l1 ++ a :: b :: l2) = false.
Proof.
  intros H. induction l1 as [|x l1 IH].
  - cbn [app]. rewrite ordered_cons, H. reflexivity.
  - destruct l1 as [|y l1].
    + cbn [app] in *. rewrite ordered_cons.
      destruct (num_lt (InputEvent.timestamp a) (InputEvent.timestamp x));
        [reflexivity | exact IH].
    + change ((x :: y :: l1) ++ a :: b :: l2) with (x :: y :: (l1 ++ a :: b :: l2)).
      rewrite ordered_cons.
      destruct (num_lt (InputEvent.timestamp y) (InputEvent.timestamp x));
        [reflexivity | exact IH].
Qed.

(** It succeeds only on a list without one. *)
Lemma ordered_adjacent (l : list InputEvent.t) :
  ordered l = true ->
  forall l1 a b l2, l = l1 ++ a :: b :: l2 ->
    num_lt (InputEvent.timestamp b) (InputEvent.timestamp a) = false.
Proof.
  intros H l1 a b l2 ->.
  destruct (num_lt (InputEvent.timestamp b) (InputEvent.timestamp a)) eqn:E;
    [|reflexivity].
  rewrite (ordered_decreasing l1 l2 a b E) in H. discriminate.
Qed.

Lemma includes_In (array : list string) (x : string) :
  includes array x = true <-> In x array.
Proof.
  unfold includes. rewrite existsb_exists. split.
  - intros [y [Hin Heq]]. apply String.eqb_eq in Heq. subst. exact Hin.
  - intros Hin. exists x. split; [exact Hin | apply String.eqb_refl].
Qed.

(** With finite timestamps, passing the ordering loop is being sorted. *)
Lemma ordered_sorted (l : list InputEvent.t) :
  forallb (fun e => is_finite (InputEvent.timestamp e)) l = true ->
  ordered l = true -> Sorted timestamp_le l.
Proof.
  induction l as [|a l IH]; intros Hf Ho; [constructor|].
  cbn [forallb] in Hf. apply andb_true_iff in Hf. destruct Hf as [Ha Hl].
  destruct l as [|b l]; [repeat constructor|].
  rewrite ordered_cons in Ho.
  destruct (num_lt (InputEvent.timestamp b) (InputEvent.timestamp a)) eqn:E;
    [discriminate|].
  constructor; [apply IH; assumption|]. constructor.
  cbn [forallb] in Hl. apply andb_true_iff in Hl. destruct Hl as [Hb _].
  unfold timestamp_le.
  destruct (InputEvent.timestamp a) as [x| | |]; try discriminate.
  destruct (InputEvent.timestamp b) as [y| | |]; try discriminate.
  cbn [num_lt] in E. apply Qltb_false_iff. exact E.
Qed.

Lemma validate_true (rec : GameRecording.t) :
  validate rec = true <->
  truthy (GameRecording.seed rec) = true /\
  truthy (GameRecording.startTime rec) = true /\
  ordered (GameRecording.inputs rec) = true /\
  forallb (fun input => includes validActions (InputEvent.action input))
          (GameRecording.inputs rec) = true.
Proof.
  unfold validate.
  destruct (truthy (GameRecording.seed rec));
    destruct (truthy (GameRecording.startTime rec));
    destruct (ordered (GameRecording.inputs rec)); cbn;
    intuition congruence.
Qed.

(** C6 as stated fails: [validate] answers true on inputs that are not
    sorted.  NaN is below nothing and nothing is below NaN, so the loop,
    which compares each input with the one before it, lets the timestamps
    10, NaN, 5 pass, although 5 comes after 10. *)
Lemma validate_accepts_unsorted :
  let rec := GameRecording.mk (Finite 42) (Finite 1700000000000)
               [InputEvent.mk (Finite 10) "forward";
                InputEvent.mk NaN "left";
                InputEvent.mk (Finite 5) "forward"]
               (Finite 2) (Finite 900) "1.0.0" in
  validate rec = true /\
  ~ Sorted timestamp_le (GameRecording.inputs rec) /\
  exists l1 a l2 b l3,
    GameRecording.inputs rec = l1 ++ a :: l2 ++ b :: l3 /\
    num_lt (InputEvent.timestamp b) (InputEvent.timestamp a) = true.
Proof.
  cbv zeta. split; [reflexivity|]. split.
  - cbn [GameRecording.inputs]. intros H.
    inversion H as [|? ? _ Hhd]. inversion Hhd as [|? ? Hle].
    exact Hle.
  - exists [], (InputEvent.mk (Finite 10) "forward"), [InputEvent.mk NaN "left"],
           (InputEvent.mk (Finite 5) "forward"), [].
    split; reflexivity.
Qed.

(** C6, amended.  [validate] is a total function to booleans.  It answers
    false on a recording that has an input with a timestamp below that of
    the input before it, and on one that has an input whose action is not
    one of the four; it answers true only if the seed and the start time
    are present (truthy), no input has a timestamp below that of the input
    before it, and every action is one of the four.  When all timestamps
    are finite, the inputs of a recording that passes are sorted. *)
Theorem validate_false_and_true :
  forall rec : GameRecording.t,
    ((exists l1 a b l2,
        GameRecording.inputs rec = l1 ++ a :: b :: l2 /\
        num_lt (InputEvent.timestamp b) (InputEvent.timestamp a) = true) ->
     validate rec = false) /\
    ((exists e, In e (GameRecording.inputs rec) /\
                ~ In (InputEvent.action e) ["forward"; "backward"; "left"; "right"]) ->
     validate rec = false) /\
    (validate rec = true ->
     truthy (GameRecording.seed rec) = true /\
     truthy (GameRecording.startTime rec) = true /\
     (forall l1 a b l2,
        GameRecording.inputs rec = l1 ++ a :: b :: l2 ->
        num_lt (InputEvent.timestamp b) (InputEvent.timestamp a) = false) /\
     (forallb (fun e => is_finite (InputEvent.timestamp e))
              (GameRecording.inputs rec) = true ->
      Sorted timestamp_le (GameRecording.inputs rec)) /\
     (forall e, In e (GameRecording.inputs rec) ->
                In (InputEvent.action e) ["forward"; "backward"; "left"; "right"])).
Proof.
  intros rec. split; [|split].
  - intros [l1 [a [b [l2 [E H]]]]].
    destruct (validate rec) eqn:V; [|reflexivity].
    apply validate_true in V. destruct V as [_ [_ [Ho _]]].
    rewrite E, (ordered_decreasing l1 l2 a b H) in Ho. discriminate.
  - intros [e [Hin Hno]].
    destruct (validate rec) eqn:V; [|reflexivity].
    apply validate_true in V. destruct V as [_ [_ [_ Ha]]].
    rewrite forallb_forall in Ha. specialize (Ha e Hin).
    apply includes_In in Ha. contradiction.
  - intros V. apply validate_true in V. destruct V as [Hs [Ht [Ho Ha]]].
    split; [exact Hs|]. split; [exact Ht|]. split; [|split].
    + apply ordered_adjacent. exact Ho.
    + intros Hf. apply ordered_sorted; assumption.
    + intros e Hin. rewrite forallb_forall in Ha.
      apply includes_In. apply Ha. exact Hin.
Qed.

Lemma validate_false_and_true_witness :
  let rec := GameRecording.mk (Finite 42) (Finite 1700000000000)
               [InputEvent.mk (Finite 0) "forward";
                InputEvent.mk (Finite 250) "forward";
                InputEvent.mk (Finite 500) "left"]
               (Finite 2) (Finite 900) "1.0.0" in
  validate rec = true /\
  truthy (GameRecording.seed rec) = true /\
  Sorted timestamp_le (GameRecording.inputs rec).
Proof.
  intros rec.
  assert (V : validate rec = true) by reflexivity.
  split; [exact V|].
  destruct (validate_false_and_true rec) as [_ [_ H]].
  destruct (H V) as [Hs [_ [_ [Hsorted _]]]].
  split; [exact Hs | apply Hsorted; reflexivity].
Defined.

(** An input with a finite timestamp comes back from the text as it was. *)
Lemma input_round_trip (e : InputEvent.t) :
  is_finite (InputEvent.timestamp e) = true ->
  JSON_parse (element_text (InputEvent.toJS e)) = InputEvent.toJS e.
Proof.
  destruct e as [ts a]. cbn [InputEvent.timestamp].
  destruct ts as [q| | |]; try discriminate. intros _. reflexivity.
Qed.

Lemma inputs_round_trip (l : list InputEvent.t) :
  forallb (fun e => is_finite (InputEvent.timestamp e)) l = true ->
  map JSON_parse (map element_text (map InputEvent.toJS l)) = map InputEvent.toJS l.
Proof.
  induction l as [|e l IH]; intros H; [reflexivity|].
  cbn [forallb] in H. apply andb_true_iff in H. destruct H as [He Hl].
  cbn [map]. rewrite (input_round_trip e He), (IH Hl). reflexivity.
Qed.

(** C2 as stated fails: a recording with the score [Infinity] passes
    [validate], is written with [null] for the score, and reads back with
    [null] there. *)
Lemma infinite_score_not_restored :
  let a := GameRecording.mk (Finite 42) (Finite 1700000000000)
             [InputEvent.mk (Finite 0) "forward"] PosInfinity (Finite 900) "1.0.0" in
  validate a = true /\
  deserialize (serialize a) =
    Ok (VObject [("seed", VNumber (Finite 42));
                 ("startTime", VNumber (Finite 1700000000000));
                 ("inputs", VArray [VObject [("timestamp", VNumber (Finite 0));
                                             ("action", VString "forward")]]);
                 ("finalScore", VNull);
                 ("duration", VNumber (Finite 900));
                 ("version", VString "1.0.0")]) /\
  deserialize (serialize a) <> Ok (GameRecording.toJS a).
Proof.
  cbv zeta. split; [reflexivity|]. split; [reflexivity|].
  cbn. discriminate.
Qed.

(** C2, amended.  A recording that passes [validate] and whose numbers
    (seed, start time, score, duration and every timestamp) are all finite
    is read back from its text as the same object: same properties in the
    same order, same inputs in the same order with the same timestamps. *)
Theorem deserialize_serialize_finite :
  forall a : GameRecording.t,
    validate a = true ->
    GameRecording.finite_numbers a = true ->
    deserialize (serialize a) = Ok (GameRecording.toJS a).
Proof.
  intros a V F.
  apply validate_true in V. destruct V as [Hseed _].
  unfold GameRecording.finite_numbers in F.
  repeat (apply andb_true_iff in F; destruct F as [F ?]).
  destruct a as [s st ins fs du ve]. cbn [GameRecording.seed GameRecording.startTime
    GameRecording.inputs GameRecording.finalScore GameRecording.duration] in *.
  destruct s as [qs| | |]; try discriminate.
  destruct st as [qst| | |]; try discriminate.
  destruct fs as [qfs| | |]; try discriminate.
  destruct du as [qdu| | |]; try discriminate.
  unfold serialize, deserialize, GameRecording.toJS.
  cbn [GameRecording.seed GameRecording.startTime GameRecording.inputs
       GameRecording.finalScore GameRecording.duration GameRecording.version].
  cbn [JSON_stringify].
  change (map (fun x => match JSON_stringify x with Some j => j | None => JNull end)
              (map InputEvent.toJS ins))
    with (map element_text (map InputEvent.toJS ins)).
  cbn [JSON_parse fold_left fst snd set_property String.eqb Ascii.eqb Bool.eqb].
  rewrite inputs_round_trip by assumption.
  cbn [get_property lookup_property String.eqb Ascii.eqb Bool.eqb falsy].
  rewrite Hseed. reflexivity.
Qed.

Lemma deserialize_serialize_finite_witness :
  let a := GameRecording.mk (Finite 42) (Finite 1700000000000)
             [InputEvent.mk (Finite 0) "forward";
              InputEvent.mk (Finite 250) "forward";
              InputEvent.mk (Finite 500) "left"]
             (Finite 2) (Finite 900) "1.0.0" in
  deserialize (serialize a) = Ok (GameRecording.toJS a).
Proof.
  intros a. apply (deserialize_serialize_finite a); reflexivity.
Defined.

End CodecFacts.

(** ** CrossyGame: moves and frames *)

Section GameFacts.
Import CrossyGame.

(** C7.  A [left] when the column after the pending moves is 0, a [right]
    when it is the last column, and a [backward] when the lane after the
    pending moves is 0, return with the game as it was: lane, column and the
    queue of moves unchanged, no draw taken, nothing thrown. *)
Theorem boundary_moves_rejected :
  forall (st : game) (rnd : list Q),
    (column (finalPositions st) = 0 -> move "left" st rnd = Returns st rnd) /\
    (column (finalPositions st) = columns - 1 ->
     move "right" st rnd = Returns st rnd) /\
    (lane (finalPositions st) = 0 -> move "backward" st rnd = Returns st rnd).
Proof.
  intros st rnd. unfold move.
  destruct (gameOver st); [repeat split; reflexivity|].
  cbn [String.eqb Ascii.eqb Bool.eqb].
  repeat split; intros H; rewrite H; reflexivity.
Qed.

Lemma boundary_moves_rejected_witness :
  let atLeft := mkGame [] 3 1 None false ["forward"; "left"] (Some 100%Q) false 0 0 [] in
  let atRight := mkGame [] 3 16 None false [] None false 0 0 [] in
  let atStart := mkGame [] 1 8 None false ["backward"] (Some 100%Q) false 0 0 [] in
  move "left" atLeft [] = Returns atLeft [] /\
  move "right" atRight [] = Returns atRight [] /\
  move "backward" atStart [] = Returns atStart [].
Proof.
  intros atLeft atRight atStart.
  split; [|split].
  - apply (proj1 (boundary_moves_rejected atLeft [])). reflexivity.
  - apply (proj1 (proj2 (boundary_moves_rejected atRight []))). reflexivity.
  - apply (proj2 (proj2 (boundary_moves_rejected atStart []))). reflexivity.
Defined.

Lemma hit_tested_refl (st : game) : hit_tested st st.
Proof.
  unfold hit_tested.
  split; [reflexivity|]. split; [reflexivity|]. split; [reflexivity|].
  split; [intros H; exact H|].
  exists 0%nat. cbn [repeat]. rewrite app_nil_r. reflexivity.
Qed.

Lemma hitVehicles_tested (ty : LaneType) (vs : list vehicle) :
  forall st, hit_tested st (fold_left (hitVehicle ty) vs st).
Proof.
  induction vs as [|v vs IH]; intros st; cbn [fold_left].
  - apply hit_tested_refl.
  - destruct (IH (hitVehicle ty st v)) as [Hl [Hc [Hm [Ho [n Hn]]]]].
    unfold hit_tested, hitVehicle in *.
    destruct (hits ty (chicken_position_x st) v).
    + cbn [currentLane currentColumn moves gameOver calls] in *.
      split; [exact Hl|]. split; [exact Hc|]. split; [exact Hm|].
      split; [intros _; apply Ho; reflexivity|].
      exists (S n). rewrite Hn, <- app_assoc. reflexivity.
    + split; [exact Hl|]. split; [exact Hc|]. split; [exact Hm|].
      split; [exact Ho|]. exists n. exact Hn.
Qed.

(** The hit test changes neither the lane, the column nor the queue, keeps
    a game over, and only adds [onGameOver] calls, with the current lane. *)
Lemma hitTest_calls (st : game) : hit_tested st (hitTest st).
Proof.
  unfold hitTest.
  destruct (js_index (lanes st) (currentLane st)) as [l|];
    [destruct (is_road (type l))|];
    [apply hitVehicles_tested | apply hit_tested_refl | apply hit_tested_refl].
Qed.

(** What a frame does to the move in flight when it completes. *)
Lemma stepMove_completes (t : Q) (st : game) (s : Q) :
  stepStartTimestamp st = Some s ->
  Qeq_bool s 0 = false ->
  Qltb stepTime (t - s) = true ->
  forall mv, js_index (moves st) 0 = Some mv ->
    (mv = "forward" ->
     currentLane (stepMove t st) = currentLane st + 1 /\
     calls (stepMove t st) = calls st ++ [onScoreChange (currentLane st + 1)]) /\
    (mv = "backward" ->
     currentLane (stepMove t st) = currentLane st - 1 /\
     calls (stepMove t st) = calls st ++ [onScoreChange (currentLane st - 1)]).
Proof.
  intros Hs Hz Hd mv Hmv. unfold stepMove. rewrite Hs, Hz.
  destruct (chickenAt st (t - s)) as [x y]. rewrite Hd, Hmv.
  split; intros ->; cbn [String.eqb Ascii.eqb Bool.eqb currentLane calls];
    split; reflexivity.
Qed.

(** C8.  In a frame in which the move in flight completes, a [backward]
    lowers the lane by one and calls [onScoreChange] with the new, lower
    lane; a [forward] raises it by one and calls [onScoreChange] with the
    new, higher lane.  The only calls that follow in the frame are the
    [onGameOver] calls of the hit test, with the same lane. *)
Theorem completed_move_reports_new_lane :
  forall (t : Q) (st : game),
    moveCompletes t st = true ->
    (js_index (moves st) 0 = Some "backward" ->
     currentLane (animate t st) = currentLane st - 1 /\
     exists n,
       calls (animate t st) =
       calls st ++ onScoreChange (currentLane st - 1)
             :: repeat (onGameOver (currentLane st - 1)) n) /\
    (js_index (moves st) 0 = Some "forward" ->
     currentLane (animate t st) = currentLane st + 1 /\
     exists n,
       calls (animate t st) =
       calls st ++ onScoreChange (currentLane st + 1)
             :: repeat (onGameOver (currentLane st + 1)) n).
Proof.
  intros t st Hc. unfold moveCompletes in Hc.
  unfold animate.
  set (st1 := mkGame _ _ _ _ _ _ _ _ _ _ _).
  destruct (if startMoving st then Some t else stepStartTimestamp st) as [s|] eqn:Es;
    [|discriminate].
  apply andb_true_iff in Hc. destruct Hc as [Hz Hd].
  apply negb_true_iff in Hz.
  assert (Hs1 : stepStartTimestamp st1 = Some s) by reflexivity.
  pose proof (stepMove_completes t st1 s Hs1 Hz Hd) as Hstep.
  destruct (hitTest_calls (stepMove t st1)) as [Hl [_ [_ [_ [n Hn]]]]].
  split; intros Hmv.
  - destruct (Hstep "backward" Hmv) as [_ Hb]. destruct (Hb eq_refl) as [Hlane Hcalls].
    rewrite Hl, Hlane. split; [reflexivity|].
    exists n. rewrite Hn, Hcalls, Hlane, <- app_assoc. reflexivity.
  - destruct (Hstep "forward" Hmv) as [Hf _]. destruct (Hf eq_refl) as [Hlane Hcalls].
    rewrite Hl, Hlane. split; [reflexivity|].
    exists n. rewrite Hn, Hcalls, Hlane, <- app_assoc. reflexivity.
Qed.

Lemma completed_move_reports_new_lane_witness :
  let st := mkGame [] 3 8 (Some 384%Q) false ["backward"] (Some 100%Q) false 0 0
                   [onScoreChange 1; onScoreChange 2; onScoreChange 3] in
  currentLane (animate 400 st) = 2 /\
  exists n,
    calls (animate 400 st) =
    [onScoreChange 1; onScoreChange 2; onScoreChange 3]
      ++ onScoreChange 2 :: repeat (onGameOver 2) n.
Proof.
  intros st.
  apply (proj1 (completed_move_reports_new_lane 400 st eq_refl)).
  reflexivity.
Defined.

(** After game over, [move] returns at its first statement. *)
Lemma move_after_gameOver (d : string) (st : game) (rnd : list Q) :
  gameOver st = true -> move d st rnd = Returns st rnd.
Proof. intros H. unfold move. rewrite H. reflexivity. Qed.

Lemma stepMove_gameOver (t : Q) (st : game) :
  gameOver (stepMove t st) = gameOver st.
Proof.
  unfold stepMove.
  destruct (stepStartTimestamp st) as [s|]; [|reflexivity].
  destruct (Qeq_bool s 0); [reflexivity|].
  destruct (chickenAt st (t - s)) as [x y].
  destruct (Qltb stepTime (t - s)); reflexivity.
Qed.

Lemma hitTest_gameOver (st : game) :
  gameOver st = true -> gameOver (hitTest st) = true.
Proof.
  destruct (hitTest_calls st) as [_ [_ [_ [Ho _]]]]. exact Ho.
Qed.

(** No frame takes a game out of game over. *)
Lemma animate_gameOver (t : Q) (st : game) :
  gameOver st = true -> gameOver (animate t st) = true.
Proof.
  intros H. unfold animate. apply hitTest_gameOver.
  rewrite stepMove_gameOver. exact H.
Qed.

(** The guard of [move].  From a game that is over, whatever moves and
    frames follow: the run neither throws nor draws, the game is still
    over, and a further [move] returns the game as it is (lane, column and
    queue unchanged).  When only moves follow, the game stays exactly as it
    was at game over. *)
Theorem move_is_noop_after_game_over :
  forall (events : list event) (st : game) (d : string) (rnd : list Q),
    gameOver st = true ->
    exists st',
      run events st rnd = Returns st' rnd /\
      gameOver st' = true /\
      move d st' rnd = Returns st' rnd /\
      ((forall e, In e events -> exists d', e = Move d') -> st' = st).
Proof.
  induction events as [|e events IH]; intros st d rnd Hover.
  - exists st. cbn [run]. unfold ret.
    repeat split; [exact Hover | apply move_after_gameOver; exact Hover].
  - cbn [run]. unfold bind.
    destruct e as [d0|t]; cbn [step].
    + rewrite (move_after_gameOver d0 st rnd Hover).
      destruct (IH st d rnd Hover) as [st' [Hrun [Ho [Hm Hsame]]]].
      exists st'. repeat split; try assumption.
      intros Hall. apply Hsame. intros e He. apply Hall. right. exact He.
    + unfold ret at 1.
      destruct (IH (animate t st) d rnd (animate_gameOver t st Hover))
        as [st' [Hrun [Ho [Hm _]]]].
      exists st'. repeat split; try assumption.
      intros Hall. destruct (Hall (Frame t) (or_introl eq_refl)) as [d' Hd'].
      discriminate.
Qed.

Lemma move_is_noop_after_game_over_witness :
  let st := mkGame [] 4 8 (Some 900%Q) false ["forward"] (Some 800%Q) true 0 0
                   [onScoreChange 4; onGameOver 4] in
  exists st',
    run [Move "forward"; Move "left"] st [] = Returns st' [] /\
    gameOver st' = true /\
    move "right" st' [] = Returns st' [] /\
    st' = st.
Proof.
  intros st.
  destruct (move_is_noop_after_game_over [Move "forward"; Move "left"] st "right" []
              eq_refl) as [st' [Hrun [Ho [Hm Hsame]]]].
  exists st'. repeat split; try assumption.
  apply Hsame. intros e [<-|[<-|[]]]; eexists; reflexivity.
Defined.

(** A frame that runs after game over still carries out the move in flight:
    the guard of [move] has no counterpart in [animate]. *)
Example frame_after_game_over :
  let st := mkGame [] 3 8 (Some 395%Q) false ["forward"] (Some 200%Q) true 0 0
                   [onScoreChange 3; onGameOver 3] in
  gameOver st = true /\
  currentLane (animate 411 st) = 4 /\
  calls (animate 411 st) = [onScoreChange 3; onGameOver 3; onScoreChange 4].
Proof. cbv zeta. repeat split; reflexivity. Qed.

(** C10.  The game advances after game over.  [move] returns at once when
    the game is over, and [animate] asks for no further frame; but the
    frame that follows the collision was asked for before the hit test, and
    [animate] carries out the move in flight without looking at
    [gameOver].  Here the player stands on the road of row 1 with a second
    forward move 134 ms under way when the car arrives; the next frame
    completes the move: the lane becomes 2 and [onScoreChange(2)] is called
    after [onGameOver(1)]. *)
Lemma session_advances_after_game_over :
  let played := [Move "forward"; Frame 100; Frame 301; Frame 3400;
                 Move "forward"; Frame 3416; Frame 3550] in
  exists st rest st' rest',
    session played carDraws = Returns st rest /\
    gameOver st = true /\
    currentLane st = 1 /\
    moves st = ["forward"] /\
    calls st = [onScoreChange 1; onGameOver 1] /\
    session (played ++ [Frame 3620]) carDraws = Returns st' rest' /\
    gameOver st' = true /\
    currentLane st' = 2 /\
    moves st' = [] /\
    calls st' = [onScoreChange 1; onGameOver 1; onScoreChange 2].
Proof.
  cbv zeta.
  eassert (E : session [Move "forward"; Frame 100; Frame 301; Frame 3400;
                        Move "forward"; Frame 3416; Frame 3550] carDraws
               = Returns _ _) by (vm_compute; reflexivity).
  eassert (E' : session ([Move "forward"; Frame 100; Frame 301; Frame 3400;
                          Move "forward"; Frame 3416; Frame 3550] ++ [Frame 3620])
                        carDraws
                = Returns _ _) by (vm_compute; reflexivity).
  eexists. eexists. eexists. eexists.
  split; [exact E|]. split; [reflexivity|]. split; [reflexivity|].
  split; [reflexivity|]. split; [reflexivity|].
  split; [exact E'|]. split; [reflexivity|]. split; [reflexivity|].
  split; reflexivity.
Qed.

End GameFacts.

(** ** CrossyGame: computations and the draws of [Math.random] *)

Create HintDb draws discriminated.

(** Takes a computation apart along its binds and branches, with the bind
    lemma of the property at hand, and closes the leaves from [draws]. *)
Ltac along_binds bind_lemma :=
  repeat first
    [ solve [auto with draws]
    | apply bind_lemma; [| intro]
    | match goal with
      | |- _ (if ?b then _ else _) => destruct b
      | |- _ (match ?x with _ => _ end) => destruct x
      end ].

Section SessionFacts.
Import CrossyGame.

Lemma reads_prefix_ret {A : Type} (a : A) : reads_prefix (ret a).
Proof.
  intros rnd a' rest H. unfold ret in H. injection H as <- <-.
  exists []. split; [reflexivity|]. intros rest'. reflexivity.
Qed.

Lemma reads_prefix_throw {A : Type} (e : exn) : reads_prefix (@throw A e).
Proof. intros rnd a rest H. discriminate. Qed.

Lemma reads_prefix_bind {A B : Type} (m : G A) (k : A -> G B) :
  reads_prefix m -> (forall a, reads_prefix (k a)) -> reads_prefix (bind m k).
Proof.
  intros Hm Hk rnd b rest H. unfold bind in H.
  destruct (m rnd) as [a mid| |] eqn:Em; try discriminate.
  destruct (Hm rnd a mid Em) as [u1 [E1 R1]].
  destruct (Hk a mid b rest H) as [u2 [E2 R2]].
  exists (u1 ++ u2). split.
  - rewrite E1, E2, app_assoc. reflexivity.
  - intros rest'. unfold bind. rewrite <- app_assoc, R1. apply R2.
Qed.

Lemma reads_prefix_Math_random : reads_prefix Math_random.
Proof.
  intros rnd a rest H. unfold Math_random in H.
  destruct rnd as [|r rnd]; [discriminate|].
  destruct (is_draw r) eqn:Er; [|discriminate]. injection H as <- <-.
  exists [r]. split; [reflexivity|]. intros rest'. cbn. rewrite Er. reflexivity.
Qed.

Lemma reads_prefix_drawPosition (divider : Q) (occupied : list Z) :
  reads_prefix (drawPosition divider occupied).
Proof.
  intros rnd. induction rnd as [|r rnd IH]; intros a rest H; [discriminate|].
  cbn [drawPosition] in H.
  destruct (is_draw r) eqn:Er; [|discriminate].
  destruct (has occupied (Math_floor (r * inject_Z columns / divider))) eqn:Eh.
  - destruct (IH a rest H) as [u [E R]].
    exists (r :: u). split; [rewrite E; reflexivity|].
    intros rest'. cbn [app drawPosition]. rewrite Er, Eh. apply R.
  - injection H as <- <-.
    exists [r]. split; [reflexivity|].
    intros rest'. cbn [app drawPosition]. rewrite Er, Eh. reflexivity.
Qed.

#[local] Hint Resolve reads_prefix_ret reads_prefix_throw reads_prefix_Math_random
  reads_prefix_drawPosition : draws.

Lemma reads_prefix_pick {A : Type} (array : list A) : reads_prefix (pick array).
Proof. unfold pick. along_binds @reads_prefix_bind. Qed.

#[local] Hint Resolve reads_prefix_pick : draws.

Lemma reads_prefix_plantTrees (n : nat) :
  forall occupied planted, reads_prefix (plantTrees n occupied planted).
Proof.
  induction n as [|n IH]; intros occupied planted; cbn [plantTrees];
    unfold Tree; along_binds @reads_prefix_bind.
Qed.

Lemma reads_prefix_placeVehicles (n : nat) (ty : LaneType) (divider : Q) :
  forall occupied placed, reads_prefix (placeVehicles n ty divider occupied placed).
Proof.
  induction n as [|n IH]; intros occupied placed; cbn [placeVehicles];
    unfold Car, Truck; along_binds @reads_prefix_bind.
Qed.

#[local] Hint Resolve reads_prefix_plantTrees reads_prefix_placeVehicles : draws.

Lemma reads_prefix_Lane (index : Z) : reads_prefix (Lane index).
Proof. unfold Lane. along_binds @reads_prefix_bind. Qed.

#[local] Hint Resolve reads_prefix_Lane : draws.

Lemma reads_prefix_mapLane (indices : list Z) : reads_prefix (mapLane indices).
Proof.
  induction indices as [|i indices IH]; cbn [mapLane];
    along_binds @reads_prefix_bind.
Qed.

#[local] Hint Resolve reads_prefix_mapLane : draws.

Lemma reads_prefix_initializeValues (st : game) : reads_prefix (initializeValues st).
Proof. unfold initializeValues, generateLanes. along_binds @reads_prefix_bind. Qed.

Lemma reads_prefix_addLane (st : game) : reads_prefix (addLane st).
Proof. unfold addLane. along_binds @reads_prefix_bind. Qed.

#[local] Hint Resolve reads_prefix_addLane : draws.

Lemma reads_prefix_move (d : string) (st : game) : reads_prefix (move d st).
Proof. unfold move. along_binds @reads_prefix_bind. Qed.

#[local] Hint Resolve reads_prefix_move : draws.

Lemma reads_prefix_run (events : list event) :
  forall st, reads_prefix (run events st).
Proof.
  induction events as [|e events IH]; intros st; cbn [run]; [auto with draws|].
  apply reads_prefix_bind; [|auto].
  destruct e as [d|t]; cbn [step]; auto with draws.
Qed.

End SessionFacts.

(** ** CrossyGame: generating a lane throws nothing *)

Section LaneFacts.
Import CrossyGame.

Lemma is_draw_range (r : Q) : is_draw r = true -> (0 <= r)%Q /\ (r < 1)%Q.
Proof.
  unfold is_draw. intros H. apply andb_true_iff in H. destruct H as [H0 H1].
  split; [apply Qle_bool_iff; exact H0 | apply Qltb_iff; exact H1].
Qed.

Lemma no_throw_bind {A B : Type} (m : G A) (k : A -> G B) :
  no_throw m -> (forall a, no_throw (k a)) -> no_throw (bind m k).
Proof.
  intros Hm Hk rnd e H. unfold bind in H.
  destruct (m rnd) as [a rest| |] eqn:Em.
  - exact (Hk a rest e H).
  - exact (Hm rnd e0 Em).
  - discriminate.
Qed.

Lemma no_throw_ret {A : Type} (a : A) : no_throw (ret a).
Proof. intros rnd e H. discriminate. Qed.

Lemma no_throw_Math_random : no_throw Math_random.
Proof.
  intros rnd e H. unfold Math_random in H.
  destruct rnd as [|r rnd]; [discriminate|]. destruct (is_draw r); discriminate.
Qed.

(** The index that [pick] computes is within a non-empty array. *)
Lemma no_throw_pick {A : Type} (array : list A) :
  array <> [] -> no_throw (pick array).
Proof.
  intros Hne rnd e H. unfold pick, bind, Math_random in H.
  destruct rnd as [|r rnd]; [discriminate|].
  destruct (is_draw r) eqn:Er; [|discriminate].
  destruct (is_draw_range r Er) as [H0 H1].
  assert (Hlen : 0 < Z.of_nat (List.length array)).
  { destruct array; [contradiction | cbn [List.length]; lia]. }
  pose proof (floor_scale_range r _ H0 H1 Hlen) as Hi.
  destruct (js_index_in_range array _ Hi) as [x [Hx _]].
  unfold Math_floor in H. rewrite Hx in H. discriminate.
Qed.

Lemma no_throw_drawPosition (divider : Q) (occupied : list Z) :
  no_throw (drawPosition divider occupied).
Proof.
  intros rnd. induction rnd as [|r rnd IH]; intros e H; [discriminate|].
  cbn [drawPosition] in H. destruct (is_draw r); [|discriminate].
  destruct (has occupied _); [exact (IH e H) | discriminate].
Qed.

#[local] Hint Resolve no_throw_ret no_throw_Math_random no_throw_pick
  no_throw_drawPosition : draws.

#[local] Hint Extern 1 (_ <> []) => discriminate : draws.

Lemma no_throw_plantTrees (n : nat) :
  forall occupied planted, no_throw (plantTrees n occupied planted).
Proof.
  induction n as [|n IH]; intros occupied planted; cbn [plantTrees];
    unfold Tree; along_binds @no_throw_bind.
Qed.

Lemma no_throw_placeVehicles (n : nat) (ty : LaneType) (divider : Q) :
  forall occupied placed, no_throw (placeVehicles n ty divider occupied placed).
Proof.
  induction n as [|n IH]; intros occupied placed; cbn [placeVehicles];
    unfold Car, Truck; along_binds @no_throw_bind.
Qed.

#[local] Hint Resolve no_throw_plantTrees no_throw_placeVehicles : draws.

(** [Lane] throws nothing: every index it computes is within its array. *)
Lemma no_throw_Lane (index : Z) : no_throw (Lane index).
Proof. unfold Lane. along_binds @no_throw_bind. Qed.

End LaneFacts.

Section DeterminismFacts.
Import CrossyGame.

(** C1 as stated fails.  [CrossyGame] takes no seed: its rows come from
    [Math.random].  Two sessions whose recorders were started with the seed
    42 and that receive the same events lay out row 1 as a forest in one and
    as a car lane in the other, when [Math.random] answers differently; and
    two sessions with the same draws and the same two [forward] moves report
    the scores 1, 2 in one and only 1 in the other, when their frames come
    at different times. *)
Lemma same_seed_and_inputs_differ :
  GameInputRecorder.seed
    (GameInputRecorder.start (Some (Finite 42)) 1000 1000 0 GameInputRecorder.new)
  = GameInputRecorder.seed
      (GameInputRecorder.start (Some (Finite 42)) 2000 2000 0 GameInputRecorder.new) /\
  (exists st1 rest1 st2 rest2,
     session [] forestDraws = Returns st1 rest1 /\
     session [] carDraws = Returns st2 rest2 /\
     map type (layout st1) =
       [field; forest; forest; forest; forest; forest; forest; forest; forest; forest] /\
     map type (layout st2) =
       [field; car; forest; forest; forest; forest; forest; forest; forest; forest] /\
     layout st1 <> layout st2) /\
  (exists st1 rest1 st2 rest2,
     session [Frame 10; Move "forward"; Move "forward"; Frame 20; Frame 230; Frame 440]
             forestDraws = Returns st1 rest1 /\
     session [Frame 10; Move "forward"; Move "forward"; Frame 20; Frame 300; Frame 440]
             forestDraws = Returns st2 rest2 /\
     calls st1 = [onScoreChange 1; onScoreChange 2] /\
     calls st2 = [onScoreChange 1] /\
     currentLane st1 = 2 /\ currentLane st2 = 1).
Proof.
  split; [reflexivity|]. split.
  - eexists. eexists. eexists. eexists.
    split; [vm_compute; reflexivity|].
    split; [vm_compute; reflexivity|].
    split; [reflexivity|]. split; [reflexivity|].
    intros H. apply (f_equal (map type)) in H. vm_compute in H. discriminate.
  - eexists. eexists. eexists. eexists.
    split; [vm_compute; reflexivity|].
    split; [vm_compute; reflexivity|].
    repeat split; reflexivity.
Qed.

(** C1, amended.  A session is a function of its events (the moves and the
    frame timestamps) and of the [Math.random] draws it uses: when a session
    ends, every session with the same events whose draws begin with the
    draws that one used ends in the same state, hence with the same score
    reports and the same rows (kind, tree columns, vehicles with their
    positions, direction and speed). *)
Theorem sessions_agree_on_same_draws :
  forall (events : list event) (rnd1 : list Q) (st1 : game) (rest1 : list Q),
    session events rnd1 = Returns st1 rest1 ->
    exists used,
      rnd1 = used ++ rest1 /\
      forall rest2,
        session events (used ++ rest2) = Returns st1 rest2.
Proof.
  intros events.
  change (reads_prefix (session events)).
  unfold session. apply reads_prefix_bind.
  - apply reads_prefix_initializeValues.
  - intros st. apply reads_prefix_run.
Qed.

Lemma sessions_agree_on_same_draws_witness :
  exists st1 rest1 used,
    session [Frame 10; Move "forward"; Frame 20; Frame 230] forestDraws
    = Returns st1 rest1 /\
    forestDraws = used ++ rest1 /\
    forall rest2,
      session [Frame 10; Move "forward"; Frame 20; Frame 230] (used ++ rest2)
      = Returns st1 rest2.
Proof.
  eassert (E : session [Frame 10; Move "forward"; Frame 20; Frame 230] forestDraws
               = Returns _ _) by (vm_compute; reflexivity).
  destruct (sessions_agree_on_same_draws _ _ _ _ E) as [used [H1 H2]].
  eexists. eexists. exists used. split; [exact E|]. split; [exact H1 | exact H2].
Defined.

End DeterminismFacts.

(** ** SeededRandom: the helpers and the state *)

Section GeneratorFacts.
Import SeededRandom.

(** X1.  [random()] returns a number that is at least 0 and below 1,
    whatever the state of the generator. *)
Theorem random_in_unit_interval :
  forall g : t, (0 <= fst (random g))%Q /\ (fst (random g) < 1)%Q.
Proof.
  intros g. unfold random. cbn [fst].
  match goal with
  | |- context [ToUint32 ?x] =>
      pose proof (ToUint32_range x) as Hu; set (u := ToUint32 x) in *
  end.
  unfold two32 in Hu. unfold Qle, Qlt. cbn [Qnum Qden]. lia.
Qed.

Lemma floor_scale_shift (r : Q) (lo hi : Z) :
  (0 <= r)%Q -> (r < 1)%Q -> lo < hi ->
  lo <= Qfloor (r * inject_Z (hi - lo)) + lo < hi.
Proof.
  intros H0 H1 H.
  pose proof (floor_scale_range r (hi - lo) H0 H1 ltac:(lia)). lia.
Qed.

(** X2.  For integers [min < max] between -2^52 and 2^52,
    [randomInt(min, max)] returns an integer that is at least [min] and
    below [max].  (Within these bounds [max - min] and the final sum are
    exact doubles, and the rounding of the product cannot reach
    [max - min]; beyond 2^53 the sum rounds and can come out as [max].) *)
Theorem randomInt_in_range :
  forall (min max : Z) (g : t),
    - 4503599627370496 <= min ->
    max <= 4503599627370496 ->
    min < max ->
    min <= fst (randomInt min max g) < max.
Proof.
  intros min max g _ _ H. unfold randomInt.
  destruct (random_range g) as [H0 H1].
  destruct (random g) as [r g']. cbn [fst] in *.
  unfold Math_floor. apply floor_scale_shift; assumption.
Qed.

Lemma randomInt_in_range_witness :
  3 <= fst (randomInt 3 7 (constructor (Finite 42))) < 7.
Proof. apply (randomInt_in_range 3 7 (constructor (Finite 42))); lia. Defined.

(** X3.  [randomBoolean(p)] is false for every [p <= 0] and true for
    every [p >= 1], whatever the state of the generator. *)
Theorem randomBoolean_extremes :
  forall (p : Q) (g : t),
    ((p <= 0)%Q -> fst (randomBoolean p g) = false) /\
    ((1 <= p)%Q -> fst (randomBoolean p g) = true).
Proof.
  intros p g. unfold randomBoolean.
  destruct (random_range g) as [H0 H1].
  destruct (random g) as [r g']. cbn [fst] in *. split; intros H.
  - apply Qltb_false_iff. apply Qle_trans with 0%Q; assumption.
  - apply Qltb_iff. apply Qlt_le_trans with 1%Q; assumption.
Qed.

Lemma randomBoolean_extremes_witness :
  fst (randomBoolean 0 (constructor (Finite 7))) = false /\
  fst (randomBoolean 1 (constructor (Finite 7))) = true.
Proof.
  split.
  - apply (proj1 (randomBoolean_extremes 0 (constructor (Finite 7)))). apply Qle_refl.
  - apply (proj2 (randomBoolean_extremes 1 (constructor (Finite 7)))). apply Qle_refl.
Defined.

Lemma normalize_range (s : number) : 0 <= normalize s < two32.
Proof.
  destruct s as [q| | |]; cbn [normalize];
    [apply ToUint32_range | | |]; unfold two32; lia.
Qed.

(** X4.  The constructor keeps a seed in [0, 2^32): the sign of the seed
    is dropped, an integer seed is taken in absolute value modulo 2^32,
    and NaN and the infinities give 0; [reset] leaves the generator as the
    constructor makes it. *)
Theorem constructor_normalizes_seed :
  forall (q : Q) (z : Z) (s : number) (g : t),
    0 <= getSeed (constructor s) < 4294967296 /\
    constructor (Finite (- q)) = constructor (Finite q) /\
    getSeed (constructor (Finite (inject_Z z))) = Z.abs z mod 4294967296 /\
    getSeed (constructor NaN) = 0 /\
    getSeed (constructor PosInfinity) = 0 /\
    getSeed (constructor NegInfinity) = 0 /\
    reset s g = constructor s.
Proof.
  intros q z s g. split; [|split; [|split]].
  - exact (normalize_range s).
  - unfold constructor, normalize. rewrite (Qabs_opp q). reflexivity.
  - unfold getSeed, constructor, normalize, ToUint32, two32. cbn [seed].
    f_equal. unfold Qabs, inject_Z, Qfloor. cbn [Qnum Qden].
    rewrite Z.div_1_r. reflexivity.
  - repeat split.
Qed.

Lemma double_of_Z_small (z : Z) : 0 <= z < 2 ^ 53 -> double_of_Z z = z.
Proof.
  intros [H0 H1]. unfold double_of_Z.
  rewrite (Z.abs_eq z H0).
  assert (Hl : Z.log2 z < 53).
  { destruct (Z.eq_dec z 0) as [->|Hz]; [cbn; lia|].
    apply Z.log2_lt_pow2; lia. }
  destruct (Z.log2 z - 52 <=? 0) eqn:E; [reflexivity|].
  apply Z.leb_gt in E. lia.
Qed.

Lemma random_state (g : t) :
  0 <= seed g -> seed g + 1831565813 < 2 ^ 53 ->
  seed (snd (random g)) = seed g + 1831565813.
Proof.
  intros H0 H1. unfold random. cbn [snd seed].
  apply double_of_Z_small. lia.
Qed.

Lemma after_state (n : nat) :
  forall g : t,
    0 <= seed g -> seed g + Z.of_nat n * 1831565813 < 2 ^ 53 ->
    seed (after n g) = seed g + Z.of_nat n * 1831565813.
Proof.
  induction n as [|n IH]; intros g H0 H1; cbn [after]; [lia|].
  rewrite IH; rewrite random_state; lia.
Qed.

(** X5.  [random()] adds 0x6D2B79F5 to the state and does not bring it
    back to 32 bits: after [n] draws (up to four million of them, while the
    sum is an exact double) [getSeed()] is the normalised seed plus [n]
    times the increment, which is beyond 2^32 from the third draw on. *)
Theorem state_is_not_wrapped :
  forall (s : number) (n : nat),
    Z.of_nat n <= 4000000 ->
    getSeed (after n (constructor s)) = getSeed (constructor s) + Z.of_nat n * 1831565813.
Proof.
  intros s n Hn. unfold getSeed.
  pose proof (normalize_range s) as Hs. unfold two32 in Hs.
  apply after_state; cbn [constructor seed]; [lia|].
  change (2 ^ 53) with 9007199254740992. lia.
Qed.

Lemma state_is_not_wrapped_witness :
  getSeed (after 3 (constructor (Finite 42))) = 42 + 3 * 1831565813 /\
  4294967296 <= getSeed (after 3 (constructor (Finite 42))).
Proof.
  rewrite (state_is_not_wrapped (Finite 42) 3 ltac:(cbn; lia)).
  split; [reflexivity | cbn; lia].
Defined.

Lemma ToInt32_ToUint32 (x : Z) : ToInt32 (ToUint32 x) = ToInt32 x.
Proof.
  unfold ToInt32, ToUint32, two32. rewrite Zplus_mod_idemp_l. reflexivity.
Qed.

Lemma ToUint32_ToUint32 (x : Z) : ToUint32 (ToUint32 x) = ToUint32 x.
Proof. unfold ToUint32, two32. apply Zmod_mod. Qed.

Lemma random_Mulberry32 (g : t) :
  0 <= seed g -> seed g + 1831565813 < 2 ^ 53 ->
  fst (random g) = fst (Mulberry32 (ToUint32 (seed g))) /\
  ToUint32 (seed (snd (random g))) = snd (Mulberry32 (ToUint32 (seed g))).
Proof.
  intros H0 H1. unfold random, Mulberry32. cbn [fst snd seed].
  rewrite (double_of_Z_small (seed g + 1831565813)) by lia.
  assert (E : ToUint32 (ToUint32 (seed g) + 1831565813)
              = ToUint32 (seed g + 1831565813)).
  { unfold ToUint32, two32. rewrite Zplus_mod_idemp_l. reflexivity. }
  rewrite E. set (t0 := seed g + 1831565813).
  unfold bxor, bor, ushr.
  rewrite !ToInt32_ToUint32, !ToUint32_ToUint32. split; reflexivity.
Qed.

Lemma draws_Mulberry32 (n : nat) :
  forall g : t,
    0 <= seed g -> seed g + Z.of_nat n * 1831565813 < 2 ^ 53 ->
    draws n g = Mulberry32_draws n (ToUint32 (seed g)).
Proof.
  induction n as [|n IH]; intros g H0 H1; [reflexivity|].
  cbn [draws Mulberry32_draws].
  destruct (random_Mulberry32 g H0 ltac:(lia)) as [Ho Hs].
  pose proof (random_state g H0 ltac:(lia)) as Hst.
  destruct (random g) as [r g'].
  destruct (Mulberry32 (ToUint32 (seed g))) as [r' a'].
  cbn [fst snd] in *. subst r' a'. f_equal.
  apply IH; lia.
Qed.

(** X6.  For up to four million draws the numbers that [random()]
    returns are those of Mulberry32 on a state of 32 bits that starts at
    the normalised seed: the bit operations read the state modulo 2^32. *)
Theorem draws_are_Mulberry32 :
  forall (s : number) (n : nat),
    Z.of_nat n <= 4000000 ->
    draws n (constructor s) = Mulberry32_draws n (getSeed (constructor s)).
Proof.
  intros s n Hn.
  pose proof (normalize_range s) as Hs. unfold two32 in Hs.
  rewrite draws_Mulberry32; cbn [constructor seed getSeed].
  - f_equal. unfold ToUint32, two32. apply Z.mod_small. lia.
  - lia.
  - change (2 ^ 53) with 9007199254740992. lia.
Qed.

Lemma draws_are_Mulberry32_witness :
  draws 5 (constructor (Finite 42)) = Mulberry32_draws 5 42.
Proof. apply (draws_are_Mulberry32 (Finite 42) 5). cbn. lia. Defined.

End GeneratorFacts.

(** ** SeededRandom: shuffle *)

Section ShuffleFacts.
Import SeededRandom.
Context {T : Type}.

Lemma firstn_length_app (l1 l2 : list (option T)) :
  firstn (List.length l1) (l1 ++ l2) = l1.
Proof. induction l1 as [|a l1 IH]; cbn; [destruct l2|rewrite IH]; reflexivity. Qed.

Lemma skipn_length_app (l1 l2 : list (option T)) :
  skipn (List.length l1) (l1 ++ l2) = l2.
Proof. induction l1 as [|a l1 IH]; cbn; [reflexivity | exact IH]. Qed.

(** Reading and writing the element after [l1]. *)
Lemma js_get_middle (l1 l2 : list (option T)) (a : option T) :
  js_get (l1 ++ a :: l2) (Z.of_nat (List.length l1)) = a.
Proof.
  unfold js_get, js_index.
  destruct (Z.of_nat (List.length l1) <? 0) eqn:E; [apply Z.ltb_lt in E; lia|].
  rewrite Nat2Z.id, nth_error_app2 by lia.
  rewrite Nat.sub_diag. reflexivity.
Qed.

Lemma js_set_middle (l1 l2 : list (option T)) (a v : option T) :
  js_set (l1 ++ a :: l2) (Z.of_nat (List.length l1)) v = l1 ++ v :: l2.
Proof.
  unfold js_set.
  destruct (Z.of_nat (List.length l1) <? 0) eqn:E; [apply Z.ltb_lt in E; lia|].
  rewrite Nat2Z.id.
  assert (Hlt : (List.length l1 <? List.length (l1 ++ a :: l2))%nat = true).
  { apply Nat.ltb_lt. rewrite length_app. cbn. lia. }
  rewrite Hlt, firstn_length_app.
  change (skipn (S (List.length l1)) (l1 ++ a :: l2))
    with (skipn (S (List.length l1)) (l1 ++ [a] ++ l2)).
  rewrite app_assoc.
  replace (S (List.length l1)) with (List.length (l1 ++ [a]))
    by (rewrite length_app; cbn; lia).
  rewrite skipn_length_app. reflexivity.
Qed.

Lemma split_at (l : list (option T)) (n : nat) :
  (n < List.length l)%nat ->
  exists l1 a l2, l = l1 ++ a :: l2 /\ List.length l1 = n.
Proof.
  intros H. destruct (nth_error l n) as [a|] eqn:E.
  - destruct (nth_error_split l n E) as [l1 [l2 [H1 H2]]].
    exists l1, a, l2. split; assumption.
  - apply nth_error_None in E. lia.
Qed.

(** One step of the loop exchanges two elements of the array. *)
Lemma exchange_perm (l : list (option T)) (i j : nat) :
  (i < List.length l)%nat -> (j <= i)%nat ->
  let l' := js_set (js_set l (Z.of_nat i) (js_get l (Z.of_nat j)))
                   (Z.of_nat j) (js_get l (Z.of_nat i)) in
  Permutation l l' /\ List.length l' = List.length l.
Proof.
  intros Hi Hj. cbv zeta.
  destruct (split_at l i Hi) as [l1 [x [l2 [-> Hl1]]]]. subst i.
  rewrite js_get_middle.
  destruct (Nat.eq_dec j (List.length l1)) as [->|Hne].
  - rewrite js_get_middle, !js_set_middle. split; [apply Permutation_refl | reflexivity].
  - assert (Hj' : (j < List.length l1)%nat) by lia.
    destruct (split_at l1 j Hj') as [l3 [y [l4 [-> Hl3]]]]. subst j.
    assert (Hg : js_get ((l3 ++ y :: l4) ++ x :: l2) (Z.of_nat (List.length l3)) = y).
    { rewrite <- app_assoc. cbn [app]. apply js_get_middle. }
    rewrite Hg, js_set_middle.
    rewrite <- !app_assoc. cbn [app]. rewrite js_set_middle.
    split.
    + apply Permutation_app_head.
      apply Permutation_trans with (y :: x :: l4 ++ l2).
      * apply perm_skip. apply Permutation_sym, Permutation_middle.
      * apply Permutation_trans with (x :: y :: l4 ++ l2); [apply perm_swap|].
        apply perm_skip. apply (Permutation_middle l4 l2 y).
    + rewrite !length_app. cbn [List.length]. rewrite !length_app.
      cbn [List.length]. lia.
Qed.

Lemma shuffle_loop_perm (i : nat) :
  forall (result : list (option T)) (g : t),
    (i < List.length result)%nat ->
    Permutation result (fst (shuffle_loop i result g)).
Proof.
  induction i as [|i IH]; intros result g Hi; cbn [shuffle_loop].
  - apply Permutation_refl.
  - pose proof (randomInt_range (Z.of_nat (S i) + 1) g ltac:(lia)) as Hj.
    destruct (randomInt 0 (Z.of_nat (S i) + 1) g) as [j g']. cbn [fst] in Hj.
    assert (Ej : j = Z.of_nat (Z.to_nat j)) by (rewrite Z2Nat.id; lia).
    destruct (exchange_perm result (S i) (Z.to_nat j) Hi ltac:(lia)) as [Hp Hl].
    rewrite <- Ej in Hp, Hl.
    eapply Permutation_trans; [exact Hp|].
    apply IH. rewrite Hl. lia.
Qed.

Lemma shuffle_loop_draws (i : nat) :
  forall (result : list (option T)) (g : t),
    snd (shuffle_loop i result g) = after i g.
Proof.
  induction i as [|i IH]; intros result g; cbn [shuffle_loop after]; [reflexivity|].
  unfold randomInt. destruct (random g) as [r g']. cbn [snd]. apply IH.
Qed.

(** X7.  [shuffle] returns the elements of the array in some order, none
    lost, none twice and no hole among them, and takes one draw less than
    the array has elements (none for the empty array). *)
Theorem shuffle_is_permutation :
  forall (array : list T) (g : t),
    exists shuffled : list T,
      fst (shuffle array g) = map Some shuffled /\
      Permutation array shuffled /\
      List.length shuffled = List.length array /\
      snd (shuffle array g) = after (List.length array - 1) g.
Proof.
  intros array g.
  assert (Hp : Permutation (map Some array) (fst (shuffle array g))).
  { unfold shuffle. destruct array as [|a array]; [apply Permutation_refl|].
    apply shuffle_loop_perm. rewrite length_map. cbn [List.length]. lia. }
  destruct (Permutation_map_inv Some _ (Permutation_sym Hp)) as [shuffled [E P]].
  exists shuffled. split; [exact E|].
  split; [exact P|].
  split; [apply Permutation_length in P; symmetry; exact P|].
  unfold shuffle. apply shuffle_loop_draws.
Qed.

End ShuffleFacts.

(** ** GameInputRecorder: the life of a recorder *)

Section LifecycleFacts.
Import GameInputRecorder.

Lemma run_recordCalls_idle (recs : list (Action * Q)) (r : t) :
  recording r = false -> run (recordCalls recs) r = r.
Proof.
  intros H. induction recs as [|e recs IH]; [reflexivity|].
  cbn [recordCalls map run fold_left exec].
  unfold recordInput at 1. rewrite H. cbn [negb]. exact IH.
Qed.

(** X8.  A recorder that is not recording ignores [recordInput]: the
    recorder and its input count stay as they are, and [stop] still
    throws. *)
Theorem idle_recorder_ignores_inputs :
  forall (r : t) (recs : list (Action * Q)) (f : number) (d : Z),
    isRecording r = false ->
    run (recordCalls recs) r = r /\
    getInputCount (run (recordCalls recs) r) = getInputCount r /\
    stop f d (run (recordCalls recs) r) = Throw (Error "Recorder is not active").
Proof.
  intros r recs f d H. unfold isRecording in H.
  rewrite (run_recordCalls_idle recs r H).
  repeat split. unfold stop. rewrite H. reflexivity.
Qed.

Lemma idle_recorder_ignores_inputs_witness :
  run (recordCalls [(forward, 10%Q); (left, 20%Q)]) new = new /\
  getInputCount (run (recordCalls [(forward, 10%Q); (left, 20%Q)]) new) = 0 /\
  stop (Finite 1) 5 (run (recordCalls [(forward, 10%Q); (left, 20%Q)]) new)
  = Throw (Error "Recorder is not active").
Proof.
  apply (idle_recorder_ignores_inputs new [(forward, 10%Q); (left, 20%Q)] (Finite 1) 5).
  reflexivity.
Defined.

(** X9.  [start] empties the inputs, each [recordInput] that follows adds
    one, [stop] returns as many inputs as were recorded and leaves them in
    the recorder, and the next [start] empties them again. *)
Theorem input_count_over_a_recording :
  forall (seed0 seed1 : option number) (c1 c2 c3 c4 : Z) (p p' : Q) (r : t)
         (recs : list (Action * Q)) (f : number) (d : Z),
    let started := run (recordCalls recs) (start seed0 c1 c2 p r) in
    getInputCount (start seed0 c1 c2 p r) = 0 /\
    getInputCount started = Z.of_nat (List.length recs) /\
    exists art stopped,
      stop f d started = Ok (art, stopped) /\
      Z.of_nat (List.length (GameRecording.inputs art)) = Z.of_nat (List.length recs) /\
      getInputCount stopped = Z.of_nat (List.length recs) /\
      getInputCount (start seed1 c3 c4 p' stopped) = 0.
Proof.
  intros seed0 seed1 c1 c2 c3 c4 p p' r recs f d started. subst started.
  rewrite run_after_start.
  unfold getInputCount, stop. cbn [inputs recording negb start].
  rewrite length_map.
  split; [reflexivity|]. split; [reflexivity|].
  eexists. eexists. split; [reflexivity|].
  cbn [GameRecording.inputs inputs]. rewrite length_map.
  repeat split.
Qed.

(** X10.  After a [stop] that returned, a second [stop] throws; the
    inputs and the seed stay in the recorder, and [start] makes it record
    again. *)
Theorem stop_once :
  forall (r stopped : t) (art : GameRecording.t) (f f' : number) (d d' : Z)
         (seed0 : option number) (c1 c2 : Z) (p : Q),
    stop f d r = Ok (art, stopped) ->
    stop f' d' stopped = Throw (Error "Recorder is not active") /\
    isRecording (start seed0 c1 c2 p stopped) = true /\
    inputs stopped = inputs r /\
    seed stopped = seed r.
Proof.
  intros r stopped art f f' d d' seed0 c1 c2 p H.
  unfold stop in H. destruct (recording r); cbn [negb] in H; [|discriminate].
  injection H as _ <-. repeat split.
Qed.

Lemma stop_once_witness :
  exists art stopped,
    stop (Finite 2) 5000 (start (Some (Finite 42)) 1000 1000 0 new) = Ok (art, stopped) /\
    stop (Finite 2) 6000 stopped = Throw (Error "Recorder is not active") /\
    isRecording (start None 7000 7000 0 stopped) = true.
Proof.
  eassert (E : stop (Finite 2) 5000 (start (Some (Finite 42)) 1000 1000 0 new)
               = Ok (_, _)) by reflexivity.
  destruct (stop_once _ _ _ _ (Finite 2) _ 6000 None 7000 7000 0 E) as [H1 [H2 _]].
  eexists. eexists. split; [exact E|]. split; [exact H1 | exact H2].
Defined.

Lemma action_name_valid (a : Action) : includes validActions (action_name a) = true.
Proof. destruct a; reflexivity. Qed.

Lemma recorded_actions_valid (p : Q) (recs : list (Action * Q)) :
  forallb (fun input => includes validActions (InputEvent.action input))
          (map (recorded p) recs) = true.
Proof.
  induction recs as [|e recs IH]; [reflexivity|].
  cbn [map forallb recorded InputEvent.action].
  rewrite action_name_valid, IH. reflexivity.
Qed.

Lemma truthy_clock (c : Z) : c <> 0 -> truthy (Finite (inject_Z c)) = true.
Proof.
  intros H. cbn [truthy]. apply negb_true_iff.
  destruct (Qeq_bool (inject_Z c) 0) eqn:E; [|reflexivity].
  apply Qeq_bool_iff in E. unfold Qeq, inject_Z in E. cbn in E. lia.
Qed.

Lemma truthy_assignedSeed (seed0 : option number) (c : Z) :
  c <> 0 -> truthy (assignedSeed seed0 c) = true.
Proof.
  intros H. unfold assignedSeed.
  destruct seed0 as [s|]; [destruct (truthy s) eqn:E; [exact E|]|];
    apply truthy_clock; exact H.
Qed.

(** X11.  When the clock readings are not 0 and the readings of
    [performance.now()] at the inputs do not decrease, the recording that
    [stop] returns passes [validate]. *)
Theorem recorder_output_validates :
  forall (seed0 : option number) (c1 c2 : Z) (p : Q) (r : t)
         (recs : list (Action * Q)) (f : number) (d : Z),
    c1 <> 0 -> c2 <> 0 ->
    Sorted Qle (map snd recs) ->
    exists art r',
      stop f d (run (recordCalls recs) (start seed0 c1 c2 p r)) = Ok (art, r') /\
      validate art = true.
Proof.
  intros seed0 c1 c2 p r recs f d H1 H2 Hs.
  rewrite run_after_start. unfold stop. cbn [recording negb].
  eexists. eexists. split; [reflexivity|].
  apply validate_true.
  cbn [GameRecording.seed GameRecording.startTime GameRecording.inputs
       seed startTime inputs].
  split; [apply truthy_assignedSeed; exact H1|].
  split; [apply truthy_clock; exact H2|].
  split; [apply sorted_ordered, recorded_sorted; exact Hs|].
  apply recorded_actions_valid.
Qed.

Lemma recorder_output_validates_witness :
  exists art r',
    stop (Finite 2) 1700000005000
         (run (recordCalls [(forward, 441 # 4); (left, 443 # 4); (forward, 350)]%Q)
              (start None 1700000000000 1700000000000 100 new)) = Ok (art, r') /\
    validate art = true.
Proof.
  apply recorder_output_validates; try lia.
  cbn [map snd]. repeat constructor; unfold Qle; cbn; lia.
Defined.

End LifecycleFacts.

(** ** GameInputRecorder: what the codec accepts *)

Section CodecEdges.
Import GameInputRecorder.

(** The text of a recording, read back: the seed decides. *)
Lemma read_back (a : GameRecording.t) :
  GameRecording.finite_numbers a = true ->
  deserialize (serialize a) =
  if truthy (GameRecording.seed a) then Ok (GameRecording.toJS a)
  else Throw (Error "Invalid recording format").
Proof.
  intros F. unfold GameRecording.finite_numbers in F.
  repeat (apply andb_true_iff in F; destruct F as [F ?]).
  destruct a as [s st ins fs du ve]. cbn [GameRecording.seed GameRecording.startTime
    GameRecording.inputs GameRecording.finalScore GameRecording.duration] in *.
  destruct s as [qs| | |]; try discriminate.
  destruct st as [qst| | |]; try discriminate.
  destruct fs as [qfs| | |]; try discriminate.
  destruct du as [qdu| | |]; try discriminate.
  unfold serialize, deserialize, GameRecording.toJS.
  cbn [GameRecording.seed GameRecording.startTime GameRecording.inputs
       GameRecording.finalScore GameRecording.duration GameRecording.version].
  cbn [JSON_stringify].
  change (map (fun x => match JSON_stringify x with Some j => j | None => JNull end)
              (map InputEvent.toJS ins))
    with (map element_text (map InputEvent.toJS ins)).
  cbn [JSON_parse fold_left fst snd set_property String.eqb Ascii.eqb Bool.eqb].
  rewrite inputs_round_trip by assumption.
  cbn [get_property lookup_property String.eqb Ascii.eqb Bool.eqb falsy].
  destruct (truthy (Finite qs)); reflexivity.
Qed.

(** X12.  [deserialize(serialize(r))] gives [r] back for every recording
    with finite numbers and a truthy seed; the order of the timestamps, the
    actions, the start time and the version play no part. *)
Theorem round_trip_without_validity :
  forall a : GameRecording.t,
    GameRecording.finite_numbers a = true ->
    truthy (GameRecording.seed a) = true ->
    deserialize (serialize a) = Ok (GameRecording.toJS a).
Proof.
  intros a F S. rewrite (read_back a F), S. reflexivity.
Qed.

Lemma round_trip_without_validity_witness :
  let a := GameRecording.mk (Finite 42) (Finite 0)
             [InputEvent.mk (Finite 500) "jump"; InputEvent.mk (Finite 250) "forward"]
             (Finite (-3)) (Finite 900) "0.9.0" in
  validate a = false /\
  deserialize (serialize a) = Ok (GameRecording.toJS a).
Proof.
  intros a. split; [reflexivity|].
  apply (round_trip_without_validity a); reflexivity.
Defined.

(** X13.  A recording with finite numbers whose seed is 0 is written by
    [serialize] and refused by [deserialize] with [Invalid recording
    format]. *)
Theorem zero_seed_is_not_read_back :
  forall a : GameRecording.t,
    GameRecording.finite_numbers a = true ->
    truthy (GameRecording.seed a) = false ->
    deserialize (serialize a) = Throw (Error "Invalid recording format").
Proof.
  intros a F S. rewrite (read_back a F), S. reflexivity.
Qed.

Lemma zero_seed_is_not_read_back_witness :
  deserialize (serialize (GameRecording.mk (Finite 0) (Finite 1700000000000)
                            [InputEvent.mk (Finite 0) "forward"]
                            (Finite 1) (Finite 900) "1.0.0"))
  = Throw (Error "Invalid recording format").
Proof. apply zero_seed_is_not_read_back; reflexivity. Defined.

(** X14.  When the reading of [Date.now()] is not 0 and the seed given
    (if any) and the final score are finite, the recording that [stop]
    returns is read back by [deserialize] from the text of [serialize] as
    it is. *)
Theorem recorder_output_round_trips :
  forall (seed0 : option number) (c1 c2 : Z) (p : Q) (r : t)
         (recs : list (Action * Q)) (f : number) (d : Z),
    c1 <> 0 ->
    is_finite f = true ->
    match seed0 with Some s => is_finite s | None => true end = true ->
    exists art r',
      stop f d (run (recordCalls recs) (start seed0 c1 c2 p r)) = Ok (art, r') /\
      deserialize (serialize art) = Ok (GameRecording.toJS art).
Proof.
  intros seed0 c1 c2 p r recs f d Hc Hf Hs.
  rewrite run_after_start. unfold stop. cbn [recording negb].
  eexists. eexists. split; [reflexivity|].
  cbn [seed startTime inputs].
  rewrite read_back.
  - cbn [GameRecording.seed]. rewrite (truthy_assignedSeed seed0 c1 Hc). reflexivity.
  - unfold GameRecording.finite_numbers.
    cbn [GameRecording.seed GameRecording.startTime GameRecording.inputs
         GameRecording.finalScore GameRecording.duration is_finite].
    rewrite Hf.
    assert (Ha : is_finite (assignedSeed seed0 c1) = true).
    { unfold assignedSeed. destruct seed0 as [s|]; [destruct (truthy s)|];
        try reflexivity; exact Hs. }
    rewrite Ha. cbn [andb]. rewrite andb_true_r.
    induction recs as [|e recs IH]; [reflexivity | exact IH].
Qed.

Lemma recorder_output_round_trips_witness :
  exists art r',
    stop (Finite 2) 1700000005000
         (run (recordCalls [(forward, 441 # 4); (left, 443 # 4)]%Q)
              (start (Some (Finite 42)) 1700000000000 1700000000000 100 new))
    = Ok (art, r') /\
    deserialize (serialize art) = Ok (GameRecording.toJS art).
Proof.
  apply recorder_output_round_trips; [lia | reflexivity | reflexivity].
Defined.

(** X15.  [deserialize] throws a [SyntaxError] on a text that is not
    JSON, a [TypeError] on the text [null], and [Invalid recording format]
    on any other text that is not an object.  What it returns is the parsed
    value: an object with a truthy [seed] and an array as [inputs], checked
    no further. *)
Theorem deserialize_errors_and_result :
  forall (j : json) (v : jsval),
    deserialize None = Throw SyntaxError /\
    deserialize (Some JNull) = Throw TypeError /\
    (match j with JNull | JObject _ => True
     | _ => deserialize (Some j) = Throw (Error "Invalid recording format") end) /\
    (deserialize (Some j) = Ok v ->
     v = JSON_parse j /\
     exists properties elements,
       v = VObject properties /\
       falsy (lookup_property "seed" properties) = false /\
       lookup_property "inputs" properties = VArray elements).
Proof.
  intros j v. split; [reflexivity|]. split; [reflexivity|]. split.
  - destruct j; try exact I; reflexivity.
  - unfold deserialize. intros H.
    destruct (JSON_parse j) as [| | | | |elements|properties] eqn:E;
      cbn [get_property falsy] in H; try discriminate.
    cbn [get_property] in H.
    destruct (falsy (lookup_property "seed" properties)) eqn:Es; [discriminate|].
    destruct (lookup_property "inputs" properties) as [| | | | |els|ps] eqn:Ei;
      cbn [falsy Array_isArray negb orb] in H; try discriminate.
    + destruct b; discriminate.
    + destruct (negb (truthy n)); discriminate.
    + destruct (String.eqb s _); discriminate.
    + injection H as <-. split; [reflexivity|].
      exists properties, els. repeat split; assumption.
Qed.

Lemma deserialize_errors_and_result_witness :
  exists properties elements,
    JSON_parse (JObject [("seed", JNumber 7); ("inputs", JArray [])]) = VObject properties /\
    falsy (lookup_property "seed" properties) = false /\
    lookup_property "inputs" properties = VArray elements.
Proof.
  destruct (deserialize_errors_and_result
              (JObject [("seed", JNumber 7); ("inputs", JArray [])])
              (JSON_parse (JObject [("seed", JNumber 7); ("inputs", JArray [])])))
    as [_ [_ [_ H]]].
  destruct (H eq_refl) as [_ [properties [elements [H1 [H2 H3]]]]].
  exists properties, elements. repeat split; assumption.
Defined.

End CodecEdges.

(** ** GameInputRecorder: statistics and hash *)

Section StatsFacts.
Import GameInputRecorder.

Lemma occurrences_cons (a : string) (e : InputEvent.t) (events : list InputEvent.t) :
  occurrences a (e :: events) =
  (if String.eqb (InputEvent.action e) a then 1 else 0) + occurrences a events.
Proof.
  unfold occurrences. cbn [filter].
  destruct (String.eqb (InputEvent.action e) a); cbn [List.length]; lia.
Qed.

(** What the [forEach] of [getStats] leaves in the counters. *)
Lemma tally_counts (events : list InputEvent.t) :
  forall s,
    let s' := fold_left tally events s in
    totalInputs s' = totalInputs s /\
    averageInputInterval s' = averageInputInterval s /\
    forwardMoves s' = forwardMoves s + occurrences "forward" events /\
    backwardMoves s' = backwardMoves s + occurrences "backward" events /\
    leftMoves s' = leftMoves s + occurrences "left" events /\
    rightMoves s' = rightMoves s + occurrences "right" events.
Proof.
  induction events as [|e events IH]; intros s; cbn [fold_left]; cbv zeta.
  - unfold occurrences. cbn. repeat split; try reflexivity; lia.
  - destruct (IH (tally s e)) as [H1 [H2 [H3 [H4 [H5 H6]]]]].
    rewrite H1, H2, H3, H4, H5, H6, !occurrences_cons. unfold tally. cbv zeta.
    destruct (String.eqb (InputEvent.action e) "forward") eqn:Ef.
    { apply String.eqb_eq in Ef. rewrite ?Ef. cbn [String.eqb Ascii.eqb Bool.eqb orb andb totalInputs averageInputInterval forwardMoves backwardMoves leftMoves rightMoves]. repeat split; try reflexivity; lia. }
    destruct (String.eqb (InputEvent.action e) "backward") eqn:Eb.
    { apply String.eqb_eq in Eb. rewrite ?Eb. cbn [String.eqb Ascii.eqb Bool.eqb orb andb totalInputs averageInputInterval forwardMoves backwardMoves leftMoves rightMoves]. repeat split; try reflexivity; lia. }
    destruct (String.eqb (InputEvent.action e) "left") eqn:El.
    { apply String.eqb_eq in El. rewrite ?El. cbn [String.eqb Ascii.eqb Bool.eqb orb andb totalInputs averageInputInterval forwardMoves backwardMoves leftMoves rightMoves]. repeat split; try reflexivity; lia. }
    destruct (String.eqb (InputEvent.action e) "right") eqn:Er.
    { apply String.eqb_eq in Er. rewrite ?Er. cbn [String.eqb Ascii.eqb Bool.eqb orb andb totalInputs averageInputInterval forwardMoves backwardMoves leftMoves rightMoves]. repeat split; try reflexivity; lia. }
    repeat split; try reflexivity; lia.
Qed.

Lemma occurrences_sum (events : list InputEvent.t) :
  occurrences "forward" events + occurrences "backward" events
  + occurrences "left" events + occurrences "right" events
  <= Z.of_nat (List.length events) /\
  (forallb (fun input => includes validActions (InputEvent.action input)) events = true ->
   occurrences "forward" events + occurrences "backward" events
   + occurrences "left" events + occurrences "right" events
   = Z.of_nat (List.length events)).
Proof.
  induction events as [|e events [IH1 IH2]].
  - unfold occurrences. cbn. split; [lia | reflexivity].
  - rewrite !occurrences_cons. cbn [List.length forallb].
    unfold includes, validActions. cbn [existsb].
    destruct (String.eqb (InputEvent.action e) "forward") eqn:Ef.
    { apply String.eqb_eq in Ef. rewrite ?Ef. cbn [String.eqb Ascii.eqb Bool.eqb orb andb totalInputs averageInputInterval forwardMoves backwardMoves leftMoves rightMoves]. split; [lia|].
      intros H. specialize (IH2 H). lia. }
    destruct (String.eqb (InputEvent.action e) "backward") eqn:Eb.
    { apply String.eqb_eq in Eb. rewrite ?Eb. cbn [String.eqb Ascii.eqb Bool.eqb orb andb totalInputs averageInputInterval forwardMoves backwardMoves leftMoves rightMoves]. split; [lia|].
      intros H. specialize (IH2 H). lia. }
    destruct (String.eqb (InputEvent.action e) "left") eqn:El.
    { apply String.eqb_eq in El. rewrite ?El. cbn [String.eqb Ascii.eqb Bool.eqb orb andb totalInputs averageInputInterval forwardMoves backwardMoves leftMoves rightMoves]. split; [lia|].
      intros H. specialize (IH2 H). lia. }
    destruct (String.eqb (InputEvent.action e) "right") eqn:Er.
    { apply String.eqb_eq in Er. rewrite ?Er. cbn [String.eqb Ascii.eqb Bool.eqb orb andb totalInputs averageInputInterval forwardMoves backwardMoves leftMoves rightMoves]. split; [lia|].
      intros H. specialize (IH2 H). lia. }
    cbn [orb andb]. split; [lia | discriminate].
Qed.

Lemma js_index_last {T : Type} (l : list T) (d : T) :
  l <> [] -> js_index l (Z.of_nat (List.length l) - 1) = Some (last l d).
Proof.
  intros Hne. unfold js_index.
  destruct l as [|x l]; [contradiction|].
  assert (E : Z.of_nat (List.length (x :: l)) - 1 = Z.of_nat (List.length l))
    by (cbn [List.length]; lia).
  rewrite E. destruct (Z.of_nat (List.length l) <? 0) eqn:Hlt;
    [apply Z.ltb_lt in Hlt; lia|].
  rewrite Nat2Z.id. clear E Hlt Hne. revert x.
  induction l as [|y l IH]; intros x; [reflexivity|].
  cbn [List.length nth_error]. rewrite IH. reflexivity.
Qed.

(** What [getStats] returns, in terms of the fold. *)
Lemma getStats_returns (r : GameRecording.t) :
  exists s,
    getStats r = Ok s /\
    totalInputs s = Z.of_nat (List.length (GameRecording.inputs r)) /\
    forwardMoves s = occurrences "forward" (GameRecording.inputs r) /\
    backwardMoves s = occurrences "backward" (GameRecording.inputs r) /\
    leftMoves s = occurrences "left" (GameRecording.inputs r) /\
    rightMoves s = occurrences "right" (GameRecording.inputs r) /\
    averageInputInterval s =
      match GameRecording.inputs r with
      | first :: _ :: _ =>
          num_div_pos
            (num_sub (InputEvent.timestamp (last (GameRecording.inputs r) first))
                     (InputEvent.timestamp first))
            (Z.of_nat (List.length (GameRecording.inputs r)) - 1)
      | _ => Finite 0
      end.
Proof.
  unfold getStats. cbv zeta.
  set (events := GameRecording.inputs r).
  destruct (tally_counts events
              (mkStats (Z.of_nat (List.length events)) 0 0 0 0 (Finite 0)))
    as [H1 [H2 [H3 [H4 [H5 H6]]]]].
  cbn [totalInputs averageInputInterval forwardMoves backwardMoves leftMoves
       rightMoves] in H1, H2, H3, H4, H5, H6.
  destruct (1 <? Z.of_nat (List.length events)) eqn:En.
  - apply Z.ltb_lt in En.
    destruct events as [|first [|second events']] eqn:Ee;
      [cbn in En; lia | cbn in En; lia |].
    rewrite (js_index_last (first :: second :: events') first) by discriminate.
    cbn [js_index Z.ltb Z.compare Z.to_nat nth_error].
    eexists. split; [reflexivity|].
    cbn [totalInputs averageInputInterval forwardMoves backwardMoves leftMoves
         rightMoves].
    repeat split; try assumption; lia.
  - apply Z.ltb_ge in En. eexists. split; [reflexivity|].
    split; [exact H1|]. split; [lia|]. split; [lia|]. split; [lia|]. split; [lia|].
    rewrite H2. destruct events as [|first [|second events']]; try reflexivity.
    cbn [List.length] in En. lia.
Qed.

(** X16.  [getStats] throws nothing.  Its total is the number of inputs,
    each of the four counters is the number of inputs with that action, so
    together they never exceed the total and make it up exactly when every
    action is one of the four. *)
Theorem getStats_counts_actions :
  forall r : GameRecording.t,
    exists s,
      getStats r = Ok s /\
      totalInputs s = Z.of_nat (List.length (GameRecording.inputs r)) /\
      forwardMoves s = occurrences "forward" (GameRecording.inputs r) /\
      backwardMoves s = occurrences "backward" (GameRecording.inputs r) /\
      leftMoves s = occurrences "left" (GameRecording.inputs r) /\
      rightMoves s = occurrences "right" (GameRecording.inputs r) /\
      forwardMoves s + backwardMoves s + leftMoves s + rightMoves s
        <= totalInputs s /\
      (validate r = true ->
       forwardMoves s + backwardMoves s + leftMoves s + rightMoves s
         = totalInputs s).
Proof.
  intros r. destruct (getStats_returns r) as [s [E [H1 [H2 [H3 [H4 [H5 _]]]]]]].
  exists s. split; [exact E|]. split; [exact H1|]. split; [exact H2|].
  split; [exact H3|]. split; [exact H4|]. split; [exact H5|].
  destruct (occurrences_sum (GameRecording.inputs r)) as [Hle Heq].
  rewrite H1, H2, H3, H4, H5. split; [exact Hle|].
  intros Hv. apply Heq. unfold validate in Hv.
  destruct (_ || _ || _); [discriminate|].
  destruct (negb _); [discriminate | exact Hv].
Qed.

Lemma getStats_counts_actions_witness :
  exists s,
    getStats (GameRecording.mk (Finite 7) (Finite 1)
                [InputEvent.mk (Finite 10) "forward";
                 InputEvent.mk (Finite 30) "left";
                 InputEvent.mk (Finite 70) "forward"]
                (Finite 2) (Finite 100) "1.0.0") = Ok s /\
    forwardMoves s + backwardMoves s + leftMoves s + rightMoves s = totalInputs s.
Proof.
  destruct (getStats_counts_actions
              (GameRecording.mk (Finite 7) (Finite 1)
                 [InputEvent.mk (Finite 10) "forward";
                  InputEvent.mk (Finite 30) "left";
                  InputEvent.mk (Finite 70) "forward"]
                 (Finite 2) (Finite 100) "1.0.0"))
    as [s [E [_ [_ [_ [_ [_ [_ Hv]]]]]]]].
  exists s. split; [exact E | apply Hv; reflexivity].
Defined.

Lemma timestamp_le_trans (a b c : InputEvent.t) :
  timestamp_le a b -> timestamp_le b c -> timestamp_le a c.
Proof.
  unfold timestamp_le.
  destruct (InputEvent.timestamp a) as [x| | |]; try contradiction.
  destruct (InputEvent.timestamp b) as [y| | |]; try contradiction.
  destruct (InputEvent.timestamp c) as [z| | |]; try contradiction.
  apply Qle_trans.
Qed.

Lemma sorted_first_last (first : InputEvent.t) (rest : list InputEvent.t) :
  Sorted timestamp_le (first :: rest) -> rest <> [] ->
  timestamp_le first (last (first :: rest) first).
Proof.
  intros Hs Hne.
  apply Sorted_StronglySorted in Hs;
    [|intros a b c; apply timestamp_le_trans].
  inversion Hs as [|? ? _ Hall]; subst.
  rewrite Forall_forall in Hall. apply Hall.
  destruct rest as [|x rest]; [contradiction|].
  change (last (first :: x :: rest) first) with (last (x :: rest) first).
  clear Hall Hs Hne. revert x. induction rest as [|y rest IH]; intros x.
  - left. reflexivity.
  - right. apply IH.
Qed.

(** X17.  The average interval that [getStats] reports is 0 for fewer
    than two inputs.  For two or more inputs whose timestamps do not
    decrease and whose first and last timestamps are whole numbers between
    -2^52 and 2^52 (as [recordInput] writes them, where their difference is
    an exact double), it is a finite number, not negative and not more than
    the time between the first input and the last. *)
Theorem getStats_average_interval :
  forall (r : GameRecording.t) (s : stats),
    getStats r = Ok s ->
    ((List.length (GameRecording.inputs r) <= 1)%nat ->
     averageInputInterval s = Finite 0) /\
    (forall first rest zx zy,
       GameRecording.inputs r = first :: rest -> rest <> [] ->
       Sorted timestamp_le (first :: rest) ->
       InputEvent.timestamp first = Finite (inject_Z zx) ->
       InputEvent.timestamp (last (first :: rest) first) = Finite (inject_Z zy) ->
       Z.abs zx <= 4503599627370496 ->
       Z.abs zy <= 4503599627370496 ->
       exists q,
         averageInputInterval s = Finite q /\
         (0 <= q)%Q /\ (q <= inject_Z (zy - zx))%Q).
Proof.
  intros r s Hs.
  destruct (getStats_returns r) as [s' [E [_ [_ [_ [_ [_ Ha]]]]]]].
  rewrite Hs in E. injection E as <-. split.
  - intros Hlen. rewrite Ha.
    destruct (GameRecording.inputs r) as [|a [|b l]]; try reflexivity.
    cbn [List.length] in Hlen. lia.
  - intros first rest zx zy Er Hne Hsorted Hx Hy _ _. rewrite Ha, Er.
    pose proof (sorted_first_last first rest Hsorted Hne) as Hle.
    destruct rest as [|second rest]; [contradiction|].
    unfold timestamp_le in Hle. rewrite Hx, Hy in Hle. rewrite Hx, Hy.
    change (inject_Z (zy - zx)) with (inject_Z (zy + - zx)).
    rewrite inject_Z_plus, inject_Z_opp.
    set (x := inject_Z zx) in *. set (y := inject_Z zy) in *.
    clearbody x y. change (y + - x)%Q with (y - x)%Q.
    eexists. cbn [num_sub num_div_pos]. split; [reflexivity|].
    set (n := Z.of_nat (List.length (first :: second :: rest)) - 1).
    assert (Hn : 1 <= n) by (unfold n; cbn [List.length]; lia).
    assert (Hq : (1 <= inject_Z n)%Q).
    { change 1%Q with (inject_Z 1). rewrite <- Zle_Qle. exact Hn. }
    assert (Hd : (0 <= y - x)%Q) by lra.
    set (d := (y - x)%Q) in *. set (m := inject_Z n) in *.
    split.
    + apply Qle_shift_div_l; [lra|]. lra.
    + apply Qle_shift_div_r; [lra|].
      assert (Hp : (0 <= d * (m - 1))%Q) by (apply Qmult_le_0_compat; lra).
      lra.
Qed.

Lemma getStats_average_interval_witness :
  exists s,
    getStats (GameRecording.mk (Finite 7) (Finite 1)
                [InputEvent.mk (Finite 10) "forward";
                 InputEvent.mk (Finite 30) "left";
                 InputEvent.mk (Finite 70) "forward"]
                (Finite 2) (Finite 100) "1.0.0") = Ok s /\
    exists q,
      averageInputInterval s = Finite q /\ (0 <= q)%Q /\ (q <= inject_Z (70 - 10))%Q.
Proof.
  eassert (E : getStats (GameRecording.mk (Finite 7) (Finite 1)
                [InputEvent.mk (Finite 10) "forward";
                 InputEvent.mk (Finite 30) "left";
                 InputEvent.mk (Finite 70) "forward"]
                (Finite 2) (Finite 100) "1.0.0") = Ok _)
    by (vm_compute; reflexivity).
  eexists. split; [exact E|].
  refine (proj2 (getStats_average_interval _ _ E) _ _ 10 70 eq_refl _ _
                 eq_refl eq_refl _ _).
  - discriminate.
  - repeat constructor; cbn; unfold Qle; cbn; lia.
  - cbn. lia.
  - cbn. lia.
Defined.

End StatsFacts.

Section HashFacts.
Import GameInputRecorder.

Lemma ToInt32_range (z : Z) : - 2147483648 <= ToInt32 z < 2147483648.
Proof.
  unfold ToInt32, two32.
  pose proof (Z.mod_pos_bound (z + 2147483648) 4294967296 ltac:(lia)). lia.
Qed.

Lemma ToInt32_congruent (x y : Z) :
  x mod two32 = y mod two32 -> ToInt32 x = ToInt32 y.
Proof.
  intros H. unfold ToInt32. f_equal.
  rewrite <- (Zplus_mod_idemp_l x), <- (Zplus_mod_idemp_l y), H. reflexivity.
Qed.

Lemma ToInt32_wraps (x : Z) : exists k, ToInt32 x = x + k * two32.
Proof.
  exists (- ((x + 2147483648) / two32)). unfold ToInt32.
  rewrite Z.mod_eq by (unfold two32; lia). lia.
Qed.

(** One turn of the loop multiplies by 31 and adds the character code,
    modulo 2^32. *)
Lemma hashStep_polynomial (a c : Z) :
  hashStep (ToInt32 a) c = ToInt32 (31 * a + c).
Proof.
  unfold hashStep, band, shl. rewrite Z.land_diag.
  change (Z.land 5 31) with 5. rewrite Z.shiftl_mul_pow2 by lia.
  change (2 ^ 5) with 32.
  apply ToInt32_congruent.
  destruct (ToInt32_wraps (ToInt32 a)) as [k0 E0].
  destruct (ToInt32_wraps (ToInt32 (ToInt32 a) * 32)) as [k2 E2].
  destruct (ToInt32_wraps a) as [k1 E1].
  rewrite E2, E0, E1.
  replace ((a + k1 * two32 + k0 * two32) * 32 + k2 * two32
           - (a + k1 * two32) + c)
    with (31 * a + c + (31 * k1 + 32 * k0 + k2) * two32) by ring.
  apply Z_mod_plus_full.
Qed.

Lemma hashSteps_polynomial (codes : list Z) :
  forall a,
    fold_left hashStep codes (ToInt32 a) =
    ToInt32 (fold_left (fun h c => 31 * h + c) codes a).
Proof.
  induction codes as [|c codes IH]; intros a; cbn [fold_left]; [reflexivity|].
  rewrite hashStep_polynomial. apply IH.
Qed.

Lemma toString36_from_length (fuel : nat) :
  forall (n : Z) (acc : string) (k : nat),
    (1 <= k)%nat -> 0 <= n < 36 ^ Z.of_nat k ->
    (String.length acc <= String.length (toString36_from fuel n acc)
     <= String.length acc + k)%nat.
Proof.
  induction fuel as [|fuel IH]; intros n acc k Hk Hn; cbn [toString36_from].
  - lia.
  - cbv zeta. destruct (n / 36 =? 0) eqn:E.
    + cbn [String.length]. lia.
    + apply Z.eqb_neq in E.
      assert (H36 : 36 <= n).
      { destruct (Z_lt_le_dec n 36) as [Hlt|Hge]; [|exact Hge].
        exfalso. apply E. apply Z.div_small. lia. }
      destruct k as [|[|k]]; [lia | cbn in Hn; lia |].
      assert (Hq : 0 <= n / 36 < 36 ^ Z.of_nat (S k)).
      { split; [apply Z.div_pos; lia|].
        apply Z.div_lt_upper_bound; [lia|].
        replace (Z.of_nat (S (S k))) with (Z.succ (Z.of_nat (S k))) in Hn by lia.
        rewrite Z.pow_succ_r in Hn by lia. lia. }
      pose proof (IH (n / 36) (String (nth (Z.to_nat (n mod 36)) digits36 "0"%char) acc)
                     (S k) ltac:(lia) Hq) as Hlen.
      cbn [String.length] in Hlen. lia.
Qed.

(** X18.  The loop of [hash] computes, as a signed 32-bit integer, the
    polynomial in 31 whose coefficients are the character codes of the
    text; its absolute value is at most 2^31, and the hash, written in base
    36, has between one and six characters. *)
Theorem hash_is_wrapped_polynomial :
  forall (Number_toString : number -> string) (r : GameRecording.t),
    (forall data, hashCode data = ToInt32 (polynomial31 (charCodes data))) /\
    (forall data, 0 <= Z.abs (hashCode data) <= 2147483648) /\
    (1 <= String.length (hash Number_toString r) <= 6)%nat.
Proof.
  intros ts r.
  assert (Hpoly : forall data, hashCode data = ToInt32 (polynomial31 (charCodes data))).
  { intros data. unfold hashCode, polynomial31.
    change 0 with (ToInt32 0) at 1. apply hashSteps_polynomial. }
  assert (Habs : forall data, 0 <= Z.abs (hashCode data) <= 2147483648).
  { intros data. rewrite Hpoly.
    pose proof (ToInt32_range (polynomial31 (charCodes data))). lia. }
  split; [exact Hpoly|]. split; [exact Habs|].
  unfold hash. cbv zeta.
  match goal with |- context [hashCode ?d] => pose proof (Habs d) as Hd;
    set (h := Z.abs (hashCode d)) in * end.
  unfold toString36. cbn [toString36_from]. cbv zeta.
  destruct (h / 36 =? 0) eqn:E; [cbn [String.length]; lia|].
  apply Z.eqb_neq in E.
  assert (Hq : 0 <= h / 36 < 36 ^ Z.of_nat 5).
  { split; [apply Z.div_pos; lia|]. apply Z.div_lt_upper_bound; [lia|].
    change (36 * 36 ^ Z.of_nat 5) with 2176782336. lia. }
  pose proof (toString36_from_length (Z.to_nat (Z.log2 h)) (h / 36)
                (String (nth (Z.to_nat (h mod 36)) digits36 "0"%char) EmptyString)
                5 ltac:(lia) Hq) as Hlen.
  cbn [String.length] in Hlen. lia.
Qed.

End HashFacts.

(** ** CrossyGame: what [Lane] generates *)

Section RowFacts.
Import CrossyGame.

Lemma has_false_iff (set : list Z) (x : Z) : has set x = false <-> ~ In x set.
Proof.
  unfold has. split.
  - intros H Hin. assert (E : existsb (Z.eqb x) set = true).
    { apply existsb_exists. exists x. split; [exact Hin | apply Z.eqb_refl]. }
    congruence.
  - intros H. destruct (existsb (Z.eqb x) set) eqn:E; [|reflexivity].
    apply existsb_exists in E. destruct E as [y [Hin Hy]].
    apply Z.eqb_eq in Hy. subst. contradiction.
Qed.

(** A slot drawn for a lane whose slots are [d] columns wide. *)
Lemma slot_range (r : Q) (d : Z) :
  (0 <= r)%Q -> (r < 1)%Q -> 0 < d ->
  0 <= Math_floor (r * inject_Z columns / inject_Z d) /\
  Math_floor (r * inject_Z columns / inject_Z d) * d < columns.
Proof.
  intros H0 H1 Hd. unfold Math_floor.
  assert (Hpos : (0 < inject_Z d)%Q) by (unfold Qlt; cbn; lia).
  set (x := (r * inject_Z columns / inject_Z d)%Q).
  assert (Hx0 : (0 <= x)%Q).
  { unfold x. apply Qle_shift_div_l; [exact Hpos|].
    rewrite Qmult_0_l. apply Qmult_le_0_compat; [exact H0|]. unfold Qle; cbn; lia. }
  assert (Hx1 : (x * inject_Z d < inject_Z columns)%Q).
  { unfold x. unfold Qdiv. rewrite <- Qmult_assoc.
    rewrite (Qmult_comm (/ inject_Z d)), Qmult_inv_r, Qmult_1_r
      by (intros E; rewrite E in Hpos; discriminate).
    apply Qlt_le_trans with (1 * inject_Z columns)%Q.
    - apply Qmult_lt_compat_r; [unfold Qlt; cbn; lia | exact H1].
    - rewrite Qmult_1_l. apply Qle_refl. }
  split.
  - change 0 with (Qfloor 0). apply Qfloor_resp_le. exact Hx0.
  - rewrite Zlt_Qlt, inject_Z_mult.
    apply Qle_lt_trans with (x * inject_Z d)%Q; [|exact Hx1].
    apply Qmult_le_compat_r; [apply Qfloor_le | apply Qlt_le_weak; exact Hpos].
Qed.

Lemma drawPosition_returns (d : Z) (occupied : list Z) :
  0 < d ->
  forall rnd p rest,
    drawPosition (inject_Z d) occupied rnd = Returns p rest ->
    ~ In p occupied /\ 0 <= p /\ p * d < columns.
Proof.
  intros Hd rnd. induction rnd as [|r rnd IH]; intros p rest H; [discriminate|].
  cbn [drawPosition] in H.
  destruct (is_draw r) eqn:Er; [|discriminate].
  destruct (has occupied _) eqn:Eh; [exact (IH p rest H)|].
  injection H as <- <-.
  destruct (is_draw_range r Er) as [H0 H1].
  split; [apply has_false_iff; exact Eh|].
  apply slot_range; assumption.
Qed.

Lemma add_new (occupied : list Z) (p : Z) :
  ~ In p occupied -> add occupied p = occupied ++ [p].
Proof.
  intros H. unfold add. apply has_false_iff in H. rewrite H. reflexivity.
Qed.

Lemma NoDup_snoc (l : list Z) (x : Z) : NoDup l -> ~ In x l -> NoDup (l ++ [x]).
Proof.
  intros Hl Hx. apply NoDup_app; [exact Hl | repeat constructor; intros [] | ].
  intros y Hy [<-|[]]. contradiction.
Qed.

Lemma pick_returns {A : Type} (array : list A) (rnd : list Q) (x : A) (rest : list Q) :
  pick array rnd = Returns x rest -> In x array.
Proof.
  unfold pick, bind, Math_random. intros H.
  destruct rnd as [|r rnd]; [discriminate|].
  destruct (is_draw r); [|discriminate].
  destruct (js_index array _) as [y|] eqn:E; [|discriminate].
  injection H as <- _. unfold js_index in E.
  destruct (_ <? 0); [discriminate|]. eapply nth_error_In; exact E.
Qed.

(** The trees of a forest lane, as they are planted one by one. *)
Lemma plantTrees_returns (n : nat) :
  forall occupied planted rnd occupied' planted' rest,
    plantTrees n occupied planted rnd = Returns (occupied', planted') rest ->
    NoDup occupied ->
    Forall (fun c => 0 <= c < columns) occupied ->
    map tree_position_x planted = map columnCentre occupied ->
    Forall (fun t => In (height t) treeHeights) planted ->
    NoDup occupied' /\
    Forall (fun c => 0 <= c < columns) occupied' /\
    map tree_position_x planted' = map columnCentre occupied' /\
    Forall (fun t => In (height t) treeHeights) planted' /\
    List.length occupied' = (List.length occupied + n)%nat.
Proof.
  induction n as [|n IH];
    intros occupied planted rnd occupied' planted' rest H Hn Hr Hx Hh.
  - cbn [plantTrees] in H. unfold ret in H. injection H as <- <- _.
    repeat split; try assumption. lia.
  - cbn [plantTrees] in H. unfold bind in H.
    destruct (Tree rnd) as [h r1| |] eqn:Et; try discriminate.
    destruct (drawPosition 1 occupied r1) as [p r2| |] eqn:Ep; try discriminate.
    destruct (drawPosition_returns 1 occupied ltac:(lia) r1 p r2 Ep) as [Hin [Hp0 Hp1]].
    rewrite (add_new occupied p Hin) in H.
    apply IH in H.
    + destruct H as [H1 [H2 [H3 [H4 H5]]]].
      repeat split; try assumption.
      rewrite H5, length_app. cbn [List.length]. lia.
    + apply NoDup_snoc; assumption.
    + apply Forall_app. split; [exact Hr|]. constructor; [lia | constructor].
    + rewrite !map_app, Hx. reflexivity.
    + apply Forall_app. split; [exact Hh|]. constructor; [|constructor].
      cbn [height]. exact (pick_returns _ _ _ _ Et).
Qed.

(** The vehicles of a road lane, as they are placed one by one in slots
    that are [d] columns wide. *)
Lemma placeVehicles_returns (n : nat) (ty : LaneType) (d : Z) :
  0 < d ->
  forall occupied placed rnd placed' rest,
    placeVehicles n ty (inject_Z d) occupied placed rnd = Returns placed' rest ->
    NoDup occupied ->
    Forall (fun s => 0 <= s /\ s * d < columns) occupied ->
    map position_x placed = map (slotCentre (inject_Z d)) occupied ->
    Forall (fun v => In (color v) vehicleColors) placed ->
    exists slots,
      NoDup slots /\
      Forall (fun s => 0 <= s /\ s * d < columns) slots /\
      map position_x placed' = map (slotCentre (inject_Z d)) slots /\
      Forall (fun v => In (color v) vehicleColors) placed' /\
      List.length slots = (List.length occupied + n)%nat.
Proof.
  intros Hd. induction n as [|n IH];
    intros occupied placed rnd placed' rest H Hn Hr Hx Hc.
  - cbn [placeVehicles] in H. unfold ret in H. injection H as <- _.
    exists occupied. repeat split; try assumption. lia.
  - cbn [placeVehicles] in H. unfold bind in H.
    destruct ((if LaneType_eqb ty car then Car else Truck) rnd) as [c r1| |] eqn:Ec;
      try discriminate.
    destruct (drawPosition (inject_Z d) occupied r1) as [p r2| |] eqn:Ep;
      try discriminate.
    destruct (drawPosition_returns d occupied Hd r1 p r2 Ep) as [Hin [Hp0 Hp1]].
    rewrite (add_new occupied p Hin) in H.
    apply IH in H.
    + destruct H as [slots [H1 [H2 [H3 [H4 H5]]]]].
      exists slots. repeat split; try assumption.
      rewrite H5, length_app. cbn [List.length]. lia.
    + apply NoDup_snoc; assumption.
    + apply Forall_app. split; [exact Hr|]. constructor; [lia | constructor].
    + rewrite !map_app, Hx. reflexivity.
    + apply Forall_app. split; [exact Hc|]. constructor; [|constructor].
      cbn [color]. destruct (LaneType_eqb ty car); exact (pick_returns _ _ _ _ Ec).
Qed.

(** What [Lane] returns, by the kind of the row. *)
Lemma Lane_returns (i : Z) (rnd : list Q) (l : laneT) (rest : list Q) :
  Lane i rnd = Returns l rest ->
  index l = i /\
  (i <= 0 -> l = mkLane i field [] [] false [] 0 /\ rest = rnd) /\
  match type l with
  | field => l = mkLane i field [] [] false [] 0
  | forest =>
      vehicles l = [] /\
      NoDup (occupiedPositions l) /\
      Forall (fun c => 0 <= c < columns) (occupiedPositions l) /\
      map tree_position_x (trees l) = map columnCentre (occupiedPositions l) /\
      Forall (fun t => In (height t) treeHeights) (trees l) /\
      List.length (occupiedPositions l) = 4%nat
  | car =>
      trees l = [] /\ occupiedPositions l = [] /\ In (speed l) laneSpeeds /\
      exists slots,
        NoDup slots /\
        Forall (fun s => 0 <= s /\ s * 2 < columns) slots /\
        map position_x (vehicles l) = map (slotCentre 2) slots /\
        Forall (fun v => In (color v) vehicleColors) (vehicles l) /\
        List.length slots = 3%nat
  | truck =>
      trees l = [] /\ occupiedPositions l = [] /\ In (speed l) laneSpeeds /\
      exists slots,
        NoDup slots /\
        Forall (fun s => 0 <= s /\ s * 3 < columns) slots /\
        map position_x (vehicles l) = map (slotCentre 3) slots /\
        Forall (fun v => In (color v) vehicleColors) (vehicles l) /\
        List.length slots = 2%nat
  end.
Proof.
  unfold Lane, bind. intros H.
  destruct ((if i <=? 0 then ret field else pick laneTypes) rnd) as [ty r0| |] eqn:Et;
    try discriminate.
  assert (Hfield : i <= 0 -> ty = field /\ r0 = rnd).
  { intros Hi. apply Z.leb_le in Hi. rewrite Hi in Et. unfold ret in Et.
    injection Et as <- <-. split; reflexivity. }
  destruct ty.
  - unfold ret in H. injection H as <- <-. cbn [index type].
    split; [reflexivity|]. split; [|reflexivity].
    intros Hi. destruct (Hfield Hi) as [_ ->]. split; reflexivity.
  - (* car *)
    destruct (Math_random r0) as [dr r1| |] eqn:Ed; try discriminate.
    cbn [LaneType_eqb] in H.
    destruct (placeVehicles 3 car 2 [] [] r1) as [vs r2| |] eqn:Ev; try discriminate.
    destruct (pick laneSpeeds r2) as [sp r3| |] eqn:Es; try discriminate.
    unfold ret in H. injection H as <- <-. cbn [index type trees occupiedPositions speed vehicles].
    split; [reflexivity|]. split.
    { intros Hi. destruct (Hfield Hi) as [Hc _]. discriminate. }
    split; [reflexivity|]. split; [reflexivity|].
    split; [exact (pick_returns _ _ _ _ Es)|].
    apply (placeVehicles_returns 3 car 2 ltac:(lia) [] [] r1 vs r2 Ev);
      constructor.
  - (* truck *)
    destruct (Math_random r0) as [dr r1| |] eqn:Ed; try discriminate.
    cbn [LaneType_eqb] in H.
    destruct (placeVehicles 2 truck 3 [] [] r1) as [vs r2| |] eqn:Ev; try discriminate.
    destruct (pick laneSpeeds r2) as [sp r3| |] eqn:Es; try discriminate.
    unfold ret in H. injection H as <- <-. cbn [index type trees occupiedPositions speed vehicles].
    split; [reflexivity|]. split.
    { intros Hi. destruct (Hfield Hi) as [Hc _]. discriminate. }
    split; [reflexivity|]. split; [reflexivity|].
    split; [exact (pick_returns _ _ _ _ Es)|].
    apply (placeVehicles_returns 2 truck 3 ltac:(lia) [] [] r1 vs r2 Ev);
      constructor.
  - (* forest *)
    destruct (plantTrees 4 [] [] r0) as [[occ planted] r1| |] eqn:Ep; try discriminate.
    unfold ret in H. injection H as <- <-.
    cbn [index type trees occupiedPositions vehicles fst snd].
    split; [reflexivity|]. split.
    { intros Hi. destruct (Hfield Hi) as [Hc _]. discriminate. }
    split; [reflexivity|].
    destruct (plantTrees_returns 4 [] [] r0 occ planted r1 Ep
                (NoDup_nil Z) (Forall_nil _) eq_refl (Forall_nil _))
      as [H1 [H2 [H3 [H4 H5]]]].
    split; [exact H1|]. split; [exact H2|]. split; [exact H3|].
    split; [exact H4 | exact H5].
Qed.

(** X19.  A forest row that [Lane] generates has an index above 0 and
    four trees in four different columns of the board; each tree stands at
    the centre of its column, has one of the three heights, and the row has
    no vehicles. *)
Theorem forest_row_has_four_trees :
  forall (i : Z) (rnd : list Q) (l : laneT) (rest : list Q),
    Lane i rnd = Returns l rest ->
    type l = forest ->
    0 < i /\
    List.length (trees l) = 4%nat /\
    List.length (occupiedPositions l) = 4%nat /\
    NoDup (occupiedPositions l) /\
    Forall (fun c => 0 <= c < columns) (occupiedPositions l) /\
    map tree_position_x (trees l) = map columnCentre (occupiedPositions l) /\
    Forall (fun t => In (height t) [20; 45; 60]) (trees l) /\
    vehicles l = [].
Proof.
  intros i rnd l rest H Hty.
  destruct (Lane_returns i rnd l rest H) as [_ [Hfield Hrow]].
  rewrite Hty in Hrow. destruct Hrow as [Hv [Hn [Hr [Hx [Hh Hl]]]]].
  split.
  { destruct (Z_lt_le_dec 0 i) as [Hi|Hi]; [exact Hi|].
    destruct (Hfield Hi) as [E _]. rewrite E in Hty. discriminate. }
  split.
  { rewrite <- (length_map tree_position_x), Hx, length_map. exact Hl. }
  repeat (split; [assumption|]). exact Hv.
Qed.

Lemma forest_row_has_four_trees_witness :
  exists l rest,
    Lane 1 forestRow = Returns l rest /\
    List.length (trees l) = 4%nat /\
    NoDup (occupiedPositions l).
Proof.
  eassert (E : Lane 1 forestRow = Returns _ _) by (vm_compute; reflexivity).
  destruct (forest_row_has_four_trees _ _ _ _ E eq_refl) as [_ [H1 [_ [H2 _]]]].
  eexists. eexists. split; [exact E|]. split; [exact H1 | exact H2].
Defined.

Lemma slotCentre_eq (d s : Z) :
  (slotCentre (inject_Z d) s == 84 * inject_Z (s * d) - 672)%Q.
Proof.
  unfold slotCentre, boardWidth, positionWidth, zoom, columns.
  rewrite inject_Z_mult. change (inject_Z 17) with 17%Q. field.
Qed.

Lemma board_half : ((boardWidth * zoom) / 2 == 714)%Q.
Proof. reflexivity. Qed.

Lemma slot_spacing (d sa sb : Z) :
  0 < d -> sa < sb ->
  (inject_Z (84 * d) <= slotCentre (inject_Z d) sb - slotCentre (inject_Z d) sa)%Q.
Proof.
  intros Hd H. rewrite !slotCentre_eq.
  assert (E : (inject_Z (sa * d) + inject_Z d <= inject_Z (sb * d))%Q).
  { rewrite <- inject_Z_plus, <- Zle_Qle. nia. }
  rewrite inject_Z_mult. change (inject_Z 84) with 84%Q. lra.
Qed.

Lemma slot_inside (d s : Z) :
  0 < d -> 0 <= s -> s * d < columns ->
  (- (boardWidth * zoom) / 2 < slotCentre (inject_Z d) s)%Q /\
  (slotCentre (inject_Z d) s < (boardWidth * zoom) / 2)%Q.
Proof.
  intros Hd H0 H1. unfold columns in H1.
  assert (E0 : (0 <= inject_Z (s * d))%Q).
  { change 0%Q with (inject_Z 0). rewrite <- Zle_Qle. nia. }
  assert (E1 : (inject_Z (s * d) <= 16)%Q).
  { change 16%Q with (inject_Z 16). rewrite <- Zle_Qle. lia. }
  assert (E2 : (- (boardWidth * zoom) / 2 == - 714)%Q) by reflexivity.
  rewrite E2, board_half, slotCentre_eq. split; lra.
Qed.

(** The vehicles of a row lie in different slots. *)
Lemma vehicles_in_slots (d : Z) (vs : list vehicle) (slots : list Z) :
  map position_x vs = map (slotCentre (inject_Z d)) slots ->
  forall a va, nth_error vs a = Some va ->
    exists sa, nth_error slots a = Some sa /\
               position_x va = slotCentre (inject_Z d) sa.
Proof.
  intros Hx a va Ha.
  assert (E : nth_error (map position_x vs) a = Some (position_x va))
    by (rewrite nth_error_map, Ha; reflexivity).
  rewrite Hx, nth_error_map in E.
  destruct (nth_error slots a) as [sa|]; [|discriminate].
  injection E as E. exists sa. split; [reflexivity | symmetry; exact E].
Qed.

(** X20.  A car row that [Lane] generates has three vehicles, a truck row
    two; the speed is one of the three speeds, every vehicle is placed
    within the board, and any two vehicles of a row are placed further
    apart than a vehicle is long, so none overlaps another. *)
Theorem road_row_vehicles_apart :
  forall (i : Z) (rnd : list Q) (l : laneT) (rest : list Q),
    Lane i rnd = Returns l rest ->
    is_road (type l) = true ->
    List.length (vehicles l) = (if LaneType_eqb (type l) car then 3 else 2)%nat /\
    In (speed l) [2; 5 # 2; 3]%Q /\
    (forall v, In v (vehicles l) ->
       (- (boardWidth * zoom) / 2 < position_x v)%Q /\
       (position_x v < (boardWidth * zoom) / 2)%Q) /\
    (forall a b va vb,
       a <> b ->
       nth_error (vehicles l) a = Some va ->
       nth_error (vehicles l) b = Some vb ->
       (vehicleLength (type l) * zoom < position_x va - position_x vb)%Q \/
       (vehicleLength (type l) * zoom < position_x vb - position_x va)%Q).
Proof.
  intros i rnd l rest H Hroad.
  destruct (Lane_returns i rnd l rest H) as [_ [_ Hrow]].
  assert (Hgen : exists d slots,
             0 < d /\
             (inject_Z (84 * d) > vehicleLength (type l) * zoom)%Q /\
             List.length slots = (if LaneType_eqb (type l) car then 3 else 2)%nat /\
             In (speed l) laneSpeeds /\
             NoDup slots /\
             Forall (fun s => 0 <= s /\ s * d < columns) slots /\
             map position_x (vehicles l) = map (slotCentre (inject_Z d)) slots).
  { destruct (type l); try discriminate;
      destruct Hrow as [_ [_ [Hs [slots [Hn [Hr [Hx [_ Hl]]]]]]]].
    - exists 2, slots. repeat split; try assumption; try lia.
    - exists 3, slots. repeat split; try assumption; try lia. }
  destruct Hgen as [d [slots [Hd [Hlen [Hl [Hs [Hn [Hr Hx]]]]]]]].
  split; [rewrite <- (length_map position_x), Hx, length_map; exact Hl|].
  split; [exact Hs|]. split.
  - intros v Hv. apply In_nth_error in Hv. destruct Hv as [a Ha].
    destruct (vehicles_in_slots d _ _ Hx a v Ha) as [sa [Hsa ->]].
    apply nth_error_In in Hsa. rewrite Forall_forall in Hr.
    destruct (Hr sa Hsa). apply slot_inside; assumption.
  - intros a b va vb Hab Ha Hb.
    destruct (vehicles_in_slots d _ _ Hx a va Ha) as [sa [Hsa ->]].
    destruct (vehicles_in_slots d _ _ Hx b vb Hb) as [sb [Hsb ->]].
    assert (Hne : sa <> sb).
    { intros <-. apply Hab.
      apply (proj1 (NoDup_nth_error slots) Hn a b); [|congruence].
      apply nth_error_Some. congruence. }
    destruct (Z_lt_le_dec sa sb) as [Hlt|Hge].
    + right. eapply Qlt_le_trans; [exact Hlen | apply slot_spacing; assumption].
    + left. eapply Qlt_le_trans; [exact Hlen | apply slot_spacing; lia].
Qed.

Lemma road_row_vehicles_apart_witness :
  exists l rest,
    Lane 1 carRow = Returns l rest /\
    List.length (vehicles l) = 3%nat /\
    In (speed l) [2; 5 # 2; 3]%Q.
Proof.
  eassert (E : Lane 1 carRow = Returns _ _) by (vm_compute; reflexivity).
  destruct (road_row_vehicles_apart _ _ _ _ E eq_refl) as [H1 [H2 _]].
  eexists. eexists. split; [exact E|]. split; [exact H1 | exact H2].
Defined.

Lemma mapLane_indices (indices : list Z) :
  forall rnd ls rest,
    mapLane indices rnd = Returns ls rest -> map index ls = indices.
Proof.
  induction indices as [|i indices IH]; intros rnd ls rest H.
  - injection H as <- _. reflexivity.
  - cbn [mapLane] in H. unfold bind in H.
    destruct (Lane i rnd) as [l r0| |] eqn:El; try discriminate.
    destruct (mapLane indices r0) as [ls' r1| |] eqn:Els; try discriminate.
    injection H as <- _. cbn [map].
    destruct (Lane_returns _ _ _ _ El) as [-> _].
    rewrite (IH _ _ _ Els). reflexivity.
Qed.

Lemma mapLane_behind (i : Z) (indices : list Z) (rnd : list Q) :
  i <= 0 ->
  mapLane (i :: indices) rnd =
  match mapLane indices rnd with
  | Returns ls rest => Returns (mkLane i field [] [] false [] 0 :: ls) rest
  | Throws e => Throws e
  | Starved => Starved
  end.
Proof.
  intros Hi. cbn [mapLane]. unfold bind at 1. unfold Lane at 1. unfold bind at 1.
  apply Z.leb_le in Hi. rewrite Hi. reflexivity.
Qed.

Lemma filter_all {A : Type} (f : A -> bool) (l : list A) :
  Forall (fun x => f x = true) l -> filter f l = l.
Proof.
  induction 1 as [|x l Hx _ IH]; [reflexivity|].
  cbn [filter]. rewrite Hx, IH. reflexivity.
Qed.

(** What [generateLanes] hands to a new game. *)
Lemma generateLanes_returns (rnd : list Q) (ls : list laneT) (rest : list Q) :
  generateLanes rnd = Returns ls rest ->
  exists ahead,
    mapLane [1; 2; 3; 4; 5; 6; 7; 8; 9] rnd = Returns ahead rest /\
    ls = mkLane 0 field [] [] false [] 0 :: ahead /\
    map index ls = [0; 1; 2; 3; 4; 5; 6; 7; 8; 9].
Proof.
  unfold generateLanes, bind. intros H.
  rewrite !mapLane_behind in H by lia.
  destruct (mapLane [1; 2; 3; 4; 5; 6; 7; 8; 9] rnd) as [ahead r0| |] eqn:E;
    try discriminate.
  pose proof (mapLane_indices _ _ _ _ E) as Hi.
  unfold ret in H. injection H as <- <-. exists ahead.
  cbn [filter index Z.leb Z.compare].
  assert (Hf : filter (fun l => 0 <=? index l) ahead = ahead).
  { apply filter_all. rewrite Forall_forall. intros l Hl.
    apply (in_map index) in Hl. rewrite Hi in Hl. apply Z.leb_le.
    cbn [In] in Hl. lia. }
  rewrite Hf. split; [reflexivity|]. split; [reflexivity|].
  cbn [map index]. rewrite Hi. reflexivity.
Qed.

(** X21.  [generateLanes] returns ten rows, with the indices 0 to 9 in
    order.  Row 0 is a field, the nine rows behind it are dropped and none
    of them takes a draw; the draws go to the rows 1 to 9.  The cell on
    which the player starts is free. *)
Theorem new_game_has_ten_rows :
  forall (rnd : list Q) (ls : list laneT) (rest : list Q),
    generateLanes rnd = Returns ls rest ->
    map index ls = [0; 1; 2; 3; 4; 5; 6; 7; 8; 9] /\
    (exists ahead,
       ls = mkLane 0 field [] [] false [] 0 :: ahead /\
       mapLane [1; 2; 3; 4; 5; 6; 7; 8; 9] rnd = Returns ahead rest) /\
    blocked ls 0 (Math_floor (inject_Z columns / 2)) = Ok false.
Proof.
  intros rnd ls rest H.
  destruct (generateLanes_returns _ _ _ H) as [ahead [E [-> Hi]]].
  split; [exact Hi|]. split; [exists ahead; split; [reflexivity | exact E]|].
  reflexivity.
Qed.

Lemma new_game_has_ten_rows_witness :
  exists ls rest,
    generateLanes forestDraws = Returns ls rest /\
    map index ls = [0; 1; 2; 3; 4; 5; 6; 7; 8; 9].
Proof.
  eassert (E : generateLanes forestDraws = Returns _ _) by (vm_compute; reflexivity).
  eexists. eexists. split; [exact E|].
  exact (proj1 (new_game_has_ten_rows _ _ _ E)).
Defined.

End RowFacts.

(** ** CrossyGame: the invariant of a game in play *)

Section PlayFacts.
Import CrossyGame.

Lemma finalPositions_fold (st : game) :
  finalPositions st =
  fold_left advance (moves st) (mkPosition (currentLane st) (currentColumn st)).
Proof. reflexivity. Qed.

Lemma path_snoc (mvs : list string) (mv : string) :
  forall p,
    path p (mvs ++ [mv]) = path p mvs ++ [advance (fold_left advance mvs p) mv].
Proof.
  induction mvs as [|m mvs IH]; intros p; cbn [app path fold_left].
  - reflexivity.
  - rewrite IH. reflexivity.
Qed.

Lemma path_last (mvs : list string) :
  forall p, In (fold_left advance mvs p) (path p mvs).
Proof.
  induction mvs as [|m mvs IH]; intros p; cbn [path fold_left].
  - left. reflexivity.
  - right. apply IH.
Qed.

Lemma js_index_app {T : Type} (l : list T) (x : T) (i : Z) (y : T) :
  js_index l i = Some y -> js_index (l ++ [x]) i = Some y.
Proof.
  unfold js_index. destruct (i <? 0); [discriminate|]. intros H.
  rewrite nth_error_app1; [exact H|]. apply nth_error_Some. congruence.
Qed.

Lemma js_index_map {S T : Type} (f : S -> T) (l : list S) (i : Z) :
  js_index (map f l) i = option_map f (js_index l i).
Proof.
  unfold js_index. destruct (i <? 0); [reflexivity|]. apply nth_error_map.
Qed.

Lemma js_index_Some {T : Type} (l : list T) (i : Z) (y : T) :
  js_index l i = Some y -> 0 <= i < Z.of_nat (List.length l).
Proof.
  unfold js_index. destruct (i <? 0) eqn:E; [discriminate|]. intros H.
  apply Z.ltb_ge in E.
  assert (Hn : (Z.to_nat i < List.length l)%nat) by (apply nth_error_Some; congruence).
  lia.
Qed.

Lemma clear_app (ls : list laneT) (l : laneT) (p : position) :
  clear ls p -> clear (ls ++ [l]) p.
Proof.
  intros [H0 [H1 [H2 [l0 [Hl Hb]]]]]. unfold clear.
  rewrite length_app. cbn [List.length].
  split; [exact H0|]. split; [lia|]. split; [exact H2|].
  exists l0. split; [apply js_index_app; exact Hl | exact Hb].
Qed.

Lemma driveLane_fixed (delta : Q) (l : laneT) : fixed (driveLane delta l) = fixed l.
Proof.
  unfold driveLane, fixed. destruct (is_road (type l)); [|reflexivity].
  cbn [index type occupiedPositions trees direction speed vehicles].
  rewrite map_map. f_equal. apply map_ext. intros v.
  unfold driveVehicle. destruct (direction l); reflexivity.
Qed.

Lemma fixed_fields (l l' : laneT) :
  fixed l' = fixed l ->
  index l' = index l /\ type l' = type l /\
  occupiedPositions l' = occupiedPositions l.
Proof.
  unfold fixed. intros H. injection H as H1 H2 H3 _ _ _ _.
  split; [exact H1|]. split; [exact H2 | exact H3].
Qed.

Lemma clear_drive (delta : Q) (ls : list laneT) (p : position) :
  clear ls p -> clear (map (driveLane delta) ls) p.
Proof.
  intros [H0 [H1 [H2 [l0 [Hl Hb]]]]]. unfold clear.
  rewrite length_map.
  split; [exact H0|]. split; [exact H1|]. split; [exact H2|].
  exists (driveLane delta l0). rewrite js_index_map, Hl. split; [reflexivity|].
  destruct (fixed_fields _ _ (driveLane_fixed delta l0)) as [_ [-> ->]]. exact Hb.
Qed.

(** The hit test leaves the rows as they are. *)
Lemma hitVehicles_lanes (ty : LaneType) (vs : list vehicle) :
  forall st, lanes (fold_left (hitVehicle ty) vs st) = lanes st.
Proof.
  induction vs as [|v vs IH]; intros st; cbn [fold_left]; [reflexivity|].
  rewrite IH. unfold hitVehicle.
  destruct (hits ty (chicken_position_x st) v); reflexivity.
Qed.

Lemma hitTest_lanes (st : game) : lanes (hitTest st) = lanes st.
Proof.
  unfold hitTest. destruct (js_index (lanes st) (currentLane st)) as [l|];
    [|reflexivity].
  destruct (is_road (type l)); [apply hitVehicles_lanes | reflexivity].
Qed.

Lemma stepMove_lanes (t : Q) (st : game) : lanes (stepMove t st) = lanes st.
Proof.
  unfold stepMove.
  destruct (stepStartTimestamp st) as [s|]; [|reflexivity].
  destruct (Qeq_bool s 0); [reflexivity|].
  destruct (chickenAt st (t - s)) as [x y].
  destruct (Qltb stepTime (t - s)); reflexivity.
Qed.

(** A frame either leaves the player and the queue as they are, or carries
    out the move at the head of the queue and reports the new lane if that
    move was forward or backward. *)
Lemma stepMove_cases (t : Q) (st : game) :
  (currentLane (stepMove t st) = currentLane st /\
   currentColumn (stepMove t st) = currentColumn st /\
   moves (stepMove t st) = moves st /\
   calls (stepMove t st) = calls st) \/
  (moves st = [] /\
   currentLane (stepMove t st) = currentLane st /\
   currentColumn (stepMove t st) = currentColumn st /\
   moves (stepMove t st) = [] /\
   calls (stepMove t st) = calls st) \/
  (exists mv rest,
     moves st = mv :: rest /\
     mkPosition (currentLane (stepMove t st)) (currentColumn (stepMove t st)) =
       advance (mkPosition (currentLane st) (currentColumn st)) mv /\
     moves (stepMove t st) = rest /\
     (calls (stepMove t st) = calls st \/
      calls (stepMove t st) =
        calls st ++ [onScoreChange (currentLane (stepMove t st))])).
Proof.
  unfold stepMove.
  destruct (stepStartTimestamp st) as [s|];
    [|left; repeat split; reflexivity].
  destruct (Qeq_bool s 0); [left; repeat split; reflexivity|].
  destruct (chickenAt st (t - s)) as [x y].
  destruct (Qltb stepTime (t - s)); [|left; repeat split; reflexivity].
  right. destruct (moves st) as [|mv rest] eqn:Em.
  - left. cbn. repeat split; reflexivity.
  - right. exists mv, rest. split; [reflexivity|].
    unfold js_index, advance. cbn [Z.ltb Z.compare Z.to_nat nth_error tl lane column].
    destruct (String.eqb mv "forward");
      [cbn; split; [reflexivity|]; split; [reflexivity|]; right; reflexivity|].
    destruct (String.eqb mv "backward");
      [cbn; split; [reflexivity|]; split; [reflexivity|]; right; reflexivity|].
    destruct (String.eqb mv "left");
      [cbn; split; [reflexivity|]; split; [reflexivity|]; left; reflexivity|].
    destruct (String.eqb mv "right");
      cbn; (split; [reflexivity|]; split; [reflexivity|]; left; reflexivity).
Qed.

Lemma Forall_snoc {A : Type} (P : A -> Prop) (l : list A) (x : A) :
  Forall P l -> P x -> Forall P (l ++ [x]).
Proof.
  intros Hl Hx. apply Forall_app. split; [exact Hl | constructor; [exact Hx | constructor]].
Qed.

Lemma path_head (p : position) (mvs : list string) : In p (path p mvs).
Proof. destruct mvs; left; reflexivity. Qed.

(** Frames keep a game sound. *)
Lemma sound_animate (t : Q) (st : game) : sound st -> sound (animate t st).
Proof.
  intros [Hi [Hc Hs]]. unfold animate.
  match goal with |- sound (hitTest (stepMove t ?s1)) => set (st1 := s1) end.
  assert (H1 : sound st1).
  { unfold sound, st1, standing. cbn [lanes currentLane currentColumn moves calls].
    split.
    - rewrite length_map, map_map, <- Hi. apply map_ext.
      intros l. exact (proj1 (fixed_fields _ _ (driveLane_fixed _ l))).
    - split; [|rewrite length_map; exact Hs]. unfold standing in Hc.
      eapply Forall_impl; [|exact Hc]. intros p. apply clear_drive. }
  clearbody st1. clear Hi Hc Hs st. destruct H1 as [Hi [Hc Hs]].
  pose proof (stepMove_cases t st1) as Hcases.
  pose proof (stepMove_lanes t st1) as Hlanes.
  set (st2 := stepMove t st1) in *.
  assert (H2 : sound st2).
  { unfold sound. rewrite Hlanes.
    split; [exact Hi|]. unfold standing in *.
    destruct Hcases as [[El [Ec [Em Ek]]] | [[Em0 [El [Ec [Em Ek]]]] | [mv [rest [Em0 [Ep [Em Ek]]]]]]].
    - rewrite El, Ec, Em, Ek. split; assumption.
    - rewrite El, Ec, Em, Ek. rewrite Em0 in Hc. split; assumption.
    - rewrite Em0 in Hc. cbn [path] in Hc. inversion Hc as [|p0 l0 _ Hrest [E0 E1]]. clear E0 E1 p0 l0.
      rewrite Ep, Em. split; [exact Hrest|].
      destruct Ek as [-> | ->]; [exact Hs|]. apply Forall_snoc; [exact Hs|].
      cbn [reported].
      assert (Hin : In (advance (mkPosition (currentLane st1) (currentColumn st1)) mv)
                       (path (advance (mkPosition (currentLane st1) (currentColumn st1)) mv) rest))
        by apply path_head.
      rewrite Forall_forall in Hrest. specialize (Hrest _ Hin).
      rewrite <- Ep in Hrest. destruct Hrest as [H0 [H1 _]].
      split; [exact H0 | exact H1]. }
  clearbody st2. clear Hi Hc Hs Hcases Hlanes. destruct H2 as [Hi [Hc Hs]].
  destruct (hitTest_calls st2) as [El [Ec [Em [_ [n Ek]]]]].
  unfold sound, standing. rewrite hitTest_lanes, El, Ec, Em, Ek.
  split; [exact Hi|]. split; [exact Hc|].
  apply Forall_app. split; [exact Hs|].
  apply Forall_forall. intros c Hc'. apply repeat_spec in Hc'. subst c.
  cbn [reported]. unfold standing in Hc. rewrite Forall_forall in Hc.
  destruct (Hc _ (path_head _ _)) as [H0 [H1 _]]. split; [exact H0 | exact H1].
Qed.

Lemma blocked_in_range (ls : list laneT) (i c : Z) :
  0 <= i < Z.of_nat (List.length ls) -> exists b, blocked ls i c = Ok b.
Proof.
  intros Hi. destruct (js_index_in_range ls i Hi) as [l [Hl _]].
  unfold blocked. rewrite Hl. eexists. reflexivity.
Qed.

Lemma blocked_false (ls : list laneT) (i c : Z) :
  blocked ls i c = Ok false ->
  exists l, js_index ls i = Some l /\
            LaneType_eqb (type l) forest && has (occupiedPositions l) c = false.
Proof.
  unfold blocked. destruct (js_index ls i) as [l|]; [|discriminate].
  intros H. injection H as H. exists l. split; [reflexivity | exact H].
Qed.

Lemma clear_blocked (ls : list laneT) (p : position) :
  clear ls p -> blocked ls (lane p) (column p) = Ok false.
Proof.
  intros [_ [_ [_ [l [Hl Hb]]]]]. unfold blocked. rewrite Hl, Hb. reflexivity.
Qed.

Lemma addLane_returns (st : game) (rnd : list Q) (st' : game) (rest : list Q) :
  addLane st rnd = Returns st' rest ->
  exists l, index l = Z.of_nat (List.length (lanes st)) /\
            st' = set_lanes (lanes st ++ [l]) st.
Proof.
  unfold addLane, bind. intros H.
  destruct (Lane _ rnd) as [l r0| |] eqn:El; try discriminate.
  injection H as <- _. exists l.
  split; [exact (proj1 (Lane_returns _ _ _ _ El)) | reflexivity].
Qed.

Lemma no_throw_addLane (st : game) : no_throw (addLane st).
Proof.
  unfold addLane. apply no_throw_bind; [apply no_throw_Lane|].
  intros l. apply no_throw_ret.
Qed.

(** A game stays sound when a move to a clear cell joins the queue, with or
    without a new row at the far end. *)
Lemma sound_queue (st st' : game) (d : string) :
  sound st ->
  moves st' = moves st ++ [d] ->
  currentLane st' = currentLane st ->
  currentColumn st' = currentColumn st ->
  calls st' = calls st ->
  (lanes st' = lanes st \/
   exists l, index l = Z.of_nat (List.length (lanes st)) /\
             lanes st' = lanes st ++ [l]) ->
  clear (lanes st') (advance (finalPositions st) d) ->
  sound st'.
Proof.
  intros [Hi [Hc Hs]] Em El Ec Ek Hl Hnew. unfold sound, standing.
  rewrite Em, El, Ec, Ek, path_snoc. split; [|split].
  - destruct Hl as [-> | [l [Hl ->]]]; [exact Hi|].
    rewrite length_app, map_app, Hi. cbn [List.length map].
    rewrite Nat.add_1_r, seq_S, map_app, Hl. reflexivity.
  - apply Forall_snoc; [|exact Hnew].
    destruct Hl as [-> | [l [_ ->]]]; [exact Hc|].
    eapply Forall_impl; [|exact Hc]. intros p. apply clear_app.
  - destruct Hl as [-> | [l [_ ->]]]; [exact Hs|].
    eapply Forall_impl; [|exact Hs]. intros c [Hc0 Hc1].
    rewrite length_app. cbn [List.length]. split; lia.
Qed.

Lemma advance_other (p : position) (d : string) :
  String.eqb d "forward" = false -> String.eqb d "backward" = false ->
  String.eqb d "left" = false -> String.eqb d "right" = false ->
  advance p d = p.
Proof. intros H1 H2 H3 H4. unfold advance. rewrite H1, H2, H3, H4. reflexivity. Qed.

(** [move] on a sound game: it throws nothing, and the game it returns is
    sound, with the queue as it was or longer by the move. *)
Lemma move_sound (d : string) (st : game) :
  sound st ->
  (forall rnd e, move d st rnd <> Throws e) /\
  (forall rnd st' rest,
     move d st rnd = Returns st' rest ->
     sound st' /\ (moves st' = moves st \/ moves st' = moves st ++ [d])).
Proof.
  intros Hsound.
  assert (Hfp : clear (lanes st) (finalPositions st)).
  { destruct Hsound as [_ [Hc _]]. rewrite Forall_forall in Hc. apply Hc.
    rewrite finalPositions_fold. apply path_last. }
  destruct Hfp as [H0 [H1 [H2 [l0 [Hl0 Hb0]]]]].
  assert (Hfp : clear (lanes st) (finalPositions st)).
  { split; [exact H0|]. split; [exact H1|]. split; [exact H2|].
    exists l0. split; assumption. }
  set (fp := finalPositions st) in *.
  assert (Hsame : forall rnd, (forall e : exn, @Returns game st rnd <> Throws e) /\
             (forall st' rest, Returns st rnd = Returns st' rest ->
                sound st' /\ (moves st' = moves st \/ moves st' = moves st ++ [d]))).
  { intros rnd. split; [discriminate|]. intros st' rest E. injection E as <- _.
    split; [exact Hsound | left; reflexivity]. }
  assert (Hpush : forall rnd, clear (lanes st) (advance fp d) ->
             (forall e : exn, @Returns game (push_move d (set_startMoving st)) rnd <> Throws e) /\
             (forall st' rest,
                Returns (push_move d (set_startMoving st)) rnd = Returns st' rest ->
                sound st' /\ (moves st' = moves st \/ moves st' = moves st ++ [d]))).
  { intros rnd Hnew. split; [discriminate|]. intros st' rest E. injection E as <- _.
    split; [|right; reflexivity].
    apply (sound_queue st _ d Hsound); try reflexivity; [left; reflexivity | exact Hnew]. }
  assert (Hgoal : forall rnd,
             (forall e, move d st rnd <> Throws e) /\
             (forall st' rest, move d st rnd = Returns st' rest ->
                sound st' /\ (moves st' = moves st \/ moves st' = moves st ++ [d]))).
  { intros rnd. unfold move. destruct (gameOver st); [apply Hsame|].
    fold fp. cbv zeta.
    destruct (String.eqb d "forward") eqn:Ef.
    { assert (Hr : 0 <= lane fp + 1 < Z.of_nat (List.length (lanes st))) by lia.
      destruct (blocked_in_range (lanes st) _ (column fp) Hr) as [b Hb]. rewrite Hb.
      destruct b; [apply Hsame|].
      destruct (blocked_false _ _ _ Hb) as [l [Hl Hfree]].
      unfold bind. split.
      - intros e H.
        destruct (addLane (set_startMoving st) rnd) as [st1 r1| |] eqn:Ea;
          try discriminate.
        injection H as ->. exact (no_throw_addLane _ _ _ Ea).
      - intros st' rest H.
        destruct (addLane (set_startMoving st) rnd) as [st1 r1| |] eqn:Ea;
          try discriminate.
        unfold ret in H. injection H as <- _.
        destruct (addLane_returns _ _ _ _ Ea) as [ln [Hidx ->]].
        split; [|right; reflexivity].
        apply (sound_queue st _ d Hsound); try reflexivity.
        + right. exists ln. split; [exact Hidx | reflexivity].
        + cbn [push_move set_lanes lanes set_startMoving]. fold fp.
          unfold advance. rewrite Ef. unfold clear. cbn [lane column].
          rewrite length_app. cbn [List.length].
          split; [lia|]. split; [lia|]. split; [exact H2|].
          exists l. split; [apply js_index_app; exact Hl | exact Hfree]. }
    destruct (String.eqb d "backward") eqn:Eb.
    { destruct (lane fp =? 0) eqn:Ez; [apply Hsame|]. apply Z.eqb_neq in Ez.
      assert (Hr : 0 <= lane fp - 1 < Z.of_nat (List.length (lanes st))) by lia.
      destruct (blocked_in_range (lanes st) _ (column fp) Hr) as [b Hb]. rewrite Hb.
      destruct b; [apply Hsame|].
      destruct (blocked_false _ _ _ Hb) as [l [Hl Hfree]].
      apply Hpush. unfold advance. rewrite Ef, Eb. unfold clear. cbn [lane column].
      split; [lia|]. split; [lia|]. split; [exact H2|].
      exists l. split; assumption. }
    destruct (String.eqb d "left") eqn:El.
    { destruct (column fp =? 0) eqn:Ez; [apply Hsame|]. apply Z.eqb_neq in Ez.
      assert (Hr : 0 <= lane fp < Z.of_nat (List.length (lanes st))) by lia.
      destruct (blocked_in_range (lanes st) _ (column fp - 1) Hr) as [b Hb]. rewrite Hb.
      destruct b; [apply Hsame|].
      destruct (blocked_false _ _ _ Hb) as [l [Hl Hfree]].
      apply Hpush. unfold advance. rewrite Ef, Eb, El. unfold clear. cbn [lane column].
      split; [lia|]. split; [lia|]. split; [lia|].
      exists l. split; assumption. }
    destruct (String.eqb d "right") eqn:Er.
    { destruct (column fp =? columns - 1) eqn:Ez; [apply Hsame|]. apply Z.eqb_neq in Ez.
      assert (Hr : 0 <= lane fp < Z.of_nat (List.length (lanes st))) by lia.
      destruct (blocked_in_range (lanes st) _ (column fp + 1) Hr) as [b Hb]. rewrite Hb.
      destruct b; [apply Hsame|].
      destruct (blocked_false _ _ _ Hb) as [l [Hl Hfree]].
      apply Hpush. unfold advance. rewrite Ef, Eb, El, Er. unfold clear. cbn [lane column].
      split; [lia|]. split; [lia|]. split; [unfold columns in *; lia|].
      exists l. split; assumption. }
    split; [discriminate|]. intros st' rest E. injection E as <- _.
    split; [|right; reflexivity].
    apply (sound_queue st _ d Hsound); try reflexivity; [left; reflexivity|].
    fold fp. rewrite (advance_other fp d Ef Eb El Er). exact Hfp. }
  split.
  - intros rnd. exact (proj1 (Hgoal rnd)).
  - intros rnd. exact (proj2 (Hgoal rnd)).
Qed.

Lemma no_throw_mapLane (indices : list Z) : no_throw (mapLane indices).
Proof.
  induction indices as [|i indices IH]; cbn [mapLane]; [apply no_throw_ret|].
  apply no_throw_bind; [apply no_throw_Lane|]. intros l.
  apply no_throw_bind; [exact IH|]. intros ls. apply no_throw_ret.
Qed.

Lemma no_throw_initializeValues (st : game) : no_throw (initializeValues st).
Proof.
  unfold initializeValues, generateLanes.
  apply no_throw_bind; [|intros ls; apply no_throw_ret].
  apply no_throw_bind; [apply no_throw_mapLane | intros ls; apply no_throw_ret].
Qed.

(** A new game is sound. *)
Lemma initializeValues_sound (st0 : game) (rnd : list Q) (st : game) (rest : list Q) :
  calls st0 = [] ->
  initializeValues st0 rnd = Returns st rest ->
  sound st /\ moves st = [].
Proof.
  intros Hs. unfold initializeValues, bind. intros H.
  destruct (generateLanes rnd) as [ls r0| |] eqn:Eg; try discriminate.
  unfold ret in H. injection H as <- _.
  destruct (generateLanes_returns _ _ _ Eg) as [ahead [_ [Hls Hi]]].
  assert (Hlen : List.length ls = 10%nat).
  { rewrite <- (length_map index), Hi. reflexivity. }
  split; [|reflexivity].
  unfold sound, standing. cbn [lanes currentLane currentColumn moves calls path].
  split; [rewrite Hlen; exact Hi|]. split; [|rewrite Hs; constructor].
  constructor; [|constructor]. unfold clear. cbn [lane column]. rewrite Hlen.
  split; [lia|]. split; [lia|]. split; [unfold columns; cbn; lia|].
  exists (mkLane 0 field [] [] false [] 0). rewrite Hls. split; reflexivity.
Qed.

Lemma animate_moves (t : Q) (st : game) :
  moves (animate t st) = moves st \/ moves (animate t st) = tl (moves st).
Proof.
  unfold animate.
  match goal with |- context [hitTest (stepMove t ?s1)] => set (st1 := s1) end.
  destruct (hitTest_calls (stepMove t st1)) as [_ [_ [-> _]]].
  destruct (stepMove_cases t st1) as [[_ [_ [Em _]]] | [[Em0 [_ [_ [Em _]]]] | [mv [rest [Em0 [_ [Em _]]]]]]].
  - left. rewrite Em. reflexivity.
  - left. rewrite Em. symmetry. exact Em0.
  - right. rewrite Em. change (moves st) with (moves st1). rewrite Em0. reflexivity.
Qed.

(** Moves and frames keep a game sound, and throw nothing. *)
Lemma run_sound (events : list event) :
  forall st, sound st ->
    (forall rnd e, run events st rnd <> Throws e) /\
    (forall rnd st' rest, run events st rnd = Returns st' rest -> sound st').
Proof.
  induction events as [|ev events IH]; intros st Hst; cbn [run].
  - split; [discriminate|]. intros rnd st' rest E. injection E as <- _. exact Hst.
  - unfold bind. destruct ev as [d|t]; cbn [step].
    + destruct (move_sound d st Hst) as [Hn Hr]. split.
      * intros rnd e H. destruct (move d st rnd) as [st1 r1| |] eqn:Em;
          try discriminate.
        -- exact (proj1 (IH st1 (proj1 (Hr _ _ _ Em))) _ _ H).
        -- exact (Hn _ _ Em).
      * intros rnd st' rest H. destruct (move d st rnd) as [st1 r1| |] eqn:Em;
          try discriminate.
        exact (proj2 (IH st1 (proj1 (Hr _ _ _ Em))) _ _ _ H).
    + unfold ret. apply IH. apply sound_animate. exact Hst.
Qed.

Lemma session_sound (events : list event) :
  (forall rnd e, session events rnd <> Throws e) /\
  (forall rnd st rest, session events rnd = Returns st rest -> sound st).
Proof.
  unfold session, bind. split.
  - intros rnd e H.
    destruct (initializeValues initialState rnd) as [st0 r0| |] eqn:Ei;
      try discriminate.
    + destruct (initializeValues_sound initialState _ _ _ eq_refl Ei) as [Hs _].
      exact (proj1 (run_sound events st0 Hs) _ _ H).
    + exact (no_throw_initializeValues _ _ _ Ei).
  - intros rnd st rest H.
    destruct (initializeValues initialState rnd) as [st0 r0| |] eqn:Ei;
      try discriminate.
    destruct (initializeValues_sound initialState _ _ _ eq_refl Ei) as [Hs _].
    exact (proj2 (run_sound events st0 Hs) _ _ _ H).
Qed.

End PlayFacts.

(** ** CrossyGame: sessions *)

Section SessionTheorems.
Import CrossyGame.

(** X22.  A session throws nothing, whatever the moves, the frames and the
    draws: every row that [move] reads exists, because the board always has
    nine rows beyond the furthest cell the player is bound for. *)
Theorem session_never_throws :
  forall (events : list event) (rnd : list Q) (e : exn),
    session events rnd <> Throws e.
Proof. intros events. exact (proj1 (session_sound events)). Qed.

Lemma session_never_throws_witness :
  session [Move "forward"; Frame 1; Move "backward"] forestDraws <> Throws TypeError.
Proof.
  apply (session_never_throws [Move "forward"; Frame 1; Move "backward"] forestDraws).
Defined.

(** X23.  Throughout a session the player stands on a cell of the board
    that holds no tree, and so does the cell that the pending moves lead
    to. *)
Theorem player_stays_on_clear_cells :
  forall (events : list event) (rnd : list Q) (st : game) (rest : list Q),
    session events rnd = Returns st rest ->
    (0 <= currentLane st /\
     0 <= currentColumn st < columns /\
     blocked (lanes st) (currentLane st) (currentColumn st) = Ok false) /\
    (0 <= lane (finalPositions st) /\
     0 <= column (finalPositions st) < columns /\
     blocked (lanes st) (lane (finalPositions st)) (column (finalPositions st))
       = Ok false) /\
    lane (finalPositions st) + 10 <= Z.of_nat (List.length (lanes st)).
Proof.
  intros events rnd st rest H.
  destruct (proj2 (session_sound events) _ _ _ H) as [_ [Hc _]].
  rewrite Forall_forall in Hc.
  pose proof (Hc _ (path_head _ _)) as Hcur.
  assert (Hfin : clear (lanes st) (finalPositions st)).
  { apply Hc. rewrite finalPositions_fold. apply path_last. }
  split.
  - destruct Hcur as [H0 [_ [H2 _]]]. split; [exact H0|]. split; [exact H2|].
    exact (clear_blocked _ _ (Hc _ (path_head _ _))).
  - pose proof (clear_blocked _ _ Hfin) as Hb.
    destruct Hfin as [H0 [H1 [H2 _]]].
    split; [|exact H1]. split; [exact H0|]. split; [exact H2 | exact Hb].
Qed.

Lemma player_stays_on_clear_cells_witness :
  exists st rest,
    session [Move "forward"; Frame 1; Move "left"; Frame 300] forestDraws
      = Returns st rest /\
    0 <= currentLane st /\ 0 <= currentColumn st < columns.
Proof.
  eassert (E : session [Move "forward"; Frame 1; Move "left"; Frame 300] forestDraws
               = Returns _ _) by (vm_compute; reflexivity).
  destruct (player_stays_on_clear_cells _ _ _ _ E) as [[H0 [H1 _]] _].
  eexists. eexists. split; [exact E|]. split; [exact H0 | exact H1].
Defined.

(** X24.  Every score that a session reports, through [onScoreChange] or
    [onGameOver], is a row of the board: at least 0 and at most the number
    of rows that forward moves have added. *)
Theorem reported_scores_are_rows :
  forall (events : list event) (rnd : list Q) (st : game) (rest : list Q),
    session events rnd = Returns st rest ->
    Forall (fun c => 0 <= reported c <= Z.of_nat (List.length (lanes st)) - 10)
           (calls st).
Proof.
  intros events rnd st rest H.
  destruct (proj2 (session_sound events) _ _ _ H) as [_ [_ Hs]].
  eapply Forall_impl; [|exact Hs]. cbv beta. intros c Hc. lia.
Qed.

Lemma reported_scores_are_rows_witness :
  exists st rest,
    session [Move "forward"; Frame 1; Frame 300] forestDraws = Returns st rest /\
    calls st = [onScoreChange 1] /\
    Forall (fun c => 0 <= reported c <= Z.of_nat (List.length (lanes st)) - 10)
           (calls st).
Proof.
  eassert (E : session [Move "forward"; Frame 1; Frame 300] forestDraws
               = Returns _ _) by (vm_compute; reflexivity).
  eexists. eexists. split; [exact E|]. split; [reflexivity|].
  exact (reported_scores_are_rows _ _ _ _ E).
Defined.

(** X25.  The rows of a session are numbered from 0 in the order of the
    array, so that [lanes[i].index] is [i], and there are never fewer than
    the ten of a new game. *)
Theorem rows_numbered_from_zero :
  forall (events : list event) (rnd : list Q) (st : game) (rest : list Q),
    session events rnd = Returns st rest ->
    (10 <= List.length (lanes st))%nat /\
    forall i l, js_index (lanes st) i = Some l -> index l = i.
Proof.
  intros events rnd st rest H.
  destruct (proj2 (session_sound events) _ _ _ H) as [Hi [Hc _]].
  split.
  - rewrite Forall_forall in Hc.
    destruct (Hc _ (path_head _ _)) as [H0 [H1 _]]. cbn [lane] in H0, H1. lia.
  - intros i l Hl. pose proof (js_index_Some _ _ _ Hl) as Hr.
    unfold js_index in Hl. destruct (i <? 0); [discriminate|].
    assert (E : nth_error (map index (lanes st)) (Z.to_nat i) = Some (index l))
      by (rewrite nth_error_map, Hl; reflexivity).
    rewrite Hi, nth_error_map in E.
    rewrite (nth_error_nth' _ 0%nat) in E by (rewrite length_seq; lia).
    rewrite seq_nth in E by lia. cbn [option_map] in E. injection E as E. lia.
Qed.

Lemma rows_numbered_from_zero_witness :
  exists st rest,
    session [Move "forward"; Move "forward"] forestDraws = Returns st rest /\
    (10 <= List.length (lanes st))%nat.
Proof.
  eassert (E : session [Move "forward"; Move "forward"] forestDraws
               = Returns _ _) by (vm_compute; reflexivity).
  eexists. eexists. split; [exact E|].
  exact (proj1 (rows_numbered_from_zero _ _ _ _ E)).
Defined.

(** *** The keyboard *)

Lemma handleKeyDown_cases (key : string) (st : game) :
  (exists d, In d ["forward"; "backward"; "left"; "right"] /\
             handleKeyDown key st = move d st) \/
  handleKeyDown key st = ret st.
Proof.
  unfold handleKeyDown.
  destruct (_ || _); [left; exists "forward"; split; [cbn; tauto | reflexivity]|].
  destruct (_ || _); [left; exists "backward"; split; [cbn; tauto | reflexivity]|].
  destruct (_ || _); [left; exists "left"; split; [cbn; tauto | reflexivity]|].
  destruct (_ || _); [left; exists "right"; split; [cbn; tauto | reflexivity]|].
  right. reflexivity.
Qed.

Lemma Forall_tl {A : Type} (P : A -> Prop) (l : list A) :
  Forall P l -> Forall P (tl l).
Proof. intros H. destruct H; [constructor | assumption]. Qed.

Lemma play_sound (inputs : list input) :
  forall st,
    sound st ->
    Forall (fun mv => In mv ["forward"; "backward"; "left"; "right"]) (moves st) ->
    (forall rnd e, play inputs st rnd <> Throws e) /\
    (forall rnd st' rest,
       play inputs st rnd = Returns st' rest ->
       sound st' /\
       Forall (fun mv => In mv ["forward"; "backward"; "left"; "right"]) (moves st')).
Proof.
  induction inputs as [|i inputs IH]; intros st Hst Hq; cbn [play].
  - split; [discriminate|]. intros rnd st' rest E. injection E as <- _.
    split; assumption.
  - destruct i as [key|t].
    + unfold bind.
      destruct (handleKeyDown_cases key st) as [[d [Hd ->]] | ->].
      * destruct (move_sound d st Hst) as [Hn Hr].
        assert (Hnext : forall rnd st1 r1, move d st rnd = Returns st1 r1 ->
                  sound st1 /\
                  Forall (fun mv => In mv ["forward"; "backward"; "left"; "right"])
                         (moves st1)).
        { intros rnd st1 r1 Em. destruct (Hr _ _ _ Em) as [Hs [-> | ->]].
          - split; assumption.
          - split; [exact Hs|]. apply Forall_snoc; assumption. }
        split.
        -- intros rnd e H. destruct (move d st rnd) as [st1 r1| |] eqn:Em;
             try discriminate.
           ++ destruct (Hnext _ _ _ Em) as [Hs1 Hq1].
              exact (proj1 (IH st1 Hs1 Hq1) _ _ H).
           ++ exact (Hn _ _ Em).
        -- intros rnd st' rest H. destruct (move d st rnd) as [st1 r1| |] eqn:Em;
             try discriminate.
           destruct (Hnext _ _ _ Em) as [Hs1 Hq1].
           exact (proj2 (IH st1 Hs1 Hq1) _ _ _ H).
      * unfold ret. apply IH; assumption.
    + apply IH; [apply sound_animate; exact Hst|].
      destruct (animate_moves t st) as [-> | ->]; [exact Hq | apply Forall_tl; exact Hq].
Qed.

(** X26.  Keys and frames on a new game throw nothing, and all that the
    keys ever put into the queue of moves is one of the four directions; a
    key other than the arrows and [w], [a], [s], [d] leaves the game as it
    is. *)
Theorem keys_queue_only_directions :
  forall (inputs : list input) (rnd0 : list Q) (st0 : game) (rest0 rnd : list Q),
    initializeValues initialState rnd0 = Returns st0 rest0 ->
    (forall e, play inputs st0 rnd <> Throws e) /\
    (forall st rest,
       play inputs st0 rnd = Returns st rest ->
       Forall (fun mv => In mv ["forward"; "backward"; "left"; "right"]) (moves st)) /\
    (forall key,
       ~ In key ["ArrowUp"; "w"; "ArrowDown"; "s"; "ArrowLeft"; "a"; "ArrowRight"; "d"] ->
       handleKeyDown key st0 rnd = Returns st0 rnd).
Proof.
  intros inputs rnd0 st0 rest0 rnd Ei.
  destruct (initializeValues_sound initialState _ _ _ eq_refl Ei) as [Hs Hm].
  assert (Hq : Forall (fun mv => In mv ["forward"; "backward"; "left"; "right"])
                      (moves st0)) by (rewrite Hm; constructor).
  destruct (play_sound inputs st0 Hs Hq) as [Hn Hr].
  split; [intros e; apply Hn|]. split.
  - intros st rest H. exact (proj2 (Hr _ _ _ H)).
  - intros key Hk. unfold handleKeyDown.
    assert (Hne : forall k, In k ["ArrowUp"; "w"; "ArrowDown"; "s"; "ArrowLeft"; "a";
                                  "ArrowRight"; "d"] -> String.eqb key k = false).
    { intros k Hin. apply String.eqb_neq. intros ->. exact (Hk Hin). }
    rewrite !Hne by (cbn; tauto). reflexivity.
Qed.

Lemma keys_queue_only_directions_witness :
  exists st0 rest0,
    initializeValues initialState forestDraws = Returns st0 rest0 /\
    handleKeyDown "x" st0 rest0 = Returns st0 rest0.
Proof.
  eassert (E : initializeValues initialState forestDraws = Returns _ _)
    by (vm_compute; reflexivity).
  eexists. eexists. split; [exact E|].
  apply (proj2 (proj2 (keys_queue_only_directions [] _ _ _ _ E))).
  cbn. intros H. repeat (destruct H as [H|H]; [discriminate|]). exact H.
Defined.

End SessionTheorems.

(** ** CrossyGame: frames *)

Section FrameFacts.
Import CrossyGame.

(** X27.  A frame moves vehicles and nothing else of a row: the number of
    rows and, row by row, the index, the type, the trees and their columns,
    the direction, the speed and the colours of the vehicles stay. *)
Theorem frame_moves_only_vehicles :
  forall (t : Q) (st : game),
    map fixed (lanes (animate t st)) = map fixed (lanes st) /\
    map (fun l => List.length (vehicles l)) (lanes (animate t st)) =
    map (fun l => List.length (vehicles l)) (lanes st).
Proof.
  intros t st. unfold animate. rewrite hitTest_lanes, stepMove_lanes.
  cbn [lanes]. rewrite !map_map. split; apply map_ext; intros l.
  - apply driveLane_fixed.
  - unfold driveLane. destruct (is_road (type l)); [|reflexivity].
    cbn [vehicles]. apply length_map.
Qed.

Lemma hitVehicle_chicken (ty : LaneType) (st : game) (v : vehicle) :
  chicken_position_x (hitVehicle ty st v) = chicken_position_x st.
Proof.
  unfold hitVehicle. destruct (hits ty (chicken_position_x st) v); reflexivity.
Qed.

Lemma hitVehicles_gameOver (ty : LaneType) (vs : list vehicle) :
  forall st,
    gameOver (fold_left (hitVehicle ty) vs st) =
    gameOver st || existsb (hits ty (chicken_position_x st)) vs.
Proof.
  induction vs as [|v vs IH]; intros st; cbn [fold_left existsb].
  - rewrite orb_false_r. reflexivity.
  - rewrite IH, hitVehicle_chicken. unfold hitVehicle.
    destruct (hits ty (chicken_position_x st) v); cbn [gameOver orb].
    + rewrite orb_true_r. reflexivity.
    + reflexivity.
Qed.

Lemma hitVehicles_miss (ty : LaneType) (vs : list vehicle) (st : game) :
  existsb (hits ty (chicken_position_x st)) vs = false ->
  fold_left (hitVehicle ty) vs st = st.
Proof.
  induction vs as [|v vs IH]; cbn [fold_left existsb]; [reflexivity|].
  intros H. apply orb_false_iff in H. destruct H as [Hv Hvs].
  unfold hitVehicle at 2. rewrite Hv. exact (IH Hvs).
Qed.

(** The hit test calls [onGameOver] once for each vehicle that hits. *)
Lemma hitVehicles_calls (ty : LaneType) (vs : list vehicle) :
  forall st,
    calls (fold_left (hitVehicle ty) vs st) =
    calls st ++ repeat (onGameOver (currentLane st))
                       (List.length (filter (hits ty (chicken_position_x st)) vs)).
Proof.
  induction vs as [|v vs IH]; intros st; cbn [fold_left filter].
  - cbn. rewrite app_nil_r. reflexivity.
  - rewrite IH, hitVehicle_chicken. unfold hitVehicle.
    destruct (hits ty (chicken_position_x st) v);
      cbn [calls currentLane List.length repeat].
    + rewrite <- app_assoc. reflexivity.
    + reflexivity.
Qed.

(** The comparison of [animate] on one vehicle, as a distance between the
    centres. *)
Lemma hits_distance (ty : LaneType) (x : Q) (v : vehicle) :
  hits ty x v = true <->
  (Qabs (x - position_x v) < 15 + vehicleLength ty)%Q.
Proof.
  unfold hits. rewrite andb_true_iff, !Qltb_iff.
  assert (Ec : ((chickenSize * zoom) / 2 == 15)%Q) by reflexivity.
  assert (Ev : ((vehicleLength ty * zoom) / 2 == vehicleLength ty)%Q)
    by (unfold zoom; field).
  rewrite Ec, Ev, Qabs_Qlt_condition.
  set (w := vehicleLength ty). set (p := position_x v).
  split; intros [H1 H2]; split; lra.
Qed.

Lemma road_overlap (st : game) (l : laneT) :
  js_index (lanes st) (currentLane st) = Some l ->
  (is_road (type l) && existsb (hits (type l) (chicken_position_x st)) (vehicles l)
   = true <-> overlaps st).
Proof.
  intros Hl. rewrite andb_true_iff, existsb_exists. split.
  - intros [Hr [v [Hin Hv]]]. apply hits_distance in Hv.
    exists l, v. split; [exact Hl|]. split; [exact Hin|].
    destruct (type l); try discriminate; [left | right];
      (split; [reflexivity | exact Hv]).
  - intros [l' [v [Hl' [Hin H]]]]. rewrite Hl in Hl'. injection Hl' as <-.
    destruct H as [[Ht Hd] | [Ht Hd]]; rewrite Ht; (split; [reflexivity|]);
      exists v; (split; [exact Hin|]); apply hits_distance; exact Hd.
Qed.

(** X28.  After the hit test the game is over exactly if it was over
    before or the chicken overlaps a vehicle of the row the player is on: a
    car whose centre is less than 75 from the centre of the chicken, or a
    truck whose centre is less than 120 from it.  With such an overlap
    [onGameOver] is called with the current lane; without one the test
    changes nothing. *)
Theorem hitTest_ends_game_on_collision :
  forall st : game,
    (gameOver (hitTest st) = true <-> gameOver st = true \/ overlaps st) /\
    (overlaps st ->
     exists n, calls (hitTest st) =
               calls st ++ repeat (onGameOver (currentLane st)) (S n)) /\
    (~ overlaps st -> hitTest st = st).
Proof.
  intros st. unfold hitTest.
  destruct (js_index (lanes st) (currentLane st)) as [l|] eqn:El.
  - pose proof (road_overlap st l El) as Ho.
    destruct (is_road (type l)) eqn:Er; cbn [andb] in Ho.
    + split; [|split].
      * rewrite hitVehicles_gameOver, orb_true_iff, Ho. reflexivity.
      * intros H. apply Ho in H. rewrite hitVehicles_calls.
        apply existsb_exists in H. destruct H as [v [Hin Hv]].
        assert (Hf : In v (filter (hits (type l) (chicken_position_x st)) (vehicles l)))
          by (apply filter_In; split; assumption).
        destruct (filter (hits (type l) (chicken_position_x st)) (vehicles l))
          as [|v0 vs]; [contradiction|].
        exists (List.length vs). reflexivity.
      * intros H. apply hitVehicles_miss.
        destruct (existsb _ _) eqn:E; [|reflexivity].
        exfalso. apply H, Ho. reflexivity.
    + split; [|split].
      * split; [intros H; left; exact H|].
        intros [H|H]; [exact H|]. apply Ho in H. discriminate.
      * intros H. apply Ho in H. discriminate.
      * reflexivity.
  - assert (Hno : ~ overlaps st).
    { intros [l [v [Hl _]]]. rewrite El in Hl. discriminate. }
    split; [|split].
    + split; [intros H; left; exact H|]. intros [H|H]; [exact H | contradiction].
    + intros H. contradiction.
    + reflexivity.
Qed.

Lemma hitTest_ends_game_on_collision_witness :
  let st := mkGame [mkLane 0 field [] [] false [] 0;
                    mkLane 1 car [] [] true [mkVehicle 7909707 (-60)] 2]
                   1 8 (Some 500%Q) false [] None false 0%Q 84%Q [onScoreChange 1] in
  gameOver (hitTest st) = true /\
  exists n, calls (hitTest st) = [onScoreChange 1] ++ repeat (onGameOver 1) (S n).
Proof.
  intros st.
  assert (H : overlaps st).
  { exists (mkLane 1 car [] [] true [mkVehicle 7909707 (-60)] 2),
           (mkVehicle 7909707 (-60)).
    split; [reflexivity|]. split; [left; reflexivity|].
    left. split; reflexivity. }
  split.
  - apply (proj1 (hitTest_ends_game_on_collision st)). right. exact H.
  - exact (proj1 (proj2 (hitTest_ends_game_on_collision st)) H).
Defined.

(** X29.  A frame in which no move completes leaves the lane, the column
    and the queue of the player as they are, and reports no score. *)
Theorem frame_within_step_keeps_player :
  forall (t : Q) (st : game),
    moveCompletes t st = false ->
    currentLane (animate t st) = currentLane st /\
    currentColumn (animate t st) = currentColumn st /\
    moves (animate t st) = moves st /\
    exists n, calls (animate t st) = calls st ++ repeat (onGameOver (currentLane st)) n.
Proof.
  intros t st H. unfold animate.
  match goal with |- context [hitTest (stepMove t ?s1)] => set (st1 := s1) end.
  assert (Hstep : currentLane (stepMove t st1) = currentLane st /\
                  currentColumn (stepMove t st1) = currentColumn st /\
                  moves (stepMove t st1) = moves st /\
                  calls (stepMove t st1) = calls st).
  { unfold moveCompletes in H. unfold stepMove, st1. cbn [stepStartTimestamp].
    destruct (if startMoving st then Some t else stepStartTimestamp st) as [s|];
      [|repeat split; reflexivity].
    destruct (Qeq_bool s 0); [repeat split; reflexivity|].
    cbn [negb andb] in H.
    destruct (chickenAt _ (t - s)) as [x y]. rewrite H. repeat split; reflexivity. }
  destruct Hstep as [El [Ec [Em Ek]]].
  destruct (hitTest_calls (stepMove t st1)) as [Hl [Hc [Hm [_ [n Hn]]]]].
  rewrite Hl, Hc, Hm, Hn, El, Ec, Em, Ek.
  split; [reflexivity|]. split; [reflexivity|]. split; [reflexivity|].
  exists n. reflexivity.
Qed.

Lemma frame_within_step_keeps_player_witness :
  moves (animate 100%Q (mkGame [] 0 8 (Some 0%Q) false ["forward"] (Some 1%Q) false 0%Q 0%Q []))
  = ["forward"].
Proof.
  exact (proj1 (proj2 (proj2
    (frame_within_step_keeps_player 100%Q
       (mkGame [] 0 8 (Some 0%Q) false ["forward"] (Some 1%Q) false 0%Q 0%Q [])
       eq_refl)))).
Defined.

Lemma Qmin_one (x : Q) : (1 <= x)%Q -> (Qmin x 1 == 1)%Q.
Proof. intros H. apply Q.min_r. exact H. Qed.

Lemma moveDeltaDistance_full (dt : Q) :
  Qltb stepTime dt = true -> (moveDeltaDistance dt == 84)%Q.
Proof.
  intros H. apply Qltb_iff in H. unfold moveDeltaDistance.
  rewrite Qmin_one.
  - reflexivity.
  - unfold stepTime in *. apply Qle_shift_div_l; [reflexivity|]. lra.
Qed.

(** X30.  When a move completes, the chicken is drawn at the very cell
    that the player has then reached: at the row of the new lane after a
    forward or backward move, at the centre of the new column after a left
    or right move. *)
Theorem completed_move_lands_on_cell :
  forall (t s : Q) (st : game) (mv : string) (rest : list string),
    stepStartTimestamp st = Some s ->
    Qeq_bool s 0 = false ->
    Qltb stepTime (t - s) = true ->
    moves st = mv :: rest ->
    (mv = "forward" \/ mv = "backward" ->
     (chicken_position_y (stepMove t st)
      == inject_Z (currentLane (stepMove t st)) * positionWidth * zoom)%Q /\
     chicken_position_x (stepMove t st) = chicken_position_x st) /\
    (mv = "left" \/ mv = "right" ->
     (chicken_position_x (stepMove t st)
      == columnCentre (currentColumn (stepMove t st)))%Q /\
     chicken_position_y (stepMove t st) = chicken_position_y st).
Proof.
  intros t s st mv rest Hs Hz Hd Hm.
  pose proof (moveDeltaDistance_full _ Hd) as Hfull.
  unfold stepMove. rewrite Hs, Hz. unfold chickenAt. rewrite Hm.
  unfold js_index. cbn [Z.ltb Z.compare Z.to_nat nth_error].
  set (d := moveDeltaDistance (t - s)) in *. clearbody d.
  split; intros [-> | ->]; cbn [String.eqb Ascii.eqb Bool.eqb];
    rewrite Hd;
    cbn [chicken_position_x chicken_position_y currentLane currentColumn];
    (split; [|reflexivity]);
    unfold columnCentre, boardWidth, positionWidth, zoom, columns;
    rewrite ?inject_Z_plus, ?inject_Z_opp; unfold Z.sub;
    rewrite ?inject_Z_plus, ?inject_Z_opp; rewrite Hfull;
    change (inject_Z 1) with 1%Q; change (inject_Z 17) with 17%Q; field.
Qed.

Lemma completed_move_lands_on_cell_witness :
  (chicken_position_y
     (stepMove 300%Q (mkGame [] 0 8 (Some 0%Q) false ["forward"] (Some 1%Q) false 0%Q 0%Q []))
   == inject_Z 1 * positionWidth * zoom)%Q.
Proof.
  exact (proj1 (proj1
    (completed_move_lands_on_cell 300%Q 1%Q
       (mkGame [] 0 8 (Some 0%Q) false ["forward"] (Some 1%Q) false 0%Q 0%Q [])
       "forward" [] eq_refl eq_refl eq_refl eq_refl) (or_introl eq_refl))).
Defined.

End FrameFacts.
